(** * mcpy / mcpyrate: macro expander, dialect expander, importer hooks, splicing

    A shallow embedding of the parts of the repository that the verified
    properties talk about:

    - [PyAst]: Python [ast] nodes, with the two helpers of the standard
      [ast] module the expander relies on ([copy_location],
      [fix_missing_locations]);
    - [Expander]: [BaseMacroExpander] (mcpy/visitors.py) and [MacroExpander]
      (mcpy/expander.py);
    - [Discovery]: [find_macros] and [_get_macros] (mcpy/expander.py);
    - [Dialects]: [DialectExpander] (mcpy/dialects.py);
    - [Importer]: [path_xstats] (mcpyrate/importer.py);
    - [Splicing]: [splice_statements] (mcpy/splicing.py).

    Part I holds the definitions, Part II the theorems. *)

From Stdlib Require Import ZArith Lia Ascii String DecimalString.
From stdpp Require Import base option list relations gmap strings.

Local Open Scope string_scope.
Local Open Scope list_scope.
Set Warnings "-register-all".

(* ===================================================================== *)
(** * Part I: definitions *)
(* ===================================================================== *)

(** ** Outcomes of running Python code *)

(** Exceptions, by class.  [ModuleNotFoundError] is a subclass of
    [ImportError]; the other classes are unrelated to it. *)
Inductive exn : Type :=
| SyntaxError (msg : string)
| ImportError (msg : string)
| ModuleNotFoundError (msg : string)
| TypeError (msg : string)
| ValueError (msg : string)
| AttributeError (attr : string)
| KeyError (key : string)
| IndexError
| OSError (path : string).

(** [isinstance(e, ImportError)]. *)
Definition is_ImportError (e : exn) : bool :=
  match e with
  | ImportError _ | ModuleNotFoundError _ => true
  | _ => false
  end.

(** A run returns a value, raises, or does not finish within the fuel
    it was given (Python would recurse or loop further). *)
Inductive outcome (A : Type) : Type :=
| Ok (a : A)
| Raise (e : exn)
| OutOfFuel.
Arguments Ok {A} a.
Arguments Raise {A} e.
Arguments OutOfFuel {A}.

Definition obind {A B} (m : outcome A) (k : A -> outcome B) : outcome B :=
  match m with
  | Ok a => k a
  | Raise e => Raise e
  | OutOfFuel => OutOfFuel
  end.

(** Two lists agree element by element under [f]. *)
Section All2.
Context {A : Type} (f : A -> A -> bool).
Fixpoint all2 (xs ys : list A) : bool :=
  match xs, ys with
  | [], [] => true
  | x :: xs', y :: ys' => f x y && all2 xs' ys'
  | _, _ => false
  end.
End All2.

(** ** Python [ast] trees *)
Module PyAst.

(** A value found in a tree: a node object (class name, fields in
    [_fields] order, and the optional [lineno] / [col_offset] attributes),
    a Python list, or a scalar. *)
Inductive ast : Type :=
| Node (cls : string) (fields : list (string * ast)) (lineno col_offset : option Z)
| PyList (items : list ast)
| PyStr (s : string)
| PyInt (z : Z)
| PyNone.

Definition is_node (t : ast) : bool :=
  match t with Node _ _ _ _ => true | _ => false end.

(** [t is None]. *)
Definition is_None (t : ast) : bool :=
  match t with PyNone => true | _ => false end.

(** [isinstance(t, C)] for a node class [C]. *)
Definition isinstance (t : ast) (c : string) : bool :=
  match t with Node cls _ _ _ => bool_decide (cls = c) | _ => false end.

Fixpoint assoc (f : string) (fields : list (string * ast)) : option ast :=
  match fields with
  | [] => None
  | (g, v) :: rest => if bool_decide (g = f) then Some v else assoc f rest
  end.

(** [node.f]; raises [AttributeError] when the attribute is not set. *)
Definition getattr (t : ast) (f : string) : outcome ast :=
  match t with
  | Node _ fields _ _ =>
      match assoc f fields with Some v => Ok v | None => Raise (AttributeError f) end
  | _ => Raise (AttributeError f)
  end.

Fixpoint set_assoc (f : string) (v : ast) (fields : list (string * ast)) : list (string * ast) :=
  match fields with
  | [] => [(f, v)]
  | (g, w) :: rest => if bool_decide (g = f) then (g, v) :: rest else (g, w) :: set_assoc f v rest
  end.

(** [node.f = v]. *)
Definition setattr (t : ast) (f : string) (v : ast) : ast :=
  match t with
  | Node cls fields l c => Node cls (set_assoc f v fields) l c
  | _ => t
  end.

(** [ast.Name(id=..., ctx=Load())], [ast.Constant(value=None)] and friends,
    as a macro or the expander builds them: without location. *)
Definition Load : ast := Node "Load" [] None None.
Definition Name (id : string) : ast := Node "Name" [("id", PyStr id); ("ctx", Load)] None None.
Definition Constant (v : ast) : ast := Node "Constant" [("value", v)] None None.
Definition Expr (v : ast) : ast := Node "Expr" [("value", v)] None None.

(** The identifier of a [Name] node. *)
Definition name_id (t : ast) : option string :=
  match t with
  | Node cls fields _ _ =>
      if bool_decide (cls = "Name") then
        match assoc "id" fields with Some (PyStr s) => Some s | _ => None end
      else None
  | _ => None
  end.

(** [type(t).__name__] of a node. *)
Definition class_of (t : ast) : string :=
  match t with Node cls _ _ _ => cls | _ => "" end.

Definition lineno_of (t : ast) : option Z :=
  match t with Node _ _ l _ => l | _ => None end.
Definition col_offset_of (t : ast) : option Z :=
  match t with Node _ _ _ c => c | _ => None end.

(** Height of a tree; bounds the recursion depth of a visitor. *)
Fixpoint depth (t : ast) : nat :=
  match t with
  | Node _ fields _ _ => S (list_max (map (fun p => depth (snd p)) fields))
  | PyList items => S (list_max (map depth items))
  | _ => 0
  end.

Section Locations.

(** Whether a node class declares [lineno] and [col_offset] in its
    [_attributes] (statements and expressions do; [Module], [Load],
    operators, [arguments], ... do not).  The table belongs to the Python
    version in use. *)
Variable located : string -> bool.

(** [ast.copy_location(new_node, old_node)]: each attribute that both
    classes declare and that [old_node] has set is copied over,
    overwriting what [new_node] had. *)
Definition copy_location (new_node old_node : ast) : ast :=
  match new_node, old_node with
  | Node cls fields l c, Node ocls _ ol oc =>
      if located cls && located ocls then
        Node cls fields (match ol with Some _ => ol | None => l end)
                        (match oc with Some _ => oc | None => c end)
      else new_node
  | _, _ => new_node
  end.

(** The helper [_fix] of [ast.fix_missing_locations]: a located node
    without [lineno] (resp. [col_offset]) takes the inherited value, a
    located node with one passes its own on to its children
    ([iter_child_nodes]: node-valued fields and the nodes inside
    list-valued fields). *)
Fixpoint _fix (t : ast) (lineno col_offset : Z) {struct t} : ast :=
  match t with
  | Node cls fields l c =>
      let l' := if located cls then Some (default lineno l) else l in
      let c' := if located cls then Some (default col_offset c) else c in
      let ln := if located cls then default lineno l else lineno in
      let co := if located cls then default col_offset c else col_offset in
      Node cls
           (map (fun p =>
                   (fst p,
                    match snd p with
                    | Node _ _ _ _ | PyList _ => _fix (snd p) ln co
                    | v => v
                    end)) fields)
           l' c'
  | PyList items =>
      (* the nodes held by a list-valued field *)
      PyList (map (fun i => match i with
                            | Node _ _ _ _ => _fix i lineno col_offset
                            | _ => i
                            end) items)
  | _ => t
  end.

(** [ast.fix_missing_locations(node)]. *)
Definition fix_missing_locations (t : ast) : ast := _fix t 1 0.

(** Every located node reachable through [iter_child_nodes] has both
    attributes set. *)
Fixpoint complete (t : ast) : bool :=
  match t with
  | Node cls fields l c =>
      (if located cls then bool_decide (is_Some l) && bool_decide (is_Some c) else true)
      && forallb (fun p =>
                    match snd p with
                    | Node _ _ _ _ | PyList _ => complete (snd p)
                    | _ => true
                    end) fields
  | PyList items =>
      forallb (fun i => match i with
                        | Node _ _ _ _ => complete i
                        | _ => true
                        end) items
  | _ => true
  end.

End Locations.

(** [t'] is [t] with location attributes filled in: the same classes,
    fields and scalars, and every [lineno] / [col_offset] that is set in
    [t] has the same value in [t']. *)
Definition keeps_attr (o o' : option Z) : bool :=
  match o with
  | Some z => bool_decide (o' = Some z)
  | None => true
  end.

Fixpoint keeps (t t' : ast) {struct t} : bool :=
  match t, t' with
  | Node cls fields l c, Node cls' fields' l' c' =>
      bool_decide (cls = cls') && keeps_attr l l' && keeps_attr c c'
      && all2 (fun p p' => bool_decide (fst p = fst p') && keeps (snd p) (snd p'))
              fields fields'
  | PyList items, PyList items' => all2 keeps items items'
  | PyStr s, PyStr s' => bool_decide (s = s')
  | PyInt z, PyInt z' => bool_decide (z = z')
  | PyNone, PyNone => true
  | _, _ => false
  end.

(** [_attributes] of the node classes of Python 3.8, the version whose
    [Subscript.slice.value] layout the expander reads: the classes below
    declare no location, every other class does.  The last entry is the
    expander's own marker class [Done], a plain subclass of [ast.AST]. *)
Definition unlocated_classes : list string :=
  ["Module"; "Interactive"; "Expression"; "FunctionType"; "Suite";
   "Load"; "Store"; "Del"; "AugLoad"; "AugStore"; "Param";
   "Slice"; "ExtSlice"; "Index";
   "And"; "Or"; "Add"; "Sub"; "Mult"; "MatMult"; "Div"; "Mod"; "Pow";
   "LShift"; "RShift"; "BitOr"; "BitXor"; "BitAnd"; "FloorDiv";
   "Invert"; "Not"; "UAdd"; "USub";
   "Eq"; "NotEq"; "Lt"; "LtE"; "Gt"; "GtE"; "Is"; "IsNot"; "In"; "NotIn";
   "comprehension"; "arguments"; "keyword"; "alias"; "withitem"; "TypeIgnore";
   "Done"].

Definition py38_located (cls : string) : bool :=
  negb (bool_decide (cls ∈ unlocated_classes)).

End PyAst.

(** ** The macro expander (mcpy/visitors.py, mcpy/expander.py) *)
Module Expander.
Import PyAst.

(** The four invocation syntaxes. *)
Inductive syntax : Type := expr | block | decorator | name.

(** A macro function, as the expander sees it: what it returns for a given
    syntax and argument tree ([PyNone] for [None], a node, or a list of
    nodes), and whether [namemacro] has set [_isnamemacro] on it.  A
    macro is taken to build its result without editing its argument in
    place; the services passed through [**kw] are not part of the
    model. *)
Record macro : Type := Macro {
  macro_fn : syntax -> ast -> ast;
  _isnamemacro : bool
}.

(** One call of a macro function by the expander. *)
Record call : Type := Call {
  call_name : string;
  call_syntax : syntax;
  call_tree : ast
}.

(** The mutable part of an expander instance: [self.recursive], and the
    macro calls made so far, oldest first. *)
Record xstate : Type := XState {
  recursive : bool;
  calls : list call
}.

(** Expander methods run in a state-and-exception monad. *)
Definition M (A : Type) : Type := xstate -> outcome (A * xstate).

Definition ret {A} (a : A) : M A := fun st => Ok (a, st).
Definition bind {A B} (m : M A) (k : A -> M B) : M B :=
  fun st => match m st with
            | Ok (a, st') => k a st'
            | Raise e => Raise e
            | OutOfFuel => OutOfFuel
            end.
Definition raise {A} (e : exn) : M A := fun _ => Raise e.
Definition out_of_fuel {A} : M A := fun _ => OutOfFuel.
Definition lift {A} (o : outcome A) : M A :=
  fun st => match o with
            | Ok a => Ok (a, st)
            | Raise e => Raise e
            | OutOfFuel => OutOfFuel
            end.
Definition get_recursive : M bool := fun st => Ok (recursive st, st).
Definition set_recursive (b : bool) : M unit :=
  fun st => Ok (tt, XState b (calls st)).
Definition log_call (c : call) : M unit :=
  fun st => Ok (tt, XState (recursive st) (calls st ++ [c])).

Notation "'let*' x ':=' m 'in' k" := (bind m (fun x => k))
  (at level 10, x name, m at level 100, k at level 200).
Notation "'let*' ' p ':=' m 'in' k" := (bind m (fun x => match x with p => k end))
  (at level 10, p pattern, m at level 100, k at level 200).

(** [isnamemacro(function)]: [hasattr(function, '_isnamemacro')]. *)
Definition isnamemacro (m : macro) : bool := _isnamemacro m.

(** [Done(body)]: the marker of a subtree that must not be visited again.
    Modelled from the spec: the class lives in the absent [core] module;
    the spec describes it as a wrapper tagging a subtree as already fully
    expanded, which the expander does not revisit. *)
Definition Done (body : ast) : ast := Node "Done" [("body", body)] None None.

Section Methods.

Variable located : string -> bool.

(** [self.bindings]: macro name to macro function. *)
Variable bindings : gmap string macro.

(** [self.visit], for the recursive calls of the methods below. *)
Variable visit : ast -> M ast.

(** [BaseMacroExpander._ismacro] (called [ismacroname] by
    [MacroExpander]): [name in self.bindings]. *)
Definition ismacroname (name : string) : bool :=
  bool_decide (is_Some (bindings !! name)).

(** [isinstance(d, Name) and self.ismacroname(d.id)]: the identifier of a
    bare bound macro name. *)
Definition bound_name (d : ast) : option string :=
  match name_id d with
  | Some id => if ismacroname id then Some id else None
  | None => None
  end.

(** The body of the [if expansion is not None] of
    [BaseMacroExpander._visit_expansion], for one node of the macro's
    output: [copy_location], [fix_missing_locations], then [self.visit]
    when [self.recursive]. *)
Definition visit_expanded_node (target n : ast) : M ast :=
  if is_node n then
    let n' := fix_missing_locations located (copy_location located n target) in
    let* r := get_recursive in
    if r then visit n' else ret n'
  else raise (AttributeError "_attributes").

Fixpoint visit_expanded_nodes (target : ast) (ns : list ast) : M (list ast) :=
  match ns with
  | [] => ret []
  | n :: rest =>
      let* n' := visit_expanded_node target n in
      let* rest' := visit_expanded_nodes target rest in
      ret (n' :: rest')
  end.

(** [BaseMacroExpander._visit_expansion(expansion, target)]. *)
Definition _visit_expansion (expansion target : ast) : M ast :=
  match expansion with
  | PyNone => ret PyNone
  | Node _ _ _ _ => visit_expanded_node target expansion
  | PyList ns => let* ns' := visit_expanded_nodes target ns in ret (PyList ns')
  | _ => raise (TypeError "macro output is neither None, a node nor a list of nodes")
  end.

(** [BaseMacroExpander._expand(syntax, target, macroname, tree)], the
    [expand] that [MacroExpander] calls.  The [fill_root_location]
    argument added by the absent [core] module has no counterpart in
    visitors.py and is not modelled. *)
Definition expand (syn : syntax) (target : ast) (macroname : string) (tree : ast) : M ast :=
  match bindings !! macroname with
  | None => raise (KeyError macroname)
  | Some m =>
      let* _ := log_call (Call macroname syn tree) in
      _visit_expansion (macro_fn m syn tree) target
  end.

(** The list branch of [ast.NodeTransformer.generic_visit]: every node of
    the list is visited; [None] drops it, a list is spliced in, a node
    replaces it; values that are not nodes are kept. *)
Fixpoint visit_items (items : list ast) : M (list ast) :=
  match items with
  | [] => ret []
  | value :: rest =>
      let* new :=
        (if is_node value then
           let* r := visit value in
           match r with
           | PyNone => ret []
           | Node _ _ _ _ => ret [r]
           | PyList vs => ret vs
           | _ => raise (TypeError "visit returned a scalar")
           end
         else ret [value]) in
      let* rest' := visit_items rest in
      ret (new ++ rest')
  end.

(** The loop of [generic_visit] over [iter_fields(node)]: a node-valued
    field is visited and deleted when the result is [None]. *)
Fixpoint visit_fields (fields : list (string * ast)) : M (list (string * ast)) :=
  match fields with
  | [] => ret []
  | (f, old_value) :: rest =>
      let* new :=
        match old_value with
        | PyList items => let* items' := visit_items items in ret [(f, PyList items')]
        | Node _ _ _ _ =>
            let* new_node := visit old_value in
            match new_node with
            | PyNone => ret []
            | _ => ret [(f, new_node)]
            end
        | _ => ret [(f, old_value)]
        end in
      let* rest' := visit_fields rest in
      ret (new ++ rest')
  end.

(** [ast.NodeTransformer.generic_visit(node)]. *)
Definition generic_visit (node : ast) : M ast :=
  match node with
  | Node cls fields l c => let* fields' := visit_fields fields in ret (Node cls fields' l c)
  | _ => raise (AttributeError "_fields")
  end.

(** [hasattr(target, 'lineno')] and [hasattr(target, 'col_offset')]. *)
Definition has_lineno (t : ast) : bool := bool_decide (is_Some (lineno_of t)).
Definition has_col_offset (t : ast) : bool := bool_decide (is_Some (col_offset_of t)).

(** [_add_coverage_dummy_node(tree, target)].  The callers pass what
    [expand] returned, which is [None], a node or a list. *)
Definition _add_coverage_dummy_node (tree target : ast) : ast :=
  if negb (has_lineno target) && negb (has_col_offset target) then tree
  else
    let items := match tree with
                 | PyNone => []
                 | Node _ _ _ _ => [tree]
                 | PyList ns => ns
                 | _ => [tree]
                 end in
    let non := copy_location located (Constant PyNone) target in
    let dummy := copy_location located (Expr non) target in
    PyList (Done dummy :: items).

(** [MacroExpander.visit_Subscript]. *)
Definition visit_Subscript (subscript : ast) : M ast :=
  let* rootdir := lift (getattr subscript "value") in
  match bound_name rootdir with
  | Some macroname =>
      let* slice := lift (getattr subscript "slice") in
      let* tree := lift (getattr slice "value") in
      expand expr subscript macroname tree
  | None => generic_visit subscript
  end.

(** [withstmt.items[0]]. *)
Definition first_item (items : ast) : outcome ast :=
  match items with
  | PyList (i :: _) => Ok i
  | PyList [] => Raise IndexError
  | _ => Raise (TypeError "object is not subscriptable")
  end.

(** [MacroExpander.visit_With]. *)
Definition visit_With (withstmt : ast) : M ast :=
  let* items := lift (getattr withstmt "items") in
  let* with_item := lift (first_item items) in
  let* rootdir := lift (getattr with_item "context_expr") in
  match bound_name rootdir with
  | Some macroname =>
      let* tree := lift (getattr withstmt "body") in
      let* _ := lift (getattr with_item "optional_vars") in
      let* new_tree := expand block withstmt macroname tree in
      ret (_add_coverage_dummy_node new_tree withstmt)
  | None => generic_visit withstmt
  end.

(** [MacroExpander._detect_decorator_macros]. *)
Fixpoint _detect_decorator_macros (decorator_list : list ast) : list ast * list ast :=
  match decorator_list with
  | [] => ([], [])
  | d :: rest =>
      let '(macros, others) := _detect_decorator_macros rest in
      match bound_name d with
      | Some _ => (d :: macros, others)
      | None => (macros, d :: others)
      end
  end.

(** The [for macro in reversed(macros)] loop of [_visit_Decorated], over
    the macros still to run; returns [new_tree] and [macros_executed]. *)
Fixpoint run_decorator_macros (decorated : ast) (todo : list ast) (new_tree : ast)
    (macros_executed : list ast) : M (ast * list ast) :=
  match todo with
  | [] => ret (new_tree, macros_executed)
  | m :: rest =>
      match name_id m with
      | None => raise (AttributeError "id")
      | Some macroname =>
          let* new_tree := expand decorator decorated macroname decorated in
          let macros_executed := macros_executed ++ [m] in
          match new_tree with
          | PyNone => ret (new_tree, macros_executed)
          | _ => run_decorator_macros decorated rest new_tree macros_executed
          end
      end
  end.

(** [MacroExpander._visit_Decorated]. *)
Definition _visit_Decorated (decorated : ast) : M ast :=
  let* decorator_list := lift (getattr decorated "decorator_list") in
  match decorator_list with
  | PyList ds =>
      let '(macros, others) := _detect_decorator_macros ds in
      let decorated := setattr decorated "decorator_list" (PyList others) in
      match macros with
      | [] => generic_visit decorated
      | _ :: _ =>
          let* '(new_tree, macros_executed) :=
            run_decorator_macros decorated (rev macros) PyNone [] in
          ret (fold_left _add_coverage_dummy_node macros_executed new_tree)
      end
  | _ => raise (TypeError "decorator_list is not iterable")
  end.

(** [MacroExpander.visit_Name].  [ismodified] and the
    [with self._recursive_mode(False)] block are written out; the mode is
    restored as [BaseMacroExpander.visit_once] restores it. *)
Definition ismodified (macroname : string) (tree : ast) : bool :=
  negb (bool_decide (name_id tree = Some macroname)).

Definition visit_Name (name_node : ast) : M ast :=
  let* id := lift (getattr name_node "id") in
  match id with
  | PyStr macroname =>
      match bindings !! macroname with
      | Some m =>
          if isnamemacro m then
            let* oldrec := get_recursive in
            let* _ := set_recursive false in
            let* new_tree := expand name name_node macroname name_node in
            let* _ := set_recursive oldrec in
            let* r := get_recursive in
            if r && negb (is_None new_tree) then
              if ismodified macroname new_tree then visit new_tree
              else ret (Done new_tree)
            else ret new_tree
          else generic_visit name_node
      | None => generic_visit name_node
      end
  | _ => generic_visit name_node
  end.

(** [ast.NodeVisitor.visit]: dispatch on the class name to [visit_<cls>],
    falling back on [generic_visit].  A [Done] marker is returned as it
    is (modelled from the spec, see [Done]). *)
Definition dispatch (tree : ast) : M ast :=
  match tree with
  | Node cls _ _ _ =>
      if bool_decide (cls = "Subscript") then visit_Subscript tree
      else if bool_decide (cls = "With") then visit_With tree
      else if bool_decide (cls = "ClassDef") then _visit_Decorated tree
      else if bool_decide (cls = "FunctionDef") then _visit_Decorated tree
      else if bool_decide (cls = "Name") then visit_Name tree
      else if bool_decide (cls = "Done") then ret tree
      else generic_visit tree
  | _ => generic_visit tree
  end.

(** [BaseMacroExpander.visit]:
    [tree if not self.bindings else super().visit(tree)]. *)
Definition visit_body (tree : ast) : M ast :=
  if bool_decide (bindings = ∅) then ret tree else dispatch tree.

End Methods.

(** [visit], with the recursion through [self.visit] bounded by [fuel]. *)
Fixpoint visit (located : string -> bool) (bindings : gmap string macro)
    (fuel : nat) (tree : ast) : M ast :=
  match fuel with
  | O => out_of_fuel
  | S fuel' => visit_body located bindings (visit located bindings fuel') tree
  end.

(** A fresh [MacroExpander(bindings, filename)]. *)
Definition initial : xstate := XState true [].

(** [expand_macros(tree, bindings, filename)].  [global_postprocess]
    belongs to the absent [core] module and is taken as a parameter. *)
Definition expand_macros (located : string -> bool) (global_postprocess : ast -> ast)
    (fuel : nat) (tree : ast) (bindings : gmap string macro) : outcome ast :=
  match visit located bindings fuel tree initial with
  | Ok (expansion, _) => Ok (global_postprocess expansion)
  | Raise e => Raise e
  | OutOfFuel => OutOfFuel
  end.

(** [BaseMacroExpander.visit_once(tree)]: [self.recursive] is switched off
    for the visit and put back afterwards.  (An exception ends the run of
    the expander in this model, so the [finally] shows on the returning
    path only.) *)
Definition visit_once (located : string -> bool) (bindings : gmap string macro)
    (fuel : nat) (tree : ast) : M ast :=
  let* oldrec := get_recursive in
  let* _ := set_recursive false in
  let* r := visit located bindings fuel tree in
  let* _ := set_recursive oldrec in
  ret r.

(** A step of the expander made with [self.recursive] off ends, and
    leaves the flag off. *)
Definition one_layer_safe {A} (m : M A) (st : xstate) : Prop :=
  m st <> OutOfFuel /\ forall a st', m st = Ok (a, st') -> recursive st' = false.

(** The node [_add_coverage_dummy_node] puts in front for [target]:
    [Done(Expr(value=Constant(value=None)))], the [Expr] and the
    [Constant] both at the location of [target]. *)
Definition coverage_dummy (located : string -> bool) (target : ast) : ast :=
  Done (copy_location located (Expr (copy_location located (Constant PyNone) target)) target).

(** The statements a macro output stands for: none for [None], the node
    itself, or the items of the list. *)
Definition statements_of (tree : ast) : list ast :=
  match tree with
  | PyNone => []
  | PyList ns => ns
  | _ => [tree]
  end.

(** The call [_visit_Decorated] makes for the decorator [m] of
    [decorated]. *)
Definition decorator_call (decorated m : ast) : call :=
  Call (default "" (name_id m)) decorator decorated.

(** The once-expanded form of a node of macro output: what
    [_visit_expansion] makes of it before any recursive visit. *)
Definition once_expanded (located : string -> bool) (out target : ast) : ast :=
  fix_missing_locations located (copy_location located out target).

(** *** The four invocation shapes

    What the visit methods test before they call [expand], as predicates
    on a node, for stating what the expander does to a tree. *)
Section Shapes.

Variable bindings : gmap string macro.

Definition is_bound_name (d : ast) : bool :=
  bool_decide (is_Some (bound_name bindings d)).

(** The node is a macro invocation in the sense of [visit_Subscript],
    [visit_With], [_visit_Decorated] or [visit_Name]. *)
Definition is_invocation (n : ast) : bool :=
  match n with
  | Node cls fields _ _ =>
      if bool_decide (cls = "Subscript") then
        match assoc "value" fields with
        | Some rootdir => is_bound_name rootdir
        | None => false
        end
      else if bool_decide (cls = "With") then
        match assoc "items" fields with
        | Some (PyList (Node _ item_fields _ _ :: _)) =>
            match assoc "context_expr" item_fields with
            | Some rootdir => is_bound_name rootdir
            | None => false
            end
        | _ => false
        end
      else if bool_decide (cls = "ClassDef") || bool_decide (cls = "FunctionDef") then
        match assoc "decorator_list" fields with
        | Some (PyList ds) => existsb is_bound_name ds
        | _ => false
        end
      else if bool_decide (cls = "Name") then
        match assoc "id" fields with
        | Some (PyStr id) =>
            match bindings !! id with
            | Some m => isnamemacro m
            | None => false
            end
        | _ => false
        end
      else false
  | _ => false
  end.

End Shapes.

(** The attributes the visit methods read are there, as they are on every
    node the parser builds: [Subscript.value], [With.items[0].context_expr],
    the [decorator_list] of a definition, [Name.id]. *)
Definition wf_node (n : ast) : bool :=
  match n with
  | Node cls fields _ _ =>
      if bool_decide (cls = "Subscript") then
        bool_decide (is_Some (assoc "value" fields))
      else if bool_decide (cls = "With") then
        match assoc "items" fields with
        | Some (PyList (Node _ item_fields _ _ :: _)) =>
            bool_decide (is_Some (assoc "context_expr" item_fields))
        | _ => false
        end
      else if bool_decide (cls = "ClassDef") || bool_decide (cls = "FunctionDef") then
        match assoc "decorator_list" fields with
        | Some (PyList _) => true
        | _ => false
        end
      else if bool_decide (cls = "Name") then
        bool_decide (is_Some (assoc "id" fields))
      else true
  | _ => true
  end.

(** [P] holds of every node of the tree. *)
Fixpoint all_nodes (P : ast -> bool) (t : ast) : bool :=
  match t with
  | Node _ fields _ _ => P t && forallb (fun p => all_nodes P (snd p)) fields
  | PyList items => forallb (all_nodes P) items
  | _ => true
  end.

Definition wellformed (t : ast) : bool := all_nodes wf_node t.

(** The tree holds no invocation, in any of the four shapes, of a macro
    bound in [bindings]. *)
Definition no_invocation (bindings : gmap string macro) (t : ast) : bool :=
  all_nodes (fun n => negb (is_invocation bindings n)) t.

End Expander.

(** ** Macro discovery (mcpy/expander.py) *)
Module Discovery.

(** [ast.alias(name, asname)]. *)
Record alias : Type := Alias {
  name : string;
  asname : option string
}.

(** The statements of a module body, as far as discovery tells them
    apart: [from module import names] (with the number of leading dots as
    [level]), [import names], and anything else.  [lineno] and
    [col_offset] are the location attributes of the statement node. *)
Inductive statement : Type :=
| ImportFrom (module : option string) (names : list alias) (level : option Z)
             (lineno col_offset : option Z)
| Import (names : list alias) (lineno col_offset : option Z)
| Other (node : PyAst.ast).

(** [name.asname or name.name]: the name a macro is bound under. *)
Definition binding_key (a : alias) : string :=
  match asname a with
  | Some s => if bool_decide (s = "") then name a else s
  | None => name a
  end.

(** [_is_macro_import(statement)]. *)
Definition _is_macro_import (s : statement) : outcome bool :=
  match s with
  | ImportFrom _ names _ _ _ =>
      match names with
      | [] => Raise IndexError
      | firstimport :: _ =>
          Ok (bool_decide (name firstimport = "macros")
              && bool_decide (asname firstimport = None))
      end
  | _ => Ok false
  end.

(** ['.' * level]. *)
Definition dots (level : Z) : string :=
  String.concat "" (replicate (Z.to_nat level) ".").

(** [str(lineno)], for the error messages. *)
Definition str_lineno (lineno : option Z) : string :=
  match lineno with
  | Some z => NilZero.string_of_int (Z.to_int z)
  | None => "None"
  end.

(** The names a statement binds macros under: those listed after
    [macros] in a macro-import, none otherwise. *)
Definition listed_keys (s : statement) : list string :=
  match _is_macro_import s, s with
  | Ok true, ImportFrom _ names _ _ _ => map binding_key (tail names)
  | _, _ => []
  end.

Section FindMacros.

(** What a module attribute holds (here: macro functions). *)
Context {V : Type}.

(** The interpreter state discovery consults: [sys.path] with
    [pathlib.Path(p).expanduser().resolve()] and [.parent] as strings,
    [os.path.sep], [importlib.util.resolve_name], and
    [importlib.import_module] / [importlib.reload], which yield the
    module's attributes. *)
Variable sys_path : list string.
Variable resolve : string -> string.
Variable parent : string -> string.
Variable sep : Ascii.ascii.
Variable resolve_name : string -> option string -> outcome string.
Variable import_module : string -> outcome (gmap string V).
Variable reload_module : string -> outcome (gmap string V).

(** [s.replace(os.path.sep, '.')]. *)
Fixpoint replace_sep (s : string) : string :=
  match s with
  | EmptyString => EmptyString
  | String c rest =>
      String (if bool_decide (c = sep) then "."%char else c) (replace_sep rest)
  end.

(** [s[n:]]. *)
Definition drop_prefix (n : nat) (s : string) : string :=
  String.substring n (String.length s - n) s.

(** The [for rootdir in sys.path] loop of [_resolve_package]. *)
Fixpoint _resolve_package_from (filename pyfiledir : string) (roots : list string)
    : outcome string :=
  match roots with
  | [] => Raise (ImportError (filename +:+ " not under any directory in `sys.path`"))
  | rootdir :: rest =>
      let rootdir := resolve rootdir in
      if String.prefix rootdir pyfiledir then
        let package_relative_path := drop_prefix (String.length rootdir) pyfiledir in
        if bool_decide (package_relative_path = "") then
          Raise (ValueError (filename +:+ " not in package, is at root level of " +:+ rootdir))
        else Ok (replace_sep (drop_prefix 1 package_relative_path))
      else _resolve_package_from filename pyfiledir rest
  end.

(** [_resolve_package(filename)]. *)
Definition _resolve_package (filename : string) : outcome string :=
  _resolve_package_from filename (parent (resolve filename)) sys_path.

(** [getattr(module, name)]. *)
Definition module_getattr (module : gmap string V) (attr : string) : outcome V :=
  match module !! attr with
  | Some v => Ok v
  | None => Raise (AttributeError attr)
  end.

(** The dict comprehension of [_get_macros] over [names[1:]]: the keys are
    inserted in order, a repeated key keeps its last value. *)
Fixpoint collect_bindings (module : gmap string V) (names : list alias)
    (acc : gmap string V) : outcome (gmap string V) :=
  match names with
  | [] => Ok acc
  | a :: rest =>
      obind (module_getattr module (name a)) (fun v =>
      collect_bindings module rest (<[binding_key a := v]> acc))
  end.

(** [_get_macros(macroimport, filename, reload)]; defined on [ImportFrom]
    statements. *)
Definition _get_macros (macroimport : statement) (filename : string) (reload : bool)
    : outcome (string * gmap string V) :=
  match macroimport with
  | ImportFrom module names level lineno _ =>
      match module with
      | None =>
          Raise (SyntaxError (filename +:+ ":" +:+ str_lineno lineno
                              +:+ ": missing module name in macro-import"))
      | Some module =>
          obind
            (match level with
             | Some z =>
                 if bool_decide (z = 0%Z) then Ok None
                 else
                   match _resolve_package filename with
                   | Ok package => Ok (Some package)
                   | Raise (ValueError _) =>
                       Raise (SyntaxError (filename +:+ ":" +:+ str_lineno lineno
                                           +:+ ": relative import outside any package"))
                   | Raise (ImportError _) | Raise (ModuleNotFoundError _) =>
                       Raise (ImportError
                                (filename +:+ ":" +:+ str_lineno lineno
                                 +:+ ": could not determine containing package to resolve relative import"))
                   | Raise e => Raise e
                   | OutOfFuel => OutOfFuel
                   end
             | None => Ok None
             end) (fun package =>
          obind
            (match level with
             | Some z => Ok (dots z +:+ module)
             | None => Raise (TypeError "can't multiply sequence by non-int of type 'NoneType'")
             end) (fun name =>
          obind (resolve_name name package) (fun module_fullname =>
          obind (import_module module_fullname) (fun module =>
          obind (if reload then reload_module module_fullname else Ok module) (fun module =>
          obind (collect_bindings module (tail names) ∅) (fun bindings =>
          Ok (module_fullname, bindings)))))))
      end
  | _ => Raise (AttributeError "module")
  end.

(** [copy_location(Import(names=[alias(name=module_fullname, asname=None)]),
    statement)]: the new node takes the location the statement has. *)
Definition absolute_import (module_fullname : string) (s : statement) : statement :=
  match s with
  | ImportFrom _ _ _ l c | Import _ l c => Import [Alias module_fullname None] l c
  | Other n => Import [Alias module_fullname None] (PyAst.lineno_of n) (PyAst.col_offset_of n)
  end.

(** The loop of [find_macros] over [tree.body]: the statements left of
    the cursor are final, [bindings] is the dict so far. *)
Fixpoint find_macros_in (body : list statement) (filename : string) (reload : bool)
    (bindings : gmap string V) : outcome (list statement * gmap string V) :=
  match body with
  | [] => Ok ([], bindings)
  | s :: rest =>
      obind (_is_macro_import s) (fun is_macro_import =>
      if is_macro_import then
        obind (_get_macros s filename reload) (fun '(module_fullname, more_bindings) =>
        (* bindings.update(more_bindings) *)
        obind (find_macros_in rest filename reload (more_bindings ∪ bindings))
              (fun '(rest', bindings') =>
        Ok (absolute_import module_fullname s :: rest', bindings')))
      else
        obind (find_macros_in rest filename reload bindings) (fun '(rest', bindings') =>
        Ok (s :: rest', bindings')))
  end.

(** [find_macros(tree, filename, reload)], on the module body: the body as
    rewritten in place, and the bindings returned. *)
Definition find_macros (body : list statement) (filename : string) (reload : bool)
    : outcome (list statement * gmap string V) :=
  find_macros_in body filename reload ∅.

End FindMacros.

(** The character [c] occurs in [s]. *)
Fixpoint mentions (c : Ascii.ascii) (s : string) : bool :=
  match s with
  | EmptyString => false
  | String c' rest => bool_decide (c' = c) || mentions c rest
  end.

(** [sep.join(components)]. *)
Definition join (sep : string) (components : list string) : string :=
  String.concat sep components.

End Discovery.

(** ** The dialect expander (mcpy/dialects.py) *)
Module Dialects.
Import Discovery.

(** A module tree ([ast.Module]), given by its body. *)
Definition tree : Type := list statement.

(** What [ast.parse] is given: the bytes of a file or a text. *)
Inductive source : Type :=
| Bytes (data : list Byte.byte)
| Text (text : string).

(** What [get_macros] is given: the module [ast.parse(statement)]
    returns, or a statement of a module body. *)
Inductive import_node : Type :=
| ParsedModule (t : tree)
| BodyStatement (s : statement).

(** A dialect instance, by its two transformers. *)
Record dialect : Type := Dialect {
  transform_source_of : string -> outcome string;
  transform_ast_of : tree -> outcome tree
}.

(** An attribute of a dialect-definition module, as the expander uses
    it: [isinstance(cls, Dialect)], the result of calling it ([cls()]),
    and [repr(cls)]. *)
Record pyobject : Type := PyObject {
  isinstance_Dialect : bool;
  call : outcome dialect;
  repr : string
}.

(** A match of the regular expression [_dialectimport]: the matched text
    and its groups. *)
Record re_match : Type := Match {
  group0 : string;
  groups : list string
}.

(** What the expander did, oldest first: a dialect-import statement taken
    up by the source scan, a source transformer applied, an AST
    transformer applied. *)
Inductive event : Type :=
| Found (statement : string)
| SourceTransformed (module_absname dialectname : string)
| AstTransformed (module_absname dialectname : string).

(** A [DialectExpander] instance: [self._seen], and the log of events. *)
Record dstate : Type := DState {
  _seen : gset string;
  log : list event
}.

(** The dialect-import statements the source scan took up, oldest
    first. *)
Fixpoint found_statements (l : list event) : list string :=
  match l with
  | [] => []
  | Found statement :: rest => statement :: found_statements rest
  | _ :: rest => found_statements rest
  end.

(** The statements found are pairwise distinct and all marked as
    seen. *)
Definition seen_invariant (st : dstate) : Prop :=
  NoDup (found_statements (log st)) /\
  forall s, s ∈ found_statements (log st) -> s ∈ _seen st.

(** A fresh [DialectExpander(filename)]. *)
Definition fresh : dstate := DState ∅ [].

(** Methods run in a state-and-exception monad; the state survives an
    exception, so that what had been applied before it stays visible. *)
Definition D (A : Type) : Type := dstate -> outcome A * dstate.

Definition dret {A} (a : A) : D A := fun st => (Ok a, st).
Definition dbind {A B} (m : D A) (k : A -> D B) : D B :=
  fun st => match m st with
            | (Ok a, st') => k a st'
            | (Raise e, st') => (Raise e, st')
            | (OutOfFuel, st') => (OutOfFuel, st')
            end.
Definition draise {A} (e : exn) : D A := fun st => (Raise e, st).
Definition dlift {A} (o : outcome A) : D A := fun st => (o, st).
Definition seen (statement : string) : D bool :=
  fun st => (Ok (bool_decide (statement ∈ _seen st)), st).
Definition add_seen (statement : string) : D unit :=
  fun st => (Ok tt, DState ({[statement]} ∪ _seen st) (log st)).
Definition emit (e : event) : D unit :=
  fun st => (Ok tt, DState (_seen st) (log st ++ [e])).

Notation "'do' x <- m ; k" := (dbind m (fun x => k))
  (at level 10, x name, m at level 100, k at level 200).
Notation "'do' ' p <- m ; k" := (dbind m (fun x => match x with p => k end))
  (at level 10, p pattern, m at level 100, k at level 200).

(** [statement, *groups = list(match)] under CPython: [re.Match] has
    [__getitem__] but neither [__iter__] nor the sequence protocol, so
    [list(match)] raises. *)
Definition cpython_list_match (m : re_match) : outcome (string * list string) :=
  Raise (TypeError "'re.Match' object is not iterable").

(** The unpacking the line reads as: the matched text, then the groups. *)
Definition iterable_list_match (m : re_match) : outcome (string * list string) :=
  Ok (group0 m, groups m).

Section DialectExpander.

(** [self.filename]. *)
Variable filename : string.

(** The collaborators: [_decode_source_content], [ast.parse],
    [_dialectimport.finditer], the unpacking [list(match)], and the two
    helpers of the absent [exutilities] module, [ismacroimport] and
    [get_macros] (the latter returns the absolute module name and the
    bindings in dict order). *)
Variable _decode_source_content : list Byte.byte -> outcome string.
Variable parse : source -> outcome tree.
Variable finditer : string -> list re_match.
Variable list_match : re_match -> outcome (string * list string).
Variable ismacroimport : statement -> string -> bool.
Variable get_macros : import_node -> outcome (string * list (string * pyobject)).

(** The message of the [TypeError] raised for an attribute that is not a
    [Dialect]. *)
Definition not_a_dialect (module_absname dialectname : string) (cls : pyobject) : string :=
  filename +:+ ": " +:+ module_absname +:+ "." +:+ dialectname
    +:+ " is not a `Dialect`, got " +:+ repr cls.

(** The [try: while True: match = next(matches) ...] loop of
    [find_dialectimport_source]: the first match whose text has not been
    seen, which is then marked as seen; [None] on [StopIteration]. *)
Fixpoint next_unseen (matches : list re_match) : D (option string) :=
  match matches with
  | [] => dret None
  | m :: rest =>
      do '(statement, _) <- dlift (list_match m);
      do was_seen <- seen statement;
      if was_seen then next_unseen rest
      else
        do _ <- add_seen statement;
        do _ <- emit (Found statement);
        dret (Some statement)
  end.

(** [DialectExpander.find_dialectimport_source(text)]. *)
Definition find_dialectimport_source (text : string)
    : D (string * list (string * pyobject)) :=
  do found <- next_unseen (finditer text);
  match found with
  | None => dret ("", [])
  | Some statement =>
      do dialectimport <- dlift (parse (Text statement));
      dlift (get_macros (ParsedModule dialectimport))
  end.

(** The [for dialectname, cls in bindings.items()] loop of
    [transform_source]. *)
Fixpoint apply_source_transformers (module_absname : string)
    (bindings : list (string * pyobject)) (text : string) : D string :=
  match bindings with
  | [] => dret text
  | (dialectname, cls) :: rest =>
      if negb (isinstance_Dialect cls) then
        draise (TypeError (not_a_dialect module_absname dialectname cls))
      else
        do dialect <- dlift (call cls);
        do text <- dlift (transform_source_of dialect text);
        do _ <- emit (SourceTransformed module_absname dialectname);
        apply_source_transformers module_absname rest text
  end.

(** [DialectExpander.transform_source(text)]; each round of the
    [while True] loop takes one unit of fuel. *)
Fixpoint transform_source (fuel : nat) (text : string) : D string :=
  match fuel with
  | O => fun st => (OutOfFuel, st)
  | S fuel' =>
      do '(module_absname, bindings) <- find_dialectimport_source text;
      if bool_decide (module_absname = "") then dret text
      else
        match bindings with
        | [] => transform_source fuel' text
        | _ :: _ =>
            do text <- apply_source_transformers module_absname bindings text;
            transform_source fuel' text
        end
  end.

(** The [for index, statement in enumerate(tree.body)] search of
    [find_dialectimport_ast]. *)
Fixpoint first_dialectimport (body : list statement) (index : nat)
    : option (nat * statement) :=
  match body with
  | [] => None
  | s :: rest =>
      if ismacroimport s "dialects" then Some (index, s)
      else first_dialectimport rest (S index)
  end.

(** [DialectExpander.find_dialectimport_ast(tree)]; the tree as rewritten
    in place is returned with the bindings. *)
Definition find_dialectimport_ast (t : tree)
    : D (string * list (string * pyobject) * tree) :=
  match first_dialectimport t 0 with
  | None => dret ("", [], t)
  | Some (index, statement) =>
      do '(module_absname, bindings) <- dlift (get_macros (BodyStatement statement));
      dret (module_absname, bindings,
            <[index := absolute_import module_absname statement]> t)
  end.

(** The [for dialectname, cls in bindings.items()] loop of
    [transform_ast]. *)
Fixpoint apply_ast_transformers (module_absname : string)
    (bindings : list (string * pyobject)) (t : tree) : D tree :=
  match bindings with
  | [] => dret t
  | (dialectname, cls) :: rest =>
      if negb (isinstance_Dialect cls) then
        draise (TypeError (not_a_dialect module_absname dialectname cls))
      else
        do dialect <- dlift (call cls);
        do t <- dlift (transform_ast_of dialect t);
        do _ <- emit (AstTransformed module_absname dialectname);
        apply_ast_transformers module_absname rest t
  end.

(** [DialectExpander.transform_ast(tree)]. *)
Fixpoint transform_ast (fuel : nat) (t : tree) : D tree :=
  match fuel with
  | O => fun st => (OutOfFuel, st)
  | S fuel' =>
      do '(module_absname, bindings, t) <- find_dialectimport_ast t;
      if bool_decide (module_absname = "") then dret t
      else
        match bindings with
        | [] => transform_ast fuel' t
        | _ :: _ =>
            do t <- apply_ast_transformers module_absname bindings t;
            transform_ast fuel' t
        end
  end.

(** [DialectExpander.expand(data)]. *)
Definition expand (fuel : nat) (data : list Byte.byte) : D tree :=
  do text <- dlift (_decode_source_content data);
  do text <- transform_source fuel text;
  do t <- dlift (parse (Bytes data));
  transform_ast fuel t.

End DialectExpander.

(** The dialect-imports of a module body. *)
Definition dialectimports_of (ismacroimport : statement -> string -> bool) (t : tree)
    : list statement :=
  filter (fun s => ismacroimport s "dialects" = true) t.

(** The AST transformers of a list of dialect instances, applied left to
    right, each to the result of the one before. *)
Fixpoint compose_ast_transformers (ds : list dialect) (t : tree) : outcome tree :=
  match ds with
  | [] => Ok t
  | d :: rest => obind (transform_ast_of d t) (compose_ast_transformers rest)
  end.

(** An attribute that, when it can be instantiated, gives a dialect whose
    AST transformer ends and adds no dialect-import to the tree. *)
Definition adds_no_dialectimport (ismacroimport : statement -> string -> bool)
    (cls : pyobject) : Prop :=
  match call cls with
  | OutOfFuel => False
  | Raise _ => True
  | Ok d =>
      forall t,
        match transform_ast_of d t with
        | OutOfFuel => False
        | Raise _ => True
        | Ok t' =>
            length (dialectimports_of ismacroimport t')
            <= length (dialectimports_of ismacroimport t)
        end
  end.

(** [get_macros] ends, and the attributes it yields are of that kind. *)
Definition tame_dialects (ismacroimport : statement -> string -> bool)
    (get_macros : import_node -> outcome (string * list (string * pyobject))) : Prop :=
  forall node,
    match get_macros node with
    | OutOfFuel => False
    | Raise _ => True
    | Ok (_, bindings) =>
        Forall (fun p => adds_no_dialectimport ismacroimport (snd p)) bindings
    end.

End Dialects.

(** ** The importer hooks (mcpyrate/importer.py) *)
Module Importer.
Import Discovery.

(** [s.endswith(suffix)]. *)
Definition endswith (s suffix : string) : bool :=
  bool_decide (String.length suffix <= String.length s)
  && bool_decide (String.substring (String.length s - String.length suffix)
                                   (String.length suffix) s = suffix).

(** The pickled macro-import cache kept beside the [.pyc] of a source
    file. *)
Record cache_data : Type := CacheData {
  st_mtime_ns : Z;
  macroimports : list statement;
  dialectimports : list statement;
  has_relative_macroimports : bool
}.

(** The mutable state the hook works on: the process-wide
    [_xstats_cache] (path to the [mtime] of the cached result) and the
    cache files on disk, by the source path they belong to. *)
Record istate : Type := IState {
  _xstats_cache : gmap string Z;
  importcache : gmap string cache_data
}.

(** [any(macroimport.level for macroimport in imports)]. *)
Definition level_of (s : statement) : option Z :=
  match s with
  | ImportFrom _ _ level _ _ => level
  | _ => None
  end.

Definition is_relative (s : statement) : bool :=
  match level_of s with
  | Some z => negb (bool_decide (z = 0%Z))
  | None => false
  end.

(** [max(mtimes)] of a list that ends with the file's own [mtime]. *)
Definition max_mtime (mtimes : list Z) (own : Z) : Z :=
  fold_right Z.max own mtimes.

Section PathXstats.

(** The file system and interpreter the hook consults.  Modification
    times are kept as the integer [st_mtime_ns]; the hook's scaling to
    seconds is monotone and is left out.  [parse_body] stands for
    [ast.parse(tokenize.open(path).read()).body]; [ismacroimport] and
    [resolve_package] belong to the absent [coreutils] module;
    [find_spec] yields [spec.origin] when there is a spec;
    [cache_writable] tells whether the write of the cache file
    succeeds. *)
Variable _stdlib_sourcefile_paths : gset string.
Variable stat : string -> outcome Z.
Variable parse_body : string -> outcome (list statement).
Variable ismacroimport : statement -> string -> bool.
Variable resolve_package : string -> outcome string.
Variable resolve_name : string -> option string -> outcome string.
Variable find_spec : string -> outcome (option (option string)).
Variable dont_write_bytecode : bool.
Variable cache_writable : string -> bool.

(** [_stdlib_path_stats(self, path)]: the [mtime] of [os.stat(path)]. *)
Definition _stdlib_path_stats (path : string) : outcome Z := stat path.

(** The macro-imports followed by the dialect-imports of a module
    body. *)
Definition macro_and_dialect_imports (body : list statement) : list statement :=
  filter (fun s => ismacroimport s "macros" = true) body
  ++ filter (fun s => ismacroimport s "dialects" = true) body.

(** [package_absname], as the hook determines it. *)
Definition package_absname_of (path : string) (has_relative : bool) : outcome (option string) :=
  if has_relative then
    match resolve_package path with
    | Ok package => Ok (Some package)
    | Raise (ValueError _) | Raise (ImportError _) | Raise (ModuleNotFoundError _) =>
        Raise (ImportError ("while resolving absolute package name of " +:+ path
                            +:+ ", which uses relative macro-imports"))
    | Raise e => Raise e
    | OutOfFuel => OutOfFuel
    end
  else Ok None.

(** The [spec.origin] of the module a macro-import names, when the
    module has a spec. *)
Definition origin_of (path : string) (package_absname : option string)
    (macroimport : statement) : outcome (option (option string)) :=
  match macroimport with
  | ImportFrom None _ _ _ _ =>
      Raise (SyntaxError (path +:+ ": missing module name in macro-import"))
  | ImportFrom (Some module) _ (Some level) _ _ =>
      obind (resolve_name (dots level +:+ module) package_absname) find_spec
  | ImportFrom (Some module) _ None _ _ =>
      Raise (TypeError "can't multiply sequence by non-int of type 'NoneType'")
  | _ => Raise (AttributeError "module")
  end.

(** [path_xstats(self, origin)], for the recursive calls. *)
Variable rec : string -> istate -> outcome (Z * istate).

(** The [for macroimport in macro_and_dialect_imports] loop. *)
Fixpoint collect_mtimes (path : string) (package_absname : option string)
    (imports : list statement) (mtimes : list Z) (st : istate)
    : outcome (list Z * istate) :=
  match imports with
  | [] => Ok (mtimes, st)
  | macroimport :: rest =>
      obind (origin_of path package_absname macroimport) (fun spec =>
      match spec with
      | Some (Some origin) =>
          obind (rec origin st) (fun '(mtime, st') =>
          collect_mtimes path package_absname rest (mtimes ++ [mtime]) st')
      | Some None => Raise (AttributeError "endswith")
      | None => collect_mtimes path package_absname rest mtimes st
      end)
  end.

(** The macro-imports of [path]: from the cache file when its
    [st_mtime_ns] is that of the source, from the parsed source
    otherwise, in which case the cache file is rewritten. *)
Definition load_imports (path : string) (stat_mtime_ns : Z) (st : istate)
    : outcome (list statement * bool * istate) :=
  match importcache st !! path with
  | Some data =>
      if bool_decide (st_mtime_ns data = stat_mtime_ns) then
        Ok (macroimports data ++ dialectimports data, has_relative_macroimports data, st)
      else
        obind (parse_body path) (fun body =>
        let mi := filter (fun s => ismacroimport s "macros" = true) body in
        let di := filter (fun s => ismacroimport s "dialects" = true) body in
        let rel := existsb is_relative (mi ++ di) in
        Ok (mi ++ di, rel,
            if negb dont_write_bytecode && cache_writable path
            then IState (_xstats_cache st)
                        (<[path := CacheData stat_mtime_ns mi di rel]> (importcache st))
            else st))
  | None =>
      obind (parse_body path) (fun body =>
      let mi := filter (fun s => ismacroimport s "macros" = true) body in
      let di := filter (fun s => ismacroimport s "dialects" = true) body in
      let rel := existsb is_relative (mi ++ di) in
      Ok (mi ++ di, rel,
          if negb dont_write_bytecode && cache_writable path
          then IState (_xstats_cache st)
                      (<[path := CacheData stat_mtime_ns mi di rel]> (importcache st))
          else st))
  end.

(** The body of [path_xstats(self, path)]. *)
Definition path_xstats_body (path : string) (st : istate) : outcome (Z * istate) :=
  if bool_decide (path ∈ _stdlib_sourcefile_paths) || negb (endswith path ".py") then
    obind (_stdlib_path_stats path) (fun mtime => Ok (mtime, st))
  else
    match _xstats_cache st !! path with
    | Some result => Ok (result, st)
    | None =>
        obind (stat path) (fun stat_mtime_ns =>
        obind (load_imports path stat_mtime_ns st) (fun '(imports, has_relative, st) =>
        obind (package_absname_of path has_relative) (fun package_absname =>
        obind (collect_mtimes path package_absname imports [] st) (fun '(mtimes, st) =>
        let result := max_mtime mtimes stat_mtime_ns in
        Ok (result, IState (<[path := result]> (_xstats_cache st)) (importcache st))))))
    end.

End PathXstats.

(** [path_xstats], the recursion through the macro-dependencies bounded
    by [fuel]. *)
Fixpoint path_xstats (_stdlib_sourcefile_paths : gset string) (stat : string -> outcome Z)
    (parse_body : string -> outcome (list statement))
    (ismacroimport : statement -> string -> bool)
    (resolve_package : string -> outcome string)
    (resolve_name : string -> option string -> outcome string)
    (find_spec : string -> outcome (option (option string)))
    (dont_write_bytecode : bool) (cache_writable : string -> bool)
    (fuel : nat) (path : string) (st : istate) : outcome (Z * istate) :=
  match fuel with
  | O => OutOfFuel
  | S fuel' =>
      path_xstats_body _stdlib_sourcefile_paths stat parse_body ismacroimport
        resolve_package resolve_name find_spec dont_write_bytecode cache_writable
        (path_xstats _stdlib_sourcefile_paths stat parse_body ismacroimport
           resolve_package resolve_name find_spec dont_write_bytecode cache_writable fuel')
        path st
  end.

(** [invalidate_xcaches]: [_xstats_cache.clear()]. *)
Definition invalidate_xcaches (st : istate) : istate :=
  IState ∅ (importcache st).

(** *** The macro-dependency closure

    What the hook is meant to compute, stated on the file system alone. *)
Section Closure.

Variable _stdlib_sourcefile_paths : gset string.
Variable stat : string -> outcome Z.
Variable parse_body : string -> outcome (list statement).
Variable ismacroimport : statement -> string -> bool.
Variable resolve_package : string -> outcome string.
Variable resolve_name : string -> option string -> outcome string.
Variable find_spec : string -> outcome (option (option string)).

(** A [.py] file outside the standard library. *)
Definition is_source (path : string) : bool :=
  negb (bool_decide (path ∈ _stdlib_sourcefile_paths) || negb (endswith path ".py")).

(** [origin] is the file of a resolvable module named in a macro-import
    or dialect-import of the source file [path]. *)
Definition depends (path origin : string) : Prop :=
  is_source path = true /\
  exists body package_absname macroimport,
    parse_body path = Ok body /\
    package_absname_of resolve_package path
      (existsb is_relative (macro_and_dialect_imports ismacroimport body))
      = Ok package_absname /\
    macroimport ∈ macro_and_dialect_imports ismacroimport body /\
    origin_of resolve_name find_spec path package_absname macroimport
      = Ok (Some (Some origin)).

(** [m] is the latest modification time among [path] and the files
    reachable from it through macro-dependencies. *)
Definition is_closure_max (path : string) (m : Z) : Prop :=
  (exists q, rtc depends path q /\ stat q = Ok m) /\
  (forall q, rtc depends path q -> exists z, stat q = Ok z /\ (z <= m)%Z).

(** The hook can process [q]: the file can be stat'ed and, when it is a
    source file, parsed; its package can be determined when it uses
    relative macro-imports; each of its macro-imports names a module and
    resolves, to a spec with an origin or to no spec. *)
Definition healthy (q : string) : Prop :=
  (exists z, stat q = Ok z) /\
  (is_source q = true ->
   exists body package_absname,
     parse_body q = Ok body /\
     package_absname_of resolve_package q
       (existsb is_relative (macro_and_dialect_imports ismacroimport body))
       = Ok package_absname /\
     forall macroimport,
       macroimport ∈ macro_and_dialect_imports ismacroimport body ->
       exists spec,
         origin_of resolve_name find_spec q package_absname macroimport = Ok spec /\
         spec <> Some None).

(** Every entry of [_xstats_cache] is the closure maximum of its path. *)
Definition xcache_sound (st : istate) : Prop :=
  forall p m, _xstats_cache st !! p = Some m -> is_closure_max p m.

(** A cache file whose [st_mtime_ns] is that of its source holds the
    macro-imports of that source. *)
Definition importcache_consistent (st : istate) : Prop :=
  forall p d,
    importcache st !! p = Some d -> stat p = Ok (st_mtime_ns d) ->
    exists body,
      parse_body p = Ok body /\
      macroimports d = filter (fun s => ismacroimport s "macros" = true) body /\
      dialectimports d = filter (fun s => ismacroimport s "dialects" = true) body /\
      has_relative_macroimports d
        = existsb is_relative (macro_and_dialect_imports ismacroimport body).

End Closure.

End Importer.

(** ** Statement splicing (mcpy/splicing.py) *)
Module Splicing.

(** Trees with object identity: every node carries the identity of the
    Python object it stands for, so that the same node occurring twice in
    a tree is one shared object, through which an edit shows at both
    places.  A splice argument is a node, a list, or [None]. *)
Inductive obj : Type :=
| ONode (oid : nat) (cls : string) (fields : list (string * obj))
| OList (items : list obj)
| OStr (s : string)
| OInt (z : Z)
| ONone.

Definition is_node (t : obj) : bool :=
  match t with ONode _ _ _ => true | _ => false end.

(** [not t], for the values a splice argument can take. *)
Definition falsy (t : obj) : bool :=
  match t with
  | OList [] | ONone => true
  | OStr s => bool_decide (s = "")
  | OInt z => bool_decide (z = 0%Z)
  | _ => false
  end.

Fixpoint oassoc (f : string) (fields : list (string * obj)) : option obj :=
  match fields with
  | [] => None
  | (g, v) :: rest => if bool_decide (g = f) then Some v else oassoc f rest
  end.

(** The identities of the nodes of a tree, in scan order. *)
Fixpoint oids (t : obj) : list nat :=
  match t with
  | ONode oid _ fields => oid :: flat_map (fun p => oids (snd p)) fields
  | OList items => flat_map oids items
  | _ => []
  end.

(** [copy.deepcopy(t)], the copies taking the identities from [base] on:
    a node of identity [i] is copied to identity [base + i], so that a
    node shared inside [t] stays shared inside the copy. *)
Fixpoint deepcopy (base : nat) (t : obj) : obj :=
  match t with
  | ONode oid cls fields =>
      ONode (base + oid) cls (map (fun p => (fst p, deepcopy base (snd p))) fields)
  | OList items => OList (map (deepcopy base) items)
  | _ => t
  end.

(** The state of a [StatementSplicer]: [self.first], and the first
    identity the allocator has not handed out yet. *)
Record sstate : Type := SState {
  first : bool;
  next : nat
}.

Section StatementSplicer.

(** The [body] and [tag] the class closes over. *)
Variable body : obj.
Variable tag : string.

(** [ispastehere(tree)]. *)
Definition ispastehere (tree : obj) : bool :=
  match tree with
  | ONode _ cls fields =>
      bool_decide (cls = "Expr")
      && match oassoc "value" fields with
         | Some (ONode _ vcls vfields) =>
             bool_decide (vcls = "Name")
             && match oassoc "id" vfields with
                | Some (OStr id) => bool_decide (id = tag)
                | _ => false
                end
         | _ => false
         end
  | _ => false
  end.

(** [self.visit], for the recursive calls of [generic_visit]. *)
Variable visit : obj -> sstate -> outcome (obj * sstate).

(** The list branch of [ast.NodeTransformer.generic_visit]. *)
Fixpoint visit_items (items : list obj) (st : sstate) : outcome (list obj * sstate) :=
  match items with
  | [] => Ok ([], st)
  | value :: rest =>
      obind (if is_node value then
               obind (visit value st) (fun '(r, st') =>
               match r with
               | ONone => Ok ([], st')
               | ONode _ _ _ => Ok ([r], st')
               | OList vs => Ok (vs, st')
               | _ => Raise (TypeError "visit returned a scalar")
               end)
             else Ok ([value], st)) (fun '(new, st') =>
      obind (visit_items rest st') (fun '(rest', st'') =>
      Ok (new ++ rest', st'')))
  end.

(** The loop of [generic_visit] over the fields of a node. *)
Fixpoint visit_fields (fields : list (string * obj)) (st : sstate)
    : outcome (list (string * obj) * sstate) :=
  match fields with
  | [] => Ok ([], st)
  | (f, old_value) :: rest =>
      obind (match old_value with
             | OList items =>
                 obind (visit_items items st) (fun '(items', st') =>
                 Ok ([(f, OList items')], st'))
             | ONode _ _ _ =>
                 obind (visit old_value st) (fun '(new_node, st') =>
                 match new_node with
                 | ONone => Ok ([], st')
                 | _ => Ok ([(f, new_node)], st')
                 end)
             | _ => Ok ([(f, old_value)], st)
             end) (fun '(new, st') =>
      obind (visit_fields rest st') (fun '(rest', st'') =>
      Ok (new ++ rest', st'')))
  end.

(** [ast.NodeTransformer.generic_visit(node)]: the node is edited in
    place and keeps its identity. *)
Definition generic_visit (node : obj) (st : sstate) : outcome (obj * sstate) :=
  match node with
  | ONode oid cls fields =>
      obind (visit_fields fields st) (fun '(fields', st') =>
      Ok (ONode oid cls fields', st'))
  | _ => Raise (AttributeError "_fields")
  end.

(** [StatementSplicer.transform(tree)]. *)
Definition transform (tree : obj) (st : sstate) : outcome (obj * sstate) :=
  if ispastehere tree then
    if negb (first st) then
      Ok (deepcopy (next st) body,
          SState (first st) (next st + S (list_max (oids body))))
    else Ok (body, SState false (next st))
  else generic_visit tree st.

(** [Walker.visit(tree)].  Modelled from the spec: the [walker] module is
    absent; the spec has it as the generic recursive tree rewrite helper,
    so a list is rewritten element by element with the results spliced
    together, and a node goes to [transform]. *)
Definition visit_body (tree : obj) (st : sstate) : outcome (obj * sstate) :=
  match tree with
  | OList items =>
      obind (visit_items items st) (fun '(items', st') => Ok (OList items', st'))
  | _ => transform tree st
  end.

End StatementSplicer.

(** [StatementSplicer().visit], the recursion bounded by [fuel]. *)
Fixpoint visit (body : obj) (tag : string) (fuel : nat) (tree : obj) (st : sstate)
    : outcome (obj * sstate) :=
  match fuel with
  | O => OutOfFuel
  | S fuel' => visit_body body tag (visit body tag fuel') tree st
  end.

(** [splice_statements(body, template, tag)]; [next_oid] is the first
    identity not in use when the call is made. *)
Definition splice_statements (next_oid fuel : nat) (body template : obj) (tag : string)
    : outcome obj :=
  let body := if is_node body then OList [body] else body in
  let body := if is_node template then OList [template] else body in
  if falsy body then Raise (ValueError "expected at least one statement in `body`")
  else if falsy template then Ok body
  else
    match visit body tag fuel template (SState true next_oid) with
    | Ok (result, _) => Ok result
    | Raise e => Raise e
    | OutOfFuel => OutOfFuel
    end.

(** Height of a tree; bounds the recursion depth of the splicer. *)
Fixpoint height (t : obj) : nat :=
  match t with
  | ONode _ _ fields => S (list_max (map (fun p => height (snd p)) fields))
  | OList items => S (list_max (map height items))
  | _ => 0
  end.

(** No node of the tree is a paste-here indicator for [tag]. *)
Fixpoint no_indicator (tag : string) (t : obj) : bool :=
  match t with
  | ONode _ _ fields =>
      negb (ispastehere tag t) && forallb (fun p => no_indicator tag (snd p)) fields
  | OList items => forallb (no_indicator tag) items
  | _ => true
  end.

(** A node or a list, the two forms a splice argument is meant to
    have. *)
Definition is_tree (t : obj) : bool :=
  match t with ONode _ _ _ | OList _ => true | _ => false end.

(** *** Where the nodes of a result come from *)

(** The splicer only moves forward: identities are handed out upwards,
    and [first] never becomes true again. *)
Definition advances (st st' : sstate) : Prop :=
  next st <= next st' /\ (first st = false -> first st' = false).

(** Where a node of the output comes from: the tree that was walked, the
    body (spliced in as it is, which uses up [first]), or a deep copy
    made during the walk. *)
Definition provenance (body : obj) (src : list nat) (st st' : sstate) (i : nat) : Prop :=
  i ∈ src \/
  (i ∈ oids body /\ first st = true /\ first st' = false) \/
  (next st <= i /\ i < next st').

(** The walked tree shares no object with the body, holds no object
    twice, and all identities in play have been handed out. *)
Definition separate (body : obj) (src : list nat) (st : sstate) : Prop :=
  NoDup src /\
  (forall i, i ∈ src -> (i ∉ oids body) /\ i < next st) /\
  (forall i, i ∈ oids body -> i < next st).

(** A walk [f] from trees (whose identities [src] lists) to results
    (whose identities [out] lists) that only moves forward, accounts for
    every node it returns, and returns no object twice when it started
    from separate trees. *)
Definition sound_walk {A R : Type} (body : obj) (src : A -> list nat) (out : R -> list nat)
    (f : A -> sstate -> outcome (R * sstate)) : Prop :=
  forall a st r st',
    f a st = Ok (r, st') ->
    advances st st' /\
    (forall i, i ∈ out r -> provenance body (src a) st st' i) /\
    (separate body (src a) st -> NoDup (out r)).

End Splicing.

(** ** Sample trees and macros

    Concrete inputs for the examples of Part II. *)

(** A bare identifier as the parser builds it: [Name(id, ctx)] with an
    expression context [Load], [Store] or [Del]. *)
Definition identifier (id ctx : string) (l c : option Z) : PyAst.ast :=
  PyAst.Node "Name" [("id", PyAst.PyStr id); ("ctx", PyAst.Node ctx [] None None)] l c.

(** [xs[0]], as Python 3.8 parses it at line [l], column [c]. *)
Definition sample_subscript (base : string) (l c : Z) : PyAst.ast :=
  PyAst.Node "Subscript"
    [("value", PyAst.Node "Name" [("id", PyAst.PyStr base); ("ctx", PyAst.Load)] (Some l) (Some c));
     ("slice", PyAst.Node "Index"
                 [("value", PyAst.Node "Constant" [("value", PyAst.PyInt 21)] (Some l) (Some (c + 7)%Z))]
                 None None);
     ("ctx", PyAst.Load)]
    (Some l) (Some c).

(** A module whose body is one expression statement. *)
Definition sample_module (e : PyAst.ast) : PyAst.ast :=
  PyAst.Node "Module"
    [("body", PyAst.PyList [PyAst.Node "Expr" [("value", e)] (Some 1%Z) (Some 0%Z)])]
    None None.

(** The macro of the spec's bracket scenario: it returns the literal 42. *)
Definition double_macro : Expander.macro :=
  Expander.Macro (fun _ _ => PyAst.Constant (PyAst.PyInt 42)) false.

(** An identifier macro that hands its node back. *)
Definition it_macro : Expander.macro := Expander.Macro (fun _ tree => tree) true.


(** A macro whose output already carries a location of its own:
    the literal 42, placed at line 7, column 3. *)
Definition located_constant : PyAst.ast :=
  PyAst.Node "Constant" [("value", PyAst.PyInt 42)] (Some 7%Z) (Some 3%Z).

Definition relocating_macro : Expander.macro :=
  Expander.Macro (fun _ _ => located_constant) false.

(** [@A @B def f(): pass], as parsed: [A] on line 1, [B] on line 2, the
    definition on line 3. *)
Definition stacked_definition : PyAst.ast :=
  PyAst.Node "FunctionDef"
    [("name", PyAst.PyStr "f");
     ("args", PyAst.Node "arguments" [] None None);
     ("body", PyAst.PyList [PyAst.Node "Pass" [] (Some 4%Z) (Some 4%Z)]);
     ("decorator_list",
      PyAst.PyList [PyAst.Node "Name" [("id", PyAst.PyStr "A"); ("ctx", PyAst.Load)]
                      (Some 1%Z) (Some 1%Z);
                    PyAst.Node "Name" [("id", PyAst.PyStr "B"); ("ctx", PyAst.Load)]
                      (Some 2%Z) (Some 1%Z)]);
     ("returns", PyAst.PyNone)]
    (Some 3%Z) (Some 0%Z).

(** The definition once [_visit_Decorated] has taken the macro decorators
    off its [decorator_list]. *)
Definition stripped_definition : PyAst.ast :=
  PyAst.setattr stacked_definition "decorator_list" (PyAst.PyList []).

(** The inner macro [B] replaces the definition by a new statement,
    [result = None]; the outer macro [A] hands back what it is given. *)
Definition replacement_statement : PyAst.ast :=
  PyAst.Node "Assign"
    [("targets", PyAst.PyList [PyAst.Node "Name" [("id", PyAst.PyStr "result");
                                                  ("ctx", PyAst.Node "Store" [] None None)]
                                 None None]);
     ("value", PyAst.Constant PyAst.PyNone)]
    None None.

Definition macro_B : Expander.macro := Expander.Macro (fun _ _ => replacement_statement) false.
Definition macro_A : Expander.macro := Expander.Macro (fun _ tree => tree) false.

(** The inner macro that asks for no replacement. *)
Definition macro_B_none : Expander.macro := Expander.Macro (fun _ _ => PyAst.PyNone) false.

(** An interpreter with two macro modules, [a] and [b], each defining
    [foo] (the attribute values are numbered to tell them apart), in which
    every module name is absolute. *)
Definition sample_import_module (fullname : string) : outcome (gmap string nat) :=
  if bool_decide (fullname = "a") then Ok {["foo" := 1; "bar" := 3]}
  else if bool_decide (fullname = "b") then Ok {["foo" := 2]}
  else Raise (ModuleNotFoundError fullname).

Definition sample_resolve_name (name : string) (package : option string) : outcome string :=
  Ok name.

Definition sample_find_macros (body : list Discovery.statement)
    : outcome (list Discovery.statement * gmap string nat) :=
  Discovery.find_macros [] id id "/"%char sample_resolve_name
    sample_import_module sample_import_module body "main.py" false.

(** [from a import macros, foo, bar as baz] on line 1 and
    [from b import macros, foo] on line 2. *)
Definition import_from_a : Discovery.statement :=
  Discovery.ImportFrom (Some "a")
    [Discovery.Alias "macros" None; Discovery.Alias "foo" None;
     Discovery.Alias "bar" (Some "baz")]
    (Some 0%Z) (Some 1%Z) (Some 0%Z).

Definition import_from_b : Discovery.statement :=
  Discovery.ImportFrom (Some "b")
    [Discovery.Alias "macros" None; Discovery.Alias "foo" None]
    (Some 0%Z) (Some 2%Z) (Some 0%Z).

(** A dialect-definition module [mydialects] with a dialect [Upper],
    whose source transformer appends a comment line, and an attribute
    [helper] that is no dialect. *)
Definition upper_dialect : Dialects.pyobject :=
  Dialects.PyObject true
    (Ok (Dialects.Dialect (fun text => Ok (text +:+ "# Upper was here"))
                          (fun t => Ok t)))
    "<Upper>".

Definition helper_object : Dialects.pyobject :=
  Dialects.PyObject false (Raise (TypeError "'int' object is not callable")) "42".

Definition sample_ismacroimport (s : Discovery.statement) (magicname : string) : bool :=
  match s with
  | Discovery.ImportFrom _ (first :: _) _ _ _ =>
      bool_decide (Discovery.name first = magicname)
      && bool_decide (Discovery.asname first = None)
  | _ => false
  end.

Definition sample_attribute (a : Discovery.alias) : string * Dialects.pyobject :=
  (Discovery.name a,
   if bool_decide (Discovery.name a = "Upper") then upper_dialect else helper_object).

Definition sample_get_macros (n : Dialects.import_node)
    : outcome (string * list (string * Dialects.pyobject)) :=
  match n with
  | Dialects.BodyStatement (Discovery.ImportFrom (Some module) names _ _ _)
  | Dialects.ParsedModule [Discovery.ImportFrom (Some module) names _ _ _] =>
      Ok (module, map sample_attribute (tail names))
  | _ => Raise (AttributeError "module")
  end.

(** [from mydialects import (dialects, Upper, helper)] followed by one
    more statement: a dialect-import the textual scan does not match. *)
Definition dialect_import_tree : Dialects.tree :=
  [Discovery.ImportFrom (Some "mydialects")
     [Discovery.Alias "dialects" None; Discovery.Alias "Upper" None;
      Discovery.Alias "helper" None]
     (Some 0%Z) (Some 1%Z) (Some 0%Z);
   Discovery.Other (PyAst.Node "Pass" [] (Some 2%Z) (Some 0%Z))].

(** A source text with one dialect-import line, and the scan that finds
    it. *)
Definition dialect_import_line : string := "from mydialects import dialects, Upper".

Definition sample_finditer (text : string) : list Dialects.re_match :=
  if String.prefix dialect_import_line text
  then [Dialects.Match dialect_import_line ["mydialects"; "Upper"]]
  else [].

(** A file system with three source files: [app.py] imports macros from
    [macros_a], [macros_a.py] imports macros from [macros_b]; the newest
    file is [macros_a.py]. *)
Definition sample_stat (path : string) : outcome Z :=
  if bool_decide (path = "app.py") then Ok 100%Z
  else if bool_decide (path = "macros_a.py") then Ok 300%Z
  else if bool_decide (path = "macros_b.py") then Ok 200%Z
  else Raise (OSError path).

Definition macro_import_of (module : string) : Discovery.statement :=
  Discovery.ImportFrom (Some module)
    [Discovery.Alias "macros" None; Discovery.Alias "foo" None]
    (Some 0%Z) (Some 1%Z) (Some 0%Z).

Definition sample_parse_body (path : string) : outcome (list Discovery.statement) :=
  if bool_decide (path = "app.py") then Ok [macro_import_of "macros_a"]
  else if bool_decide (path = "macros_a.py") then Ok [macro_import_of "macros_b"]
  else if bool_decide (path = "macros_b.py") then Ok []
  else Raise (OSError path).

Definition sample_find_spec (module_absname : string) : outcome (option (option string)) :=
  Ok (Some (Some (module_absname +:+ ".py"))).

Definition sample_path_xstats (fuel : nat) (path : string) (st : Importer.istate)
    : outcome (Z * Importer.istate) :=
  Importer.path_xstats ∅ sample_stat sample_parse_body sample_ismacroimport
    (fun path => Raise (ImportError path)) sample_resolve_name sample_find_spec
    false (fun _ => true) fuel path st.

(** The paste-here indicator [Expr(value=Name(id="__paste_here__"))], as
    two objects of identities [oid] and [oid + 1]. *)
Definition paste_here (oid : nat) : Splicing.obj :=
  Splicing.ONode oid "Expr"
    [("value", Splicing.ONode (S oid) "Name" [("id", Splicing.OStr "__paste_here__")])].

(** The statement to splice in: [pass], object 50. *)
Definition pass_statement : Splicing.obj := Splicing.ONode 50 "Pass" [].

(** A template given as a single statement, [if c: <paste> <paste>]. *)
Definition if_template : Splicing.obj :=
  Splicing.ONode 1 "If"
    [("test", Splicing.ONode 2 "Name" [("id", Splicing.OStr "c")]);
     ("body", Splicing.OList [paste_here 3; paste_here 5]);
     ("orelse", Splicing.OList [])].

(** The same template given as a list of statements. *)
Definition list_template : Splicing.obj := Splicing.OList [if_template].

(** The dialect-import statement [dialect_import_line] parses to, and a
    parser for the two sources the dialect examples use: the line itself
    and the bytes of a file that holds it. *)
Definition upper_import_tree : Dialects.tree :=
  [Discovery.ImportFrom (Some "mydialects")
     [Discovery.Alias "dialects" None; Discovery.Alias "Upper" None]
     (Some 0%Z) (Some 1%Z) (Some 0%Z)].

Definition sample_parse (s : Dialects.source) : outcome Dialects.tree :=
  match s with
  | Dialects.Text text =>
      if bool_decide (text = dialect_import_line) then Ok upper_import_tree
      else Raise (SyntaxError "invalid syntax")
  | Dialects.Bytes _ => Ok upper_import_tree
  end.

(** ** The macro collector (mcpy/expander.py, [MacroCollector]) *)
Module Collector.
Import PyAst.

(** [self.collected]: a set of pairs [(macroname, syntax)], the syntax
    given by its name (['expr'], ['block'], ['decorator'], ['name']). *)
Definition collected : Type := gset (string * string).

Section Methods.

(** [self.expander.bindings]. *)
Variable bindings : gmap string Expander.macro.

(** [self.visit], for the recursive calls of the methods below. *)
Variable visit : ast -> collected -> outcome collected.

(** [for node in value: self.visit(node)]. *)
Fixpoint visit_each (nodes : list ast) (c : collected) : outcome collected :=
  match nodes with
  | [] => Ok c
  | node :: rest => obind (visit node c) (visit_each rest)
  end.

(** The list branch of [ast.NodeVisitor.generic_visit]: only the items
    that are nodes are visited. *)
Fixpoint visit_items (items : list ast) (c : collected) : outcome collected :=
  match items with
  | [] => Ok c
  | item :: rest =>
      obind (if is_node item then visit item c else Ok c) (visit_items rest)
  end.

(** The loop of [generic_visit] over [iter_fields(node)]. *)
Fixpoint visit_fields (fields : list (string * ast)) (c : collected) : outcome collected :=
  match fields with
  | [] => Ok c
  | (_, value) :: rest =>
      obind (match value with
             | PyList items => visit_items items c
             | Node _ _ _ _ => visit value c
             | _ => Ok c
             end) (visit_fields rest)
  end.

(** [ast.NodeVisitor.generic_visit(node)]; [iter_fields] reads
    [node._fields], which only a node has. *)
Definition generic_visit (node : ast) (c : collected) : outcome collected :=
  match node with
  | Node _ fields _ _ => visit_fields fields c
  | _ => Raise (AttributeError "_fields")
  end.

(** [if isinstance(rootdir, Name) and self.ismacroname(rootdir.id):
    self.collected.add((rootdir.id, syntax))]. *)
Definition collect_bound (rootdir : ast) (syntax : string) (c : collected) : collected :=
  match Expander.bound_name bindings rootdir with
  | Some id => {[ (id, syntax) ]} ∪ c
  | None => c
  end.

(** [MacroCollector.visit_Subscript]. *)
Definition visit_Subscript (subscript : ast) (c : collected) : outcome collected :=
  obind (getattr subscript "value") (fun rootdir =>
  let c := collect_bound rootdir "expr" c in
  obind (getattr subscript "slice") (fun slice =>
  obind (getattr slice "value") (fun tree =>
  visit tree c))).

(** [MacroCollector.visit_With]. *)
Definition visit_With (withstmt : ast) (c : collected) : outcome collected :=
  obind (getattr withstmt "items") (fun items =>
  obind (Expander.first_item items) (fun with_item =>
  obind (getattr with_item "context_expr") (fun rootdir =>
  let c := collect_bound rootdir "block" c in
  obind (getattr withstmt "body") (fun body =>
  visit body c)))).

(** [for macro in macros: self.collected.add((macro.id, 'decorator'))]. *)
Fixpoint collect_decorators (macros : list ast) (c : collected) : outcome collected :=
  match macros with
  | [] => Ok c
  | m :: rest =>
      match name_id m with
      | Some id => collect_decorators rest ({[ (id, "decorator") ]} ∪ c)
      | None => Raise (AttributeError "id")
      end
  end.

(** The loop of [_visit_Decorated] over [iter_fields(decorated)]: the
    [decorator_list] is skipped, every item of a list is visited. *)
Fixpoint visit_decorated_fields (fields : list (string * ast)) (c : collected)
    : outcome collected :=
  match fields with
  | [] => Ok c
  | (field, value) :: rest =>
      obind (if bool_decide (field = "decorator_list") then Ok c
             else match value with
                  | PyList nodes => visit_each nodes c
                  | Node _ _ _ _ => visit value c
                  | _ => Ok c
                  end) (visit_decorated_fields rest)
  end.

(** [MacroCollector._visit_Decorated]. *)
Definition _visit_Decorated (decorated : ast) (c : collected) : outcome collected :=
  obind (getattr decorated "decorator_list") (fun decorator_list =>
  match decorator_list with
  | PyList ds =>
      let '(macros, decorators) := Expander._detect_decorator_macros bindings ds in
      obind (collect_decorators macros c) (fun c =>
      obind (visit_each decorators c) (fun c =>
      match decorated with
      | Node _ fields _ _ => visit_decorated_fields fields c
      | _ => Raise (AttributeError "_fields")
      end))
  | _ => Raise (TypeError "decorator_list is not iterable")
  end).

(** [MacroCollector.visit_Name]. *)
Definition visit_Name (name_node : ast) (c : collected) : outcome collected :=
  obind (getattr name_node "id") (fun id =>
  let c := match id with
           | PyStr macroname =>
               match bindings !! macroname with
               | Some m =>
                   if Expander.isnamemacro m then {[ (macroname, "name") ]} ∪ c else c
               | None => c
               end
           | _ => c
           end in
  generic_visit name_node c).

(** [ast.NodeVisitor.visit]: dispatch on the class name to [visit_<cls>],
    falling back on [generic_visit]. *)
Definition visit_body (tree : ast) (c : collected) : outcome collected :=
  match tree with
  | Node cls _ _ _ =>
      if bool_decide (cls = "Subscript") then visit_Subscript tree c
      else if bool_decide (cls = "With") then visit_With tree c
      else if bool_decide (cls = "ClassDef") then _visit_Decorated tree c
      else if bool_decide (cls = "FunctionDef") then _visit_Decorated tree c
      else if bool_decide (cls = "Name") then visit_Name tree c
      else generic_visit tree c
  | _ => generic_visit tree c
  end.

End Methods.

(** [MacroCollector.visit], with the recursion bounded by [fuel]. *)
Fixpoint visit (bindings : gmap string Expander.macro) (fuel : nat)
    (tree : ast) (c : collected) : outcome collected :=
  match fuel with
  | O => OutOfFuel
  | S fuel' => visit_body bindings (visit bindings fuel') tree c
  end.

(** [mc = MacroCollector(expander); mc.visit(tree); mc.collected]. *)
Definition collect (bindings : gmap string Expander.macro) (fuel : nat) (tree : ast)
    : outcome collected :=
  visit bindings fuel tree ∅.

(** Every pair collected names a bound macro and one of the four
    syntaxes, ['name'] only for a macro declared with [namemacro]. *)
Definition reports_bound (bindings : gmap string Expander.macro) (c : collected) : Prop :=
  forall macroname syntax,
    (macroname, syntax) ∈ c ->
    exists m,
      bindings !! macroname = Some m /\
      syntax ∈ ["expr"; "block"; "decorator"; "name"] /\
      (syntax = "name" -> Expander.isnamemacro m = true).

End Collector.

(** ** Run-time modules (mcpyrate/compiler.py, [create_module] and [run]) *)
Module Compiler.

(** An argument as the caller passes it: [None], a string, or an object
    of another type, of which the code uses the truth value, [type(x)]
    and [repr(x)]. *)
Inductive pyarg : Type :=
| PNone
| PStr (s : string)
| PObj (truth : bool) (type_repr value_repr : string).

(** [bool(x)]. *)
Definition truthy (a : pyarg) : bool :=
  match a with
  | PNone => false
  | PStr s => negb (bool_decide (s = ""))
  | PObj truth _ _ => truth
  end.

(** What a module attribute holds: [None], a string, a module (by the
    identity of the module object), or some other object. *)
Inductive value : Type :=
| VNone
| VStr (s : string)
| VModule (m : nat)
| VObject (z : Z).

(** [module.__dict__]. *)
Definition namespace : Type := gmap string value.

(** The interpreter state the two functions work on: the module objects
    by identity, [sys.modules], and the identity the next new object
    gets. *)
Record pystate : Type := PyState {
  heap : gmap nat namespace;
  sys_modules : gmap string nat;
  next_id : nat
}.

(** [getattr(module, attr)] on the module object [m]. *)
Definition module_attr (st : pystate) (m : nat) (attr : string) : option value :=
  match heap st !! m with
  | Some ns => ns !! attr
  | None => None
  end.

(** [s.rsplit('.', maxsplit=1)] for a string that holds a dot: the text
    before the last dot and the text after it; [None] when [s] holds no
    dot ([s.find('.') == -1]). *)
Fixpoint rsplit_dot (s : string) : option (string * string) :=
  match s with
  | EmptyString => None
  | String c rest =>
      match rsplit_dot rest with
      | Some (packagename, finalcomponent) => Some (String c packagename, finalcomponent)
      | None => if bool_decide (c = "."%char) then Some (EmptyString, rest) else None
      end
  end.

(** [s.split('.')]. *)
Fixpoint split_dots (s : string) : list string :=
  match s with
  | EmptyString => [EmptyString]
  | String c rest =>
      if bool_decide (c = "."%char) then EmptyString :: split_dots rest
      else match split_dots rest with
           | component :: components => String c component :: components
           | [] => [String c EmptyString]
           end
  end.

(** [types.ModuleType(name)], with [__name__] and [__file__] set: the
    namespace of the new module. *)
Definition new_module (dotted_name filename : string) : namespace :=
  <["__file__" := VStr filename]>
    (<["__name__" := VStr dotted_name]>
       {["__doc__" := VNone; "__package__" := VNone;
         "__loader__" := VNone; "__spec__" := VNone]}).

Section CreateModule.

(** [str.isidentifier], and [repr] of a string. *)
Variable isidentifier : string -> bool.
Variable repr_str : string -> string.

(** The checks [create_module] makes on its arguments. *)
Definition check_dotted_name (dotted_name : pyarg) : outcome unit :=
  if truthy dotted_name then
    match dotted_name with
    | PStr s =>
        if forallb isidentifier (split_dots s) then Ok tt
        else Raise (TypeError ("each component of `dotted_name` must be a valid identifier`, got "
                               +:+ repr_str s))
    | PObj _ type_repr value_repr =>
        Raise (TypeError ("`dotted_name` must be an `str`, got " +:+ type_repr
                          +:+ " with value " +:+ value_repr))
    | PNone => Ok tt
    end
  else Ok tt.

Definition check_filename (filename : pyarg) : outcome unit :=
  match filename with
  | PObj true type_repr value_repr =>
      Raise (TypeError ("`filename` must be an `str`, got " +:+ type_repr
                        +:+ " with value " +:+ value_repr))
  | _ => Ok tt
  end.

(** The [__name__] and the [__file__] of the new module; [uuid] is what
    [gensym("")] returns in this call. *)
Definition module_name (dotted_name : pyarg) (uuid : string) : string :=
  match dotted_name with
  | PStr s => if bool_decide (s = "") then "dynamically_created_module_" +:+ uuid else s
  | _ => "dynamically_created_module_" +:+ uuid
  end.

Definition module_filename (dotted_name filename : pyarg) (uuid : string) : string :=
  let generated :=
    match dotted_name with
    | PStr s =>
        if bool_decide (s = "") then "<dynamically created module " +:+ uuid +:+ ">"
        else "<dynamically created module '" +:+ s +:+ "'>"
    | _ => "<dynamically created module " +:+ uuid +:+ ">"
    end in
  match filename with
  | PStr f => if bool_decide (f = "") then generated else f
  | _ => generated
  end.

(** The rest of [create_module], from [module = ModuleType(dotted_name)]
    on.  The new module object gets the identity [next_id]; it is stored
    when it becomes reachable. *)
Definition register (dotted_name filename : string) (st : pystate)
    : outcome nat * pystate :=
  let module := next_id st in
  match rsplit_dot dotted_name with
  | Some (packagename, finalcomponent) =>
      match sys_modules st !! packagename with
      | None =>
          (Raise (ModuleNotFoundError
                    ("while dynamically creating module '" +:+ dotted_name
                     +:+ "': its parent package '" +:+ packagename
                     +:+ "' not found in `sys.modules`")), st)
      | Some package =>
          let ns := <["__package__" := VStr packagename]> (new_module dotted_name filename) in
          (Ok module,
           PyState (<[module := ns]>
                      (alter (fun p => <[finalcomponent := VModule module]> p)
                             package (heap st)))
                   (<[dotted_name := module]> (sys_modules st))
                   (S (next_id st)))
      end
  | None =>
      (Ok module,
       PyState (<[module := new_module dotted_name filename]> (heap st))
               (<[dotted_name := module]> (sys_modules st))
               (S (next_id st)))
  end.

(** [create_module(dotted_name, filename)]. *)
Definition create_module (dotted_name filename : pyarg) (uuid : string) (st : pystate)
    : outcome nat * pystate :=
  match check_dotted_name dotted_name with
  | Ok _ =>
      match check_filename filename with
      | Ok _ =>
          register (module_name dotted_name uuid)
                   (module_filename dotted_name filename uuid) st
      | Raise e => (Raise e, st)
      | OutOfFuel => (OutOfFuel, st)
      end
  | Raise e => (Raise e, st)
  | OutOfFuel => (OutOfFuel, st)
  end.

(** What [run] is given as [source]: a code object (already compiled),
    or something for [_compile] (source text, bytes, a tree, a list). *)
Context {code src : Type}.

(** [_compile(source, filename, optimize, self_module)], the pipeline
    whose stages live in modules that are absent here, given what
    [module.__file__] and [module.__name__] hold: the code object and
    the docstring.  Macros run in it, so it works on the interpreter
    state. *)
Variable _compile : src -> value -> value -> pystate -> outcome (code * value) * pystate.

(** [exec(code, module.__dict__)] for the module object [m]: the code
    runs with the namespace of [m] as its globals, and may change
    whatever it reaches. *)
Variable exec : code -> nat -> pystate -> outcome unit * pystate.

Inductive source : Type :=
| Compiled (c : code)
| ToCompile (s : src).

(** What [run] is given as [module]. *)
Inductive module_arg : Type :=
| NoModule
| ByName (dotted_name : string)
| ByObject (m : nat)
| NotAModule (type_repr value_repr : string).

(** [module.__file__] and [module.__name__]. *)
Definition getattr (st : pystate) (m : nat) (attr : string) : outcome value :=
  match module_attr st m attr with
  | Some v => Ok v
  | None => Raise (AttributeError attr)
  end.

(** [module.__doc__ = docstring]. *)
Definition set_doc (m : nat) (docstring : value) (st : pystate) : pystate :=
  PyState (alter (fun ns => <["__doc__" := docstring]> ns) m (heap st))
          (sys_modules st) (next_id st).

(** [exec(code, module.__dict__)] followed by [return module]. *)
Definition exec_in (c : code) (m : nat) (st : pystate) : outcome nat * pystate :=
  match exec c m st with
  | (Ok _, st) => (Ok m, st)
  | (Raise e, st) => (Raise e, st)
  | (OutOfFuel, st) => (OutOfFuel, st)
  end.

(** [run(source, module, optimize)]; [uuid] as in [create_module].  The
    state is kept when an exception is raised. *)
Definition run (source : source) (module : module_arg) (uuid : string) (st : pystate)
    : outcome nat * pystate :=
  let resolved :=
    match module with
    | NotAModule type_repr value_repr =>
        (Raise (TypeError ("`module` must be a `types.ModuleType`, a dotted name as `str`, or `None`; got "
                           +:+ type_repr +:+ " with value " +:+ value_repr)), st)
    | NoModule => create_module PNone PNone uuid st
    | ByName dotted_name =>
        match sys_modules st !! dotted_name with
        | Some m => (Ok m, st)
        | None => (Raise (ModuleNotFoundError ("Module '" +:+ dotted_name
                                               +:+ "' not found in `sys.modules`")), st)
        end
    | ByObject m => (Ok m, st)
    end in
  match resolved with
  | (Ok m, st) =>
      match getattr st m "__file__" with
      | Ok filename =>
          match getattr st m "__name__" with
          | Ok self_module =>
              match source with
              | Compiled c => exec_in c m (set_doc m VNone st)
              | ToCompile s =>
                  match _compile s filename self_module st with
                  | (Ok (c, docstring), st) => exec_in c m (set_doc m docstring st)
                  | (Raise e, st) => (Raise e, st)
                  | (OutOfFuel, st) => (OutOfFuel, st)
                  end
              end
          | Raise e => (Raise e, st)
          | OutOfFuel => (OutOfFuel, st)
          end
      | Raise e => (Raise e, st)
      | OutOfFuel => (OutOfFuel, st)
      end
  | (Raise e, st) => (Raise e, st)
  | (OutOfFuel, st) => (OutOfFuel, st)
  end.

End CreateModule.

(** A step of the interpreter that removes no entry of [sys.modules]. *)
Definition keeps_modules (st st' : pystate) : Prop :=
  forall name m, sys_modules st !! name = Some m -> sys_modules st' !! name = Some m.

(** Every module in [sys.modules] is a live object, and [next_id] is
    above every identity in use. *)
Definition wellformed (st : pystate) : Prop :=
  (forall name m, sys_modules st !! name = Some m -> is_Some (heap st !! m)) /\
  (forall m ns, heap st !! m = Some ns -> m < next_id st).

End Compiler.

(** ** More sample trees and macros *)

(** An expression macro whose output invokes it again:
    [again[tree]] expands to [again[tree]]. *)
Definition again_output (tree : PyAst.ast) : PyAst.ast :=
  PyAst.Node "Subscript"
    [("value", PyAst.Name "again");
     ("slice", PyAst.Node "Index" [("value", tree)] None None);
     ("ctx", PyAst.Load)]
    None None.

Definition again_macro : Expander.macro := Expander.Macro (fun _ tree => again_output tree) false.

(** The tree is an invocation [again[...]]. *)
Definition invokes_again (t : PyAst.ast) : bool :=
  match t with
  | PyAst.Node cls fields _ _ =>
      bool_decide (cls = "Subscript")
      && match PyAst.assoc "value" fields with
         | Some rootdir => bool_decide (PyAst.name_id rootdir = Some "again")
         | None => false
         end
      && match PyAst.assoc "slice" fields with
         | Some (PyAst.Node _ slice_fields _ _) =>
             bool_decide (is_Some (PyAst.assoc "value" slice_fields))
         | _ => false
         end
  | _ => false
  end.

(** [with open(f): pass], as parsed at line 1. *)
Definition sample_with : PyAst.ast :=
  PyAst.Node "With"
    [("items",
      PyAst.PyList
        [PyAst.Node "withitem"
           [("context_expr",
             PyAst.Node "Call"
               [("func", identifier "open" "Load" (Some 1%Z) (Some 5%Z));
                ("args", PyAst.PyList [identifier "f" "Load" (Some 1%Z) (Some 10%Z)]);
                ("keywords", PyAst.PyList [])]
               (Some 1%Z) (Some 5%Z));
            ("optional_vars", PyAst.PyNone)]
           None None]);
     ("body", PyAst.PyList [PyAst.Node "Pass" [] (Some 2%Z) (Some 4%Z)])]
    (Some 1%Z) (Some 0%Z).

(** [xs[1:2]], as Python 3.8 parses it: the slice is a [Slice] node,
    which has no [value]. *)
Definition sample_slicing : PyAst.ast :=
  PyAst.Node "Subscript"
    [("value", identifier "xs" "Load" (Some 1%Z) (Some 0%Z));
     ("slice", PyAst.Node "Slice"
                 [("lower", PyAst.Node "Constant" [("value", PyAst.PyInt 1)] (Some 1%Z) (Some 3%Z));
                  ("upper", PyAst.Node "Constant" [("value", PyAst.PyInt 2)] (Some 1%Z) (Some 5%Z))]
                 None None);
     ("ctx", PyAst.Load)]
    (Some 1%Z) (Some 0%Z).

(** [double[21][0]]: the invocation [double[21]] is the [value] of an
    outer subscript. *)
Definition nested_subscript : PyAst.ast :=
  PyAst.Node "Subscript"
    [("value", sample_subscript "double" 1 0);
     ("slice", PyAst.Node "Index"
                 [("value", PyAst.Node "Constant" [("value", PyAst.PyInt 0)] (Some 1%Z) (Some 11%Z))]
                 None None);
     ("ctx", PyAst.Load)]
    (Some 1%Z) (Some 0%Z).

(** A file system in which two macro modules import macros from each
    other: [ping.py] from [pong], [pong.py] from [ping]. *)
Definition cyclic_stat (path : string) : outcome Z :=
  if bool_decide (path = "ping.py") then Ok 100%Z
  else if bool_decide (path = "pong.py") then Ok 200%Z
  else Raise (OSError path).

Definition cyclic_parse_body (path : string) : outcome (list Discovery.statement) :=
  if bool_decide (path = "ping.py") then Ok [macro_import_of "pong"]
  else if bool_decide (path = "pong.py") then Ok [macro_import_of "ping"]
  else Raise (OSError path).

(** [get_macros] as the interpreter behaves for an empty module name:
    [importlib.import_module] refuses it. *)
Definition strict_get_macros (n : Dialects.import_node)
    : outcome (string * list (string * Dialects.pyobject)) :=
  match sample_get_macros n with
  | Ok (module_absname, bindings) =>
      if bool_decide (module_absname = "") then Raise (ValueError "Empty module name")
      else Ok (module_absname, bindings)
  | Raise e => Raise e
  | OutOfFuel => OutOfFuel
  end.

(** A second dialect, whose AST transformer appends a [pass] statement. *)
Definition passing_dialect : Dialects.pyobject :=
  Dialects.PyObject true
    (Ok (Dialects.Dialect (fun text => Ok text)
           (fun t => Ok (t ++ [Discovery.Other (PyAst.Node "Pass" [] None None)]))))
    "<Passing>".

(** [pathlib.Path(f).parent] on the paths of the package examples. *)
Definition sample_parent (f : string) : string :=
  if bool_decide (f = "/home/me/src/mypkg/sub/mod.py") then "/home/me/src/mypkg/sub"
  else if bool_decide (f = "/home/me/src/main.py") then "/home/me/src"
  else if bool_decide (f = "/srv/app2/m.py") then "/srv/app2"
  else f.

(** An interpreter with no module loaded, and a stand-in for
    [str.isidentifier] that accepts the non-empty names without blanks. *)
Definition no_modules : Compiler.pystate := Compiler.PyState ∅ ∅ 0.

Definition sample_isidentifier (s : string) : bool :=
  negb (bool_decide (s = "")) && negb (Discovery.mentions " "%char s).

Definition sample_repr (s : string) : string := "'" +:+ s +:+ "'".

Definition sample_create_module (dotted_name : string) (st : Compiler.pystate)
    : outcome nat * Compiler.pystate :=
  Compiler.create_module sample_isidentifier sample_repr (Compiler.PStr dotted_name)
    Compiler.PNone "0a1b" st.

(** A compiler that rejects every source, and code that binds [x] in
    its module. *)
Definition failing_compile (s : string) (filename self_module : Compiler.value)
    (st : Compiler.pystate) : outcome (nat * Compiler.value) * Compiler.pystate :=
  (Raise (SyntaxError "invalid syntax"), st).

Definition sample_exec (c : nat) (m : nat) (st : Compiler.pystate)
    : outcome unit * Compiler.pystate :=
  (Ok tt,
   Compiler.PyState
     (alter (fun ns => <["x" := Compiler.VObject (Z.of_nat c)]> ns) m (Compiler.heap st))
     (Compiler.sys_modules st) (Compiler.next_id st)).

(* ===================================================================== *)
(** * Part II: theorems *)
(* ===================================================================== *)

(** ** Outcomes *)

(** A sequence of two steps returns only if both do. *)
Lemma obind_Ok {A B} (m : outcome A) (k : A -> outcome B) b :
  obind m k = Ok b -> exists a, m = Ok a /\ k a = Ok b.
Proof. destruct m; simpl; try discriminate. eauto. Qed.

(** ** Trees and their location attributes *)
Section PyAstFacts.
Import PyAst.

Lemma depth_field f v cls fields l c :
  (f, v) ∈ fields -> depth v < depth (Node cls fields l c).
Proof.
  intros Hin. simpl. apply Nat.lt_succ_r.
  induction fields as [|[g w] rest IH]; [by apply elem_of_nil in Hin|].
  apply elem_of_cons in Hin as [Heq|Hin]; simpl.
  - inversion Heq; subst. lia.
  - specialize (IH Hin). lia.
Qed.

Lemma depth_item i items :
  i ∈ items -> depth i < depth (PyList items).
Proof.
  intros Hin. simpl. apply Nat.lt_succ_r.
  induction items as [|w rest IH]; [by apply elem_of_nil in Hin|].
  apply elem_of_cons in Hin as [Heq|Hin]; simpl.
  - subst. lia.
  - specialize (IH Hin). lia.
Qed.


Lemma assoc_elem f x fields :
  assoc f fields = Some x -> (f, x) ∈ fields.
Proof.
  induction fields as [|[g w] rest IH]; simpl; [discriminate|].
  destruct (bool_decide (g = f)) eqn:E.
  - apply bool_decide_eq_true in E as ->. intros [= ->]. by left.
  - intros H. right. by apply IH.
Qed.

(** Induction on the height of a tree. *)
Lemma ast_depth_ind (P : ast -> Prop) :
  (forall t, (forall t', depth t' < depth t -> P t') -> P t) -> forall t, P t.
Proof.
  intros step t. remember (depth t) as n eqn:Hn.
  revert t Hn. induction n as [n IH] using lt_wf_ind.
  intros t ->. apply step. intros t' Hlt. by apply (IH (depth t')).
Qed.

Lemma keeps_attr_refl o : keeps_attr o o = true.
Proof. destruct o; simpl; [by apply bool_decide_eq_true_2|reflexivity]. Qed.

Lemma all2_map_l {A} (f : A -> A -> bool) (g : A -> A) xs :
  (forall x, x ∈ xs -> f x (g x) = true) -> all2 f xs (map g xs) = true.
Proof.
  induction xs as [|x xs IH]; intros H; [reflexivity|].
  simpl. rewrite H by (by left). rewrite IH; [reflexivity|].
  intros y Hy. apply H. by right.
Qed.

Lemma keeps_refl t : keeps t t = true.
Proof.
  induction t as [t IH] using ast_depth_ind.
  destruct t as [cls fields l c|items|s|z|]; simpl.
  - rewrite bool_decide_eq_true_2 by reflexivity. rewrite !keeps_attr_refl. simpl.
    rewrite <- (map_id fields) at 2. apply all2_map_l.
    intros [f x] Hin. simpl. rewrite bool_decide_eq_true_2 by reflexivity.
    apply IH. by eapply depth_field.
  - rewrite <- (map_id items) at 2. apply all2_map_l.
    intros x Hin. apply IH. by apply depth_item.
  - by apply bool_decide_eq_true_2.
  - by apply bool_decide_eq_true_2.
  - reflexivity.
Qed.

Variable located : string -> bool.

Lemma keeps_attr_fill ln o : keeps_attr o (Some (default ln o)) = true.
Proof. destruct o; simpl; [by apply bool_decide_eq_true_2|reflexivity]. Qed.

(** [_fix] never changes an attribute that is set. *)
Lemma keeps_fix t : forall ln co, keeps t (_fix located t ln co) = true.
Proof.
  induction t as [t IH] using ast_depth_ind. intros ln co.
  destruct t as [cls fields l c|items|s|z|]; simpl.
  - rewrite bool_decide_eq_true_2 by reflexivity.
    destruct (located cls); rewrite ?keeps_attr_fill, ?keeps_attr_refl; simpl.
    all: apply all2_map_l; intros [f x] Hin; simpl;
      rewrite bool_decide_eq_true_2 by reflexivity; simpl;
      pose proof (depth_field _ _ cls _ l c Hin) as Hd;
      destruct x; try apply keeps_refl; by apply IH.
  - apply all2_map_l. intros x Hin. pose proof (depth_item _ _ Hin) as Hd.
    destruct x; try apply keeps_refl. by apply IH.
  - by apply bool_decide_eq_true_2.
  - by apply bool_decide_eq_true_2.
  - reflexivity.
Qed.

Lemma complete_guard t :
  complete located t = true ->
  match t with
  | Node _ _ _ _ | PyList _ => complete located t
  | _ => true
  end = true.
Proof. by destruct t. Qed.

Lemma complete_item_guard t :
  complete located t = true ->
  match t with
  | Node _ _ _ _ => complete located t
  | _ => true
  end = true.
Proof. by destruct t. Qed.

(** After [_fix], every located node has both attributes. *)
Lemma complete_fix t : forall ln co, complete located (_fix located t ln co) = true.
Proof.
  induction t as [t IH] using ast_depth_ind. intros ln co.
  destruct t as [cls fields l c|items|s|z|]; simpl; try reflexivity.
  - apply andb_true_intro. split.
    + destruct (located cls); [|reflexivity].
      apply andb_true_intro. split; apply bool_decide_eq_true_2; by eexists.
    + apply forallb_forall. intros [f x] Hin.
      apply in_map_iff in Hin as [[g y] [Heq Hin]]. simpl in Heq.
      apply list_elem_of_In in Hin.
      pose proof (depth_field _ _ cls _ l c Hin) as Hd.
      injection Heq as _ <-. cbn [snd].
      destruct y; try reflexivity; apply complete_guard; by apply IH.
  - apply forallb_forall. intros x Hin.
    apply in_map_iff in Hin as [y [<- Hin]]. apply list_elem_of_In in Hin.
    pose proof (depth_item _ _ Hin) as Hd.
    destruct y; try reflexivity. apply complete_item_guard. by apply IH.
Qed.

End PyAstFacts.

(** ** The macro expander *)
Section ExpanderFacts.
Import PyAst Expander.

Lemma assoc_set_assoc_id f v fields :
  assoc f fields = Some v -> set_assoc f v fields = fields.
Proof.
  induction fields as [|[g w] rest IH]; simpl; [discriminate|].
  case_bool_decide; intros Hs.
  - congruence.
  - by rewrite IH.
Qed.

Lemma all_nodes_field P cls fields l c f v :
  all_nodes P (Node cls fields l c) = true -> (f, v) ∈ fields -> all_nodes P v = true.
Proof.
  simpl. intros [_ Hall]%andb_prop Hin.
  rewrite forallb_forall in Hall.
  apply (Hall (f, v)). by apply list_elem_of_In.
Qed.

Lemma all_nodes_item P items i :
  all_nodes P (PyList items) = true -> i ∈ items -> all_nodes P i = true.
Proof.
  simpl. intros Hall Hin. rewrite forallb_forall in Hall.
  apply Hall. by apply list_elem_of_In.
Qed.

Lemma all_nodes_here P cls fields l c :
  all_nodes P (Node cls fields l c) = true -> P (Node cls fields l c) = true.
Proof. simpl. by intros [H _]%andb_prop. Qed.

Variable located : string -> bool.
Variable bindings : gmap string macro.

(** [v] returns, without touching the expander state, every well-formed
    invocation-free node of depth below [d]. *)
Definition id_below (v : ast -> M ast) (d : nat) : Prop :=
  forall t st,
    is_node t = true -> depth t < d ->
    wellformed t = true -> no_invocation bindings t = true ->
    v t st = Ok (t, st).

Lemma visit_items_plain v d items st :
  id_below v d ->
  (forall i, i ∈ items -> depth i < d) ->
  (forall i, i ∈ items -> wellformed i = true) ->
  (forall i, i ∈ items -> no_invocation bindings i = true) ->
  visit_items v items st = Ok (items, st).
Proof.
  intros Hv. induction items as [|i rest IH]; intros Hd Hw Hn; [reflexivity|].
  simpl. unfold bind at 1.
  assert (Hi : i ∈ i :: rest) by left.
  destruct (is_node i) eqn:Hnode.
  - unfold bind at 1. rewrite (Hv i st Hnode (Hd _ Hi) (Hw _ Hi) (Hn _ Hi)).
    destruct i; try discriminate. unfold ret at 1. unfold bind.
    rewrite IH; [reflexivity| |  |]; intros j Hj; [apply Hd|apply Hw|apply Hn];
      by right.
  - unfold ret at 1. unfold bind.
    rewrite IH; [reflexivity| |  |]; intros j Hj; [apply Hd|apply Hw|apply Hn];
      by right.
Qed.

Lemma visit_fields_plain v d fields st :
  id_below v d ->
  (forall f x, (f, x) ∈ fields -> depth x < d) ->
  (forall f x, (f, x) ∈ fields -> wellformed x = true) ->
  (forall f x, (f, x) ∈ fields -> no_invocation bindings x = true) ->
  visit_fields v fields st = Ok (fields, st).
Proof.
  intros Hv. induction fields as [|[f x] rest IH]; intros Hd Hw Hn; [reflexivity|].
  assert (Hi : (f, x) ∈ (f, x) :: rest) by left.
  assert (Hrest : visit_fields v rest st = Ok (rest, st)).
  { apply IH; intros g y Hg; [eapply Hd|eapply Hw|eapply Hn];
      by right. }
  simpl. destruct x as [cls fs l c|items|s|z|].
  - unfold bind at 1. unfold bind at 1.
    rewrite (Hv (Node cls fs l c) st eq_refl); cycle 1.
    + by eapply Hd.
    + by eapply Hw.
    + by eapply Hn.
    + unfold ret at 1. unfold bind. by rewrite Hrest.
  - unfold bind at 1. unfold bind at 1.
    rewrite (visit_items_plain v d items st Hv).
    + unfold ret at 1. unfold bind. by rewrite Hrest.
    + intros i Hin. specialize (Hd _ _ Hi). pose proof (depth_item _ _ Hin). lia.
    + intros i Hin. eapply all_nodes_item; [|exact Hin]. by apply (Hw _ _ Hi).
    + intros i Hin. eapply all_nodes_item; [|exact Hin]. by apply (Hn _ _ Hi).
  - unfold bind at 1. unfold ret at 1. unfold bind. by rewrite Hrest.
  - unfold bind at 1. unfold ret at 1. unfold bind. by rewrite Hrest.
  - unfold bind at 1. unfold ret at 1. unfold bind. by rewrite Hrest.
Qed.


Lemma generic_visit_plain v d cls fields l c st :
  id_below v d ->
  depth (Node cls fields l c) < S d ->
  wellformed (Node cls fields l c) = true ->
  no_invocation bindings (Node cls fields l c) = true ->
  generic_visit v (Node cls fields l c) st = Ok (Node cls fields l c, st).
Proof.
  intros Hv Hd Hw Hn. unfold generic_visit, bind.
  rewrite (visit_fields_plain v d fields st Hv); [reflexivity| | |].
  - intros f x Hin. pose proof (depth_field _ _ cls _ l c Hin). lia.
  - intros f x Hin. by eapply all_nodes_field.
  - intros f x Hin. by eapply all_nodes_field.
Qed.

Lemma detect_no_macros ds :
  existsb (is_bound_name bindings) ds = false ->
  _detect_decorator_macros bindings ds = ([], ds).
Proof.
  induction ds as [|d rest IH]; simpl; [reflexivity|].
  intros [Hd Hrest]%orb_false_elim. rewrite (IH Hrest).
  unfold is_bound_name in Hd. apply bool_decide_eq_false in Hd.
  destruct (bound_name bindings d); [|reflexivity].
  exfalso. apply Hd. by eexists.
Qed.

Lemma not_bound_name d :
  is_bound_name bindings d = false -> bound_name bindings d = None.
Proof.
  unfold is_bound_name. intros Hd%bool_decide_eq_false.
  destruct (bound_name bindings d); [|reflexivity].
  exfalso. apply Hd. by eexists.
Qed.

Lemma dispatch_plain v d t st :
  id_below v d ->
  is_node t = true -> depth t < S d ->
  wellformed t = true -> no_invocation bindings t = true ->
  dispatch located bindings v t st = Ok (t, st).
Proof.
  intros Hv Hnode Hd Hw Hn. destruct t as [cls fields l c| | | |]; try discriminate.
  pose proof (generic_visit_plain v d cls fields l c st Hv Hd Hw Hn) as Hg.
  pose proof (all_nodes_here _ _ _ _ _ Hw) as Hwf.
  pose proof (all_nodes_here _ _ _ _ _ Hn) as Hni.
  apply negb_true_iff in Hni.
  unfold dispatch. simpl in Hwf, Hni.
  repeat case_bool_decide; subst; simpl in Hwf, Hni; try done.
  - (* Subscript *)
    unfold visit_Subscript, bind, lift, getattr.
    destruct (assoc "value" fields) as [rootdir|]; [|done].
    by rewrite (not_bound_name _ Hni).
  - (* With *)
    unfold visit_With, bind, lift, getattr.
    destruct (assoc "items" fields) as [[| [|[icls ifs il ic| | | |] items] | | |]|]; try done.
    simpl. destruct (assoc "context_expr" ifs) as [rootdir|]; [|done].
    by rewrite (not_bound_name _ Hni).
  - (* ClassDef *)
    unfold _visit_Decorated, bind, lift, getattr.
    destruct (assoc "decorator_list" fields) as [[|ds| | |]|] eqn:Hdl; try done.
    rewrite (detect_no_macros _ Hni). simpl.
    by rewrite (assoc_set_assoc_id _ _ _ Hdl).
  - (* FunctionDef *)
    unfold _visit_Decorated, bind, lift, getattr.
    destruct (assoc "decorator_list" fields) as [[|ds| | |]|] eqn:Hdl; try done.
    rewrite (detect_no_macros _ Hni). simpl.
    by rewrite (assoc_set_assoc_id _ _ _ Hdl).
  - (* Name *)
    unfold visit_Name, bind, lift, getattr.
    destruct (assoc "id" fields) as [[| |id| |]|]; try done.
    destruct (bindings !! id) as [m|]; [|done].
    by rewrite Hni.
Qed.

Lemma visit_plain fuel :
  id_below (visit located bindings fuel) fuel.
Proof.
  induction fuel as [|fuel IH]; intros t st Hnode Hd Hw Hn; [lia|].
  simpl. unfold visit_body. case_bool_decide; [reflexivity|].
  by apply (dispatch_plain _ fuel).
Qed.

End ExpanderFacts.

(** C7: a well-formed tree that holds no invocation, in any of the four
    shapes, of a macro bound in the binding table comes back from
    [MacroExpander.visit] unchanged, no macro having been called, so that
    [expand_macros] returns what [global_postprocess] makes of the
    untouched tree: the tree itself whenever the postprocessing has
    nothing to remove from it.  With an empty binding table [visit]
    returns its argument as it is, whatever the argument. *)
Theorem expand_macros_without_invocation
    (located : string -> bool) (global_postprocess : PyAst.ast -> PyAst.ast)
    (bindings : gmap string Expander.macro) :
  (forall tree fuel st,
      Expander.visit located ∅ (S fuel) tree st = Ok (tree, st)) /\
  (forall tree fuel,
      PyAst.is_node tree = true ->
      Expander.wellformed tree = true ->
      Expander.no_invocation bindings tree = true ->
      PyAst.depth tree < fuel ->
      Expander.visit located bindings fuel tree Expander.initial
        = Ok (tree, Expander.initial) /\
      Expander.expand_macros located global_postprocess fuel tree bindings
        = Ok (global_postprocess tree) /\
      (global_postprocess tree = tree ->
       Expander.expand_macros located global_postprocess fuel tree bindings = Ok tree)).
Proof.
  split.
  - intros tree fuel st. simpl. unfold Expander.visit_body.
    by rewrite bool_decide_eq_true_2.
  - intros tree fuel Hnode Hwf Hni Hd.
    pose proof (visit_plain located bindings fuel tree Expander.initial Hnode Hd Hwf Hni) as Hv.
    split; [exact Hv|].
    unfold Expander.expand_macros. rewrite Hv.
    split; [reflexivity|]. by intros ->.
Qed.

(** A run of C7: the macro [double] is bound, the tree indexes [xs]. *)
Lemma expand_macros_without_invocation_witness :
  Expander.expand_macros PyAst.py38_located id 7
    (sample_module (sample_subscript "xs" 1 0)) {["double" := double_macro]}
  = Ok (sample_module (sample_subscript "xs" 1 0)).
Proof.
  apply (proj2 (expand_macros_without_invocation PyAst.py38_located id
                  {["double" := double_macro]})).
  - reflexivity.
  - reflexivity.
  - vm_compute. reflexivity.
  - vm_compute. lia.
  - reflexivity.
Defined.

(** *** Identifier macros *)

Lemma name_id_once_expanded located out target :
  PyAst.name_id (Expander.once_expanded located out target) = PyAst.name_id out.
Proof.
  unfold Expander.once_expanded, PyAst.fix_missing_locations, PyAst.copy_location.
  destruct out as [cls fields l c| | | |]; try reflexivity.
  assert (Hfix : forall l' c',
             PyAst.name_id (PyAst._fix located (PyAst.Node cls fields l' c') 1 0)
             = PyAst.name_id (PyAst.Node cls fields l c)).
  { intros l' c'. simpl. case_bool_decide; [|reflexivity].
    generalize (if located cls then default 1%Z l' else 1%Z).
    generalize (if located cls then default 0%Z c' else 0%Z).
    intros co ln. clear.
    induction fields as [|[g w] rest IH]; [reflexivity|].
    simpl. case_bool_decide.
    - by destruct w.
    - exact IH. }
  destruct target as [ocls ofields ol oc| | | |]; try apply Hfix.
  destruct (located cls && located ocls); apply Hfix.
Qed.

Lemma once_expanded_is_node located out target :
  PyAst.is_node out = true -> PyAst.is_node (Expander.once_expanded located out target) = true.
Proof.
  destruct out; try discriminate. intros _.
  unfold Expander.once_expanded, PyAst.copy_location.
  destruct target; try reflexivity.
  by destruct (located cls && located cls0).
Qed.



(** *** Locations of macro output *)

Lemma visit_expanded_nodes_once located v target ns st :
  Expander.recursive st = false ->
  forallb PyAst.is_node ns = true ->
  Expander.visit_expanded_nodes located v target ns st
  = Ok (map (fun n => Expander.once_expanded located n target) ns, st).
Proof.
  intros Hrec. induction ns as [|n rest IH]; [reflexivity|].
  simpl. intros [Hn Hrest]%andb_prop.
  unfold Expander.bind, Expander.visit_expanded_node. rewrite Hn.
  unfold Expander.bind. simpl. rewrite Hrec. unfold Expander.ret.
  by rewrite (IH Hrest).
Qed.


(** *** Stacked decorator macros *)

(** C1, where the code departs from it: with [@A] above [@B] on a
    definition, [B] runs first and [A] second, but [A] is called with the
    definition node (its macro decorators taken off), not with what [B]
    returned: the statement [B] produced never reaches [A] and is absent
    from the result, which is the definition as [A] handed it back, behind
    the two coverage markers. *)
Theorem stacked_decorators_get_the_definition :
  let bindings : gmap string Expander.macro := {["A" := macro_A; "B" := macro_B]} in
  exists result st',
    Expander.visit PyAst.py38_located bindings 6 stacked_definition Expander.initial
      = Ok (result, st') /\
    Expander.calls st'
      = [Expander.Call "B" Expander.decorator stripped_definition;
         Expander.Call "A" Expander.decorator stripped_definition] /\
    Expander.macro_fn macro_B Expander.decorator stripped_definition = replacement_statement /\
    PyAst.class_of stripped_definition = "FunctionDef" /\
    PyAst.class_of replacement_statement = "Assign" /\
    exists marker_A marker_B,
      result = PyAst.PyList [Expander.Done marker_A; Expander.Done marker_B; stripped_definition].
Proof.
  intros bindings. eexists _, _.
  split; [vm_compute; reflexivity|].
  split; [reflexivity|].
  split; [reflexivity|].
  split; [reflexivity|].
  split; [reflexivity|].
  eexists _, _. reflexivity.
Qed.

(** The part of C1 that the code does honour, on the same definition:
    the inner macro runs first, and when it returns [None] the outer
    macro is not called. *)
Lemma stacked_decorators_stop_at_none :
  let bindings : gmap string Expander.macro := {["A" := macro_A; "B" := macro_B_none]} in
  exists result st',
    Expander.visit PyAst.py38_located bindings 6 stacked_definition Expander.initial
      = Ok (result, st') /\
    Expander.calls st' = [Expander.Call "B" Expander.decorator stripped_definition].
Proof.
  intros bindings. eexists _, _.
  split; [vm_compute; reflexivity|reflexivity].
Qed.

(** *** Completeness of locations through a whole expansion *)
Section Completeness.
Import PyAst Expander.

Lemma bind_Ok {A B} (m : M A) (k : A -> M B) st r st' :
  bind m k st = Ok (r, st') ->
  exists a st1, m st = Ok (a, st1) /\ k a st1 = Ok (r, st').
Proof.
  unfold bind. destruct (m st) as [[a st1]| |]; try discriminate. eauto.
Qed.

Lemma lift_Ok {A} (o : outcome A) st r st' :
  lift o st = Ok (r, st') -> o = Ok r /\ st' = st.
Proof. unfold lift. destruct o; try discriminate. by intros [= -> ->]. Qed.

Lemma ret_Ok {A} (a : A) st r st' :
  ret a st = Ok (r, st') -> r = a /\ st' = st.
Proof. by intros [= -> ->]. Qed.

Local Abbreviation L := py38_located.
Local Abbreviation cpl := (complete py38_located).

(** [v] maps trees with complete locations to such trees. *)
Definition preserves_complete (v : ast -> M ast) : Prop :=
  forall t st r st', v t st = Ok (r, st') -> cpl t = true -> cpl r = true.

Lemma complete_list_intro xs :
  (forall x, x ∈ xs -> is_node x = true -> cpl x = true) -> cpl (PyList xs) = true.
Proof.
  intros H. simpl. apply forallb_forall. intros x Hin%list_elem_of_In.
  destruct x; try reflexivity. by apply H.
Qed.

Lemma complete_list_elim xs x :
  cpl (PyList xs) = true -> x ∈ xs -> is_node x = true -> cpl x = true.
Proof.
  simpl. intros H Hin%list_elem_of_In Hnode. rewrite forallb_forall in H.
  specialize (H x Hin). by destruct x.
Qed.

Lemma complete_once_expanded out target : cpl (once_expanded L out target) = true.
Proof. apply complete_fix. Qed.

Variable bindings : gmap string macro.
Variable v : ast -> M ast.
Hypothesis Hv : preserves_complete v.

Lemma visit_expanded_node_complete target n st r st' :
  visit_expanded_node L v target n st = Ok (r, st') -> cpl r = true.
Proof.
  unfold visit_expanded_node. destruct (is_node n); [|discriminate].
  intros (rec & st1 & Hrec & H)%bind_Ok. destruct rec.
  - eapply Hv; [exact H|]. apply complete_once_expanded.
  - apply ret_Ok in H as [-> _]. apply complete_once_expanded.
Qed.

Lemma visit_expanded_nodes_complete target ns : forall st rs st',
  visit_expanded_nodes L v target ns st = Ok (rs, st') ->
  forall r, r ∈ rs -> cpl r = true.
Proof.
  induction ns as [|n rest IH]; intros st rs st'; simpl.
  - intros [-> _]%ret_Ok r Hr. by apply elem_of_nil in Hr.
  - intros (n' & st1 & Hn & H)%bind_Ok.
    apply bind_Ok in H as (rest' & st2 & Hrest & H).
    apply ret_Ok in H as [-> _]. intros r [->|Hr]%elem_of_cons.
    + by eapply visit_expanded_node_complete.
    + by eapply IH.
Qed.

Lemma _visit_expansion_complete expansion target st r st' :
  _visit_expansion L v expansion target st = Ok (r, st') -> cpl r = true.
Proof.
  unfold _visit_expansion. destruct expansion; try discriminate.
  - apply visit_expanded_node_complete.
  - intros (rs & st1 & Hrs & H)%bind_Ok. apply ret_Ok in H as [-> _].
    apply complete_list_intro. intros x Hx _.
    by eapply visit_expanded_nodes_complete.
  - by intros [-> _]%ret_Ok.
Qed.

Lemma expand_complete syn target macroname tree st r st' :
  expand L bindings v syn target macroname tree st = Ok (r, st') -> cpl r = true.
Proof.
  unfold expand. destruct (bindings !! macroname); [|discriminate].
  intros (u & st1 & _ & H)%bind_Ok. by eapply _visit_expansion_complete.
Qed.

Lemma visit_items_complete items : forall st rs st',
  visit_items v items st = Ok (rs, st') ->
  cpl (PyList items) = true -> cpl (PyList rs) = true.
Proof.
  induction items as [|x rest IH]; intros st rs st'; simpl visit_items.
  - by intros [-> _]%ret_Ok.
  - intros (new & st1 & Hnew & H)%bind_Ok Hc.
    apply bind_Ok in H as (rest' & st2 & Hrest & H).
    apply ret_Ok in H as [-> _].
    assert (Hrest_c : cpl (PyList rest') = true).
    { eapply IH; [exact Hrest|]. apply complete_list_intro.
      intros y Hy. apply (complete_list_elim _ _ Hc). by right. }
    assert (Hnew_c : cpl (PyList new) = true).
    { destruct (is_node x) eqn:Hnode.
      - apply bind_Ok in Hnew as (r & st3 & Hr & Hnew).
        assert (Hrc : cpl r = true).
        { eapply Hv; [exact Hr|]. apply (complete_list_elim _ _ Hc); [by left|done]. }
        destruct r; try discriminate; apply ret_Ok in Hnew as [-> _].
        + apply complete_list_intro. intros y ->%list_elem_of_singleton _. exact Hrc.
        + exact Hrc.
        + reflexivity.
      - apply ret_Ok in Hnew as [-> _]. apply complete_list_intro.
        intros y ->%list_elem_of_singleton Hy. congruence. }
    apply complete_list_intro. intros y [Hy|Hy]%elem_of_app Hnode.
    + by apply (complete_list_elim _ _ Hnew_c).
    + by apply (complete_list_elim _ _ Hrest_c).
Qed.


(** The field values of a complete node, as [complete] checks them. *)
Definition fields_complete (fields : list (string * ast)) : Prop :=
  forall f x, (f, x) ∈ fields ->
    match x with Node _ _ _ _ | PyList _ => cpl x = true | _ => True end.

Lemma fields_complete_of_node cls fields l c :
  cpl (Node cls fields l c) = true -> fields_complete fields.
Proof.
  simpl. intros [_ H]%andb_prop f x Hin%list_elem_of_In.
  rewrite forallb_forall in H. specialize (H _ Hin). by destruct x.
Qed.

Lemma node_complete_of_fields cls fields fields' l c :
  cpl (Node cls fields l c) = true -> fields_complete fields' ->
  cpl (Node cls fields' l c) = true.
Proof.
  simpl. intros [Hroot _]%andb_prop H. rewrite Hroot. simpl.
  apply forallb_forall. intros [f x] Hin%list_elem_of_In.
  specialize (H _ _ Hin). by destruct x.
Qed.

Lemma visit_fields_complete fields : forall st fs st',
  visit_fields v fields st = Ok (fs, st') ->
  fields_complete fields -> fields_complete fs.
Proof.
  induction fields as [|[f x] rest IH]; intros st fs st'; simpl visit_fields.
  - by intros [-> _]%ret_Ok.
  - intros (new & st1 & Hnew & H)%bind_Ok Hc.
    apply bind_Ok in H as (rest' & st2 & Hrest & H).
    apply ret_Ok in H as [-> _].
    assert (Hrest_c : fields_complete rest').
    { eapply IH; [exact Hrest|]. intros g y Hy. apply (Hc g y). by right. }
    assert (Hx : match x with Node _ _ _ _ | PyList _ => cpl x = true | _ => True end).
    { apply (Hc f x). by left. }
    intros g y [Hy|Hy]%elem_of_app; [|by apply (Hrest_c g y)].
    destruct x as [xc xf xl xo|items|s|z|].
    + apply bind_Ok in Hnew as (r & st3 & Hr & Hnew).
      pose proof (Hv _ _ _ _ Hr Hx) as Hrc.
      destruct r; apply ret_Ok in Hnew as [-> _];
        first [by apply elem_of_nil in Hy
              | apply list_elem_of_singleton in Hy as [= -> ->]; done].
    + apply bind_Ok in Hnew as (items' & st3 & Hitems & Hnew).
      apply ret_Ok in Hnew as [-> _].
      apply list_elem_of_singleton in Hy as [= -> ->].
      by eapply visit_items_complete.
    + apply ret_Ok in Hnew as [-> _]. by apply list_elem_of_singleton in Hy as [= -> ->].
    + apply ret_Ok in Hnew as [-> _]. by apply list_elem_of_singleton in Hy as [= -> ->].
    + apply ret_Ok in Hnew as [-> _]. by apply list_elem_of_singleton in Hy as [= -> ->].
Qed.

Lemma generic_visit_complete t st r st' :
  generic_visit v t st = Ok (r, st') -> cpl t = true -> cpl r = true.
Proof.
  unfold generic_visit. destruct t as [cls fields l c| | | |]; try discriminate.
  intros (fs & st1 & Hfs & H)%bind_Ok Hc. apply ret_Ok in H as [-> _].
  eapply node_complete_of_fields; [exact Hc|].
  eapply visit_fields_complete; [exact Hfs|]. by eapply fields_complete_of_node.
Qed.

(** The coverage dummy copies its location from a target that has one. *)
Lemma _add_coverage_dummy_node_complete tree target :
  cpl tree = true ->
  is_node target = true -> L (class_of target) = true -> cpl target = true ->
  cpl (_add_coverage_dummy_node L tree target) = true.
Proof.
  intros Htree Hnode Hloc Htarget.
  destruct target as [tcls tfs tl tc| | | |]; try discriminate.
  simpl in Hloc. simpl in Htarget. rewrite Hloc in Htarget.
  apply andb_prop in Htarget as [[[l ->]%bool_decide_eq_true [c ->]%bool_decide_eq_true]%andb_prop _].
  unfold _add_coverage_dummy_node, has_lineno, has_col_offset. simpl.
  rewrite Hloc. simpl.
  assert (Hitems : forall x, x ∈ match tree with
                                 | PyNone => []
                                 | PyList ns => ns
                                 | _ => [tree]
                                 end -> is_node x = true -> cpl x = true).
  { destruct tree; intros x Hx Hxn.
    - by apply list_elem_of_singleton in Hx as ->.
    - by eapply complete_list_elim.
    - apply list_elem_of_singleton in Hx as ->. discriminate.
    - apply list_elem_of_singleton in Hx as ->. discriminate.
    - by apply elem_of_nil in Hx. }
  apply forallb_forall. intros x Hx%list_elem_of_In.
  destruct x; try reflexivity. by apply Hitems.
Qed.


Lemma getattr_complete t f x :
  getattr t f = Ok x -> cpl t = true ->
  match x with Node _ _ _ _ | PyList _ => cpl x = true | _ => True end.
Proof.
  unfold getattr. destruct t as [cls fields l c| | | |]; try discriminate.
  destruct (assoc f fields) as [y|] eqn:Hy; [|discriminate].
  intros [= ->] Hc. apply (fields_complete_of_node _ _ _ _ Hc f x).
  by apply assoc_elem.
Qed.

Lemma visit_Subscript_complete t st r st' :
  visit_Subscript L bindings v t st = Ok (r, st') -> cpl t = true -> cpl r = true.
Proof.
  unfold visit_Subscript. intros (rootdir & st1 & _ & H)%bind_Ok Hc.
  destruct (bound_name bindings rootdir).
  - apply bind_Ok in H as (slice & st2 & _ & H).
    apply bind_Ok in H as (tree & st3 & _ & H).
    by eapply expand_complete.
  - by eapply generic_visit_complete.
Qed.

Lemma visit_With_complete t st r st' :
  class_of t = "With" ->
  visit_With L bindings v t st = Ok (r, st') -> cpl t = true -> cpl r = true.
Proof.
  unfold visit_With. intros Hcls (items & st1 & _ & H)%bind_Ok Hc.
  apply bind_Ok in H as (with_item & st2 & _ & H).
  apply bind_Ok in H as (rootdir & st3 & _ & H).
  destruct (bound_name bindings rootdir).
  - apply bind_Ok in H as (tree & st4 & _ & H).
    apply bind_Ok in H as (u & st5 & _ & H).
    apply bind_Ok in H as (new_tree & st6 & Hexp & H).
    apply ret_Ok in H as [-> _].
    apply _add_coverage_dummy_node_complete.
    + by eapply expand_complete.
    + by destruct t.
    + by rewrite Hcls.
    + exact Hc.
  - by eapply generic_visit_complete.
Qed.

Lemma setattr_complete t f x :
  cpl t = true ->
  match x with Node _ _ _ _ | PyList _ => cpl x = true | _ => True end ->
  cpl (setattr t f x) = true.
Proof.
  destruct t as [cls fields l c| | | |]; try done. intros Hc Hx.
  unfold setattr. eapply node_complete_of_fields; [exact Hc|].
  pose proof (fields_complete_of_node _ _ _ _ Hc) as Hf. clear Hc.
  induction fields as [|[g w] rest IH]; simpl.
  - intros g y Hy. apply list_elem_of_singleton in Hy as [= -> ->]. exact Hx.
  - case_bool_decide.
    + intros h y [Hy|Hy]%elem_of_cons.
      * by injection Hy as -> ->.
      * apply (Hf h y). by right.
    + intros h y [Hy|Hy]%elem_of_cons.
      * apply (Hf h y). rewrite Hy. by left.
      * apply (IH (fun h' y' Hy' => Hf h' y' (proj2 (elem_of_cons _ _ _) (or_intror Hy'))) h y Hy).
Qed.


Lemma name_id_class t id : name_id t = Some id -> is_node t = true /\ class_of t = "Name".
Proof.
  destruct t as [cls fields l c| | | |]; try discriminate. simpl.
  case_bool_decide; [|discriminate]. by subst.
Qed.

Lemma detect_elem ds macros others :
  _detect_decorator_macros bindings ds = (macros, others) ->
  (forall m, m ∈ macros -> m ∈ ds /\ exists id, name_id m = Some id) /\
  (forall o, o ∈ others -> o ∈ ds).
Proof.
  revert macros others. induction ds as [|d rest IH]; intros macros others; simpl.
  - intros [= <- <-]. split; intros x Hx; by apply elem_of_nil in Hx.
  - destruct (_detect_decorator_macros bindings rest) as [ms os].
    destruct (IH ms os eq_refl) as [IHm IHo].
    destruct (bound_name bindings d) as [id|] eqn:Hd; intros [= <- <-]; split.
    + intros m [->|Hm]%elem_of_cons.
      * split; [by left|]. unfold bound_name in Hd.
        destruct (name_id d); [eauto|discriminate].
      * destruct (IHm m Hm) as [? ?]. split; [by right|done].
    + intros o Ho. right. by apply IHo.
    + intros m Hm. destruct (IHm m Hm) as [? ?]. split; [by right|done].
    + intros o [->|Ho]%elem_of_cons; [by left|]. right. by apply IHo.
Qed.

Lemma run_decorator_macros_complete decorated todo : forall new_tree executed st nt ex st',
  run_decorator_macros L bindings v decorated todo new_tree executed st = Ok ((nt, ex), st') ->
  cpl new_tree = true ->
  cpl nt = true /\ (forall m, m ∈ ex -> m ∈ executed \/ m ∈ todo).
Proof.
  induction todo as [|m rest IH]; intros new_tree executed st nt ex st'; simpl.
  - intros [[= -> ->] _]%ret_Ok Hc. split; [done|]. intros m Hm. by left.
  - destruct (name_id m) as [macroname|]; [|discriminate].
    intros (r & st1 & Hexp & H)%bind_Ok _.
    pose proof (expand_complete _ _ _ _ _ _ _ Hexp) as Hr.
    assert (Hstep : forall y, y ∈ executed ++ [m] -> y ∈ executed \/ y ∈ m :: rest).
    { intros y [Hy|Hy%list_elem_of_singleton]%elem_of_app; [by left|].
      right. subst. by left. }
    destruct r.
    5: { apply ret_Ok in H as [[= -> ->] _]. split; [done|]. exact Hstep. }
    all: apply IH in H as [Hnt Hex]; [|done]; split; [done|];
      intros y Hy; destruct (Hex y Hy) as [Hy'|Hy']; [by apply Hstep|];
      right; by right.
Qed.

Lemma fold_dummy_complete ex : forall tree,
  cpl tree = true ->
  (forall m, m ∈ ex -> is_node m = true /\ L (class_of m) = true /\ cpl m = true) ->
  cpl (fold_left (_add_coverage_dummy_node L) ex tree) = true.
Proof.
  induction ex as [|m rest IH]; intros tree Hc Hex; [exact Hc|].
  simpl. apply IH.
  - destruct (Hex m) as (? & ? & ?); [by left|].
    by apply _add_coverage_dummy_node_complete.
  - intros y Hy. apply Hex. by right.
Qed.

Lemma _visit_Decorated_complete t st r st' :
  _visit_Decorated L bindings v t st = Ok (r, st') -> cpl t = true -> cpl r = true.
Proof.
  unfold _visit_Decorated. intros (dl & st1 & Hdl & H)%bind_Ok Hc.
  apply lift_Ok in Hdl as [Hdl ->].
  pose proof (getattr_complete _ _ _ Hdl Hc) as Hds.
  destruct dl as [|ds| | |]; try discriminate.
  destruct (_detect_decorator_macros bindings ds) as [macros others] eqn:Hdet.
  destruct (detect_elem _ _ _ Hdet) as [Hmacros Hothers].
  assert (Hstripped : cpl (setattr t "decorator_list" (PyList others)) = true).
  { apply setattr_complete; [exact Hc|]. apply complete_list_intro.
    intros o Ho. apply (complete_list_elim _ _ Hds). by apply Hothers. }
  destruct macros as [|m0 ms]; [by eapply generic_visit_complete|].
  apply bind_Ok in H as ([nt ex] & st2 & Hrun & H). apply ret_Ok in H as [-> _].
  apply run_decorator_macros_complete in Hrun as [Hnt Hex]; [|reflexivity].
  apply fold_dummy_complete; [exact Hnt|].
  intros m Hm. destruct (Hex m Hm) as [Hm'|Hm']; [by apply elem_of_nil in Hm'|].
  rewrite list_elem_of_In, <- in_rev, <- list_elem_of_In in Hm'. destruct (Hmacros m Hm') as [Hin [id Hid]].
  apply name_id_class in Hid as [Hnode Hcls].
  split; [done|]. split; [by rewrite Hcls|].
  by apply (complete_list_elim _ _ Hds).
Qed.

Lemma visit_Name_complete t st r st' :
  visit_Name L bindings v t st = Ok (r, st') -> cpl t = true -> cpl r = true.
Proof.
  unfold visit_Name. intros (id & st1 & _ & H)%bind_Ok Hc.
  destruct id as [| |macroname| |]; try by eapply generic_visit_complete.
  destruct (bindings !! macroname) as [m|]; [|by eapply generic_visit_complete].
  destruct (isnamemacro m); [|by eapply generic_visit_complete].
  apply bind_Ok in H as (oldrec & st2 & _ & H).
  apply bind_Ok in H as (u & st3 & _ & H).
  apply bind_Ok in H as (new_tree & st4 & Hexp & H).
  apply bind_Ok in H as (u' & st5 & _ & H).
  apply bind_Ok in H as (rec & st6 & _ & H).
  pose proof (expand_complete _ _ _ _ _ _ _ Hexp) as Hnt.
  destruct (rec && negb (is_None new_tree)).
  - destruct (ismodified macroname new_tree).
    + by eapply Hv.
    + apply ret_Ok in H as [-> _]. simpl. rewrite andb_true_r.
      by destruct new_tree.
  - by apply ret_Ok in H as [-> _].
Qed.

Lemma dispatch_complete t st r st' :
  dispatch L bindings v t st = Ok (r, st') -> cpl t = true -> cpl r = true.
Proof.
  unfold dispatch. destruct t as [cls fields l c| | | |];
    try by apply generic_visit_complete.
  repeat case_bool_decide; subst.
  - apply visit_Subscript_complete.
  - by apply visit_With_complete.
  - apply _visit_Decorated_complete.
  - apply _visit_Decorated_complete.
  - apply visit_Name_complete.
  - by intros [-> _]%ret_Ok.
  - apply generic_visit_complete.
Qed.

End Completeness.

(** Expanding a tree whose located nodes all have a line and a column
    yields such a tree, whatever the macros return. *)
Lemma visit_complete bindings fuel :
  preserves_complete (Expander.visit PyAst.py38_located bindings fuel).
Proof.
  induction fuel as [|fuel IH]; intros t st r st'; [discriminate|].
  simpl. unfold Expander.visit_body. case_bool_decide.
  - by intros [-> _]%ret_Ok.
  - by apply dispatch_complete.
Qed.




(** *** Every stacked macro is called with the definition *)
Section StackedDecorators.
Import PyAst Expander.

Variable located : string -> bool.
Variable bindings : gmap string macro.
Variable v : ast -> M ast.

Lemma visit_expanded_nodes_one_layer target ns : forall st rs st',
  recursive st = false ->
  visit_expanded_nodes located v target ns st = Ok (rs, st') -> st' = st.
Proof.
  induction ns as [|n rest IH]; intros st rs st' Hrec; simpl.
  - by intros [_ ->]%ret_Ok.
  - intros (n' & st1 & Hn & H)%bind_Ok.
    apply bind_Ok in H as (rest' & st2 & Hrest & H). apply ret_Ok in H as [_ ->].
    unfold visit_expanded_node in Hn. destruct (is_node n); [|discriminate].
    unfold bind, get_recursive in Hn. rewrite Hrec in Hn. injection Hn as _ <-.
    by eapply IH.
Qed.

Lemma expand_one_layer syn target macroname tree st r st' :
  recursive st = false ->
  expand located bindings v syn target macroname tree st = Ok (r, st') ->
  st' = XState false (calls st ++ [Call macroname syn tree]).
Proof.
  intros Hrec. unfold expand. destruct (bindings !! macroname) as [m|]; [|discriminate].
  intros (u & st1 & Hlog & H)%bind_Ok. injection Hlog as _ <-. rewrite Hrec in H.
  unfold _visit_expansion in H. destruct (macro_fn m syn tree) as [? ? ? ?|ns| | |];
    try discriminate.
  - unfold visit_expanded_node, bind, get_recursive in H. simpl in H. by injection H as _ <-.
  - apply bind_Ok in H as (rs & st2 & Hrs & H). apply ret_Ok in H as [_ ->].
    by apply visit_expanded_nodes_one_layer in Hrs.
  - by apply ret_Ok in H as [_ ->].
Qed.

(** In one-layer mode the loop over the stacked macros calls them in the
    order given, each with [decorated], and stops after a [None]. *)
Lemma run_decorator_macros_one_layer decorated todo :
  forall new_tree executed st nt ex st',
    recursive st = false ->
    run_decorator_macros located bindings v decorated todo new_tree executed st
      = Ok ((nt, ex), st') ->
    exists ran rest,
      todo = ran ++ rest /\
      ex = executed ++ ran /\
      recursive st' = false /\
      calls st' = calls st ++ map (decorator_call decorated) ran /\
      (rest <> [] -> nt = PyNone).
Proof.
  induction todo as [|m rest IH]; intros new_tree executed st nt ex st' Hrec; simpl.
  - intros [[= -> ->] ->]%ret_Ok. exists [], []. rewrite !app_nil_r. done.
  - destruct (name_id m) as [macroname|] eqn:Hid; [|discriminate].
    intros (r & st1 & Hexp & H)%bind_Ok.
    pose proof (expand_one_layer _ _ _ _ _ _ _ Hrec Hexp) as ->.
    assert (Hstop : r = PyNone ->
              ret (r, executed ++ [m]) (XState false (calls st ++ [Call macroname decorator decorated]))
                = Ok (nt, ex, st') ->
              exists ran rest0,
                m :: rest = ran ++ rest0 /\ ex = executed ++ ran /\ recursive st' = false /\
                calls st' = calls st ++ map (decorator_call decorated) ran /\
                (rest0 <> [] -> nt = PyNone)).
    { intros -> [[= -> ->] ->]%ret_Ok. exists [m], rest. simpl.
      unfold decorator_call. rewrite Hid. done. }
    assert (Hgo : run_decorator_macros located bindings v decorated rest r (executed ++ [m])
                    (XState false (calls st ++ [Call macroname decorator decorated]))
                  = Ok (nt, ex, st') ->
              exists ran rest0,
                m :: rest = ran ++ rest0 /\ ex = executed ++ ran /\ recursive st' = false /\
                calls st' = calls st ++ map (decorator_call decorated) ran /\
                (rest0 <> [] -> nt = PyNone)).
    { intros Hrun. apply IH in Hrun; [|reflexivity].
      destruct Hrun as (ran & rest0 & -> & -> & Hrec' & Hcalls & Hnone).
      exists (m :: ran), rest0. simpl in Hcalls.
      split; [done|]. split; [by rewrite <- app_assoc|]. split; [done|].
      split; [|done]. rewrite Hcalls, <- app_assoc. simpl.
      unfold decorator_call at 2. by rewrite Hid. }
    destruct r; [by apply Hgo..|by apply Hstop].
Qed.

End StackedDecorators.



(** ** Macro discovery *)
Section DiscoveryFacts.
Import Discovery.

Context {V : Type}.
Variable sys_path : list string.
Variable resolve : string -> string.
Variable parent : string -> string.
Variable sep : Ascii.ascii.
Variable resolve_name : string -> option string -> outcome string.
Variable import_module : string -> outcome (gmap string V).
Variable reload_module : string -> outcome (gmap string V).

Local Abbreviation get_macros :=
  (@_get_macros V sys_path resolve parent sep resolve_name import_module reload_module).
Local Abbreviation find_in :=
  (@find_macros_in V sys_path resolve parent sep resolve_name import_module reload_module).

Lemma collect_bindings_spec (module : gmap string V) names : forall acc more,
  collect_bindings module names acc = Ok more ->
  (forall k, k ∉ map binding_key names -> more !! k = acc !! k) /\
  (forall apre a apost,
      names = apre ++ a :: apost ->
      binding_key a ∉ map binding_key apost ->
      exists v, module !! name a = Some v /\ more !! binding_key a = Some v).
Proof.
  induction names as [|b rest IH]; intros acc more; simpl.
  - intros [= <-]. split; [done|]. intros [|] ? ? Heq; discriminate.
  - intros (v & Hv & Hrest)%obind_Ok.
    unfold module_getattr in Hv. destruct (module !! name b) as [w|] eqn:Hw; [|discriminate].
    injection Hv as ->. destruct (IH _ _ Hrest) as [IHout IHin]. split.
    + intros k Hk. apply not_elem_of_cons in Hk as [Hne Hk].
      rewrite (IHout k Hk). by rewrite lookup_insert_ne.
    + intros [|b' apre] a apost Heq Hlast.
      * injection Heq as <- <-. exists v. split; [done|].
        rewrite (IHout _ Hlast). by rewrite lookup_insert_eq.
      * injection Heq as <- ->. by apply (IHin apre a apost).
Qed.


Lemma get_macros_spec module names level l c filename reload mf more :
  get_macros (ImportFrom (Some module) names level l c) filename reload = Ok (mf, more) ->
  exists m0 m,
    import_module mf = Ok m0 /\
    (if reload then reload_module mf = Ok m else m = m0) /\
    collect_bindings m (tail names) ∅ = Ok more.
Proof.
  unfold _get_macros.
  intros (package & _ & H)%obind_Ok.
  apply obind_Ok in H as (nm & _ & H).
  apply obind_Ok in H as (mf' & _ & H).
  apply obind_Ok in H as (m0 & Hm0 & H).
  apply obind_Ok in H as (m & Hm & H).
  apply obind_Ok in H as (bs & Hbs & H).
  injection H as -> ->. exists m0, m. split; [done|]. split; [|done].
  destruct reload; [done|]. by injection Hm.
Qed.

Lemma not_listed_not_bound s filename reload mf more k :
  _is_macro_import s = Ok true ->
  get_macros s filename reload = Ok (mf, more) ->
  k ∉ listed_keys s -> more !! k = None.
Proof.
  intros His Hget Hk. unfold listed_keys in Hk. rewrite His in Hk.
  destruct s as [[module|] names level l c| |]; try discriminate.
  apply get_macros_spec in Hget as (m0 & m & _ & _ & Hcollect).
  destruct (collect_bindings_spec _ _ _ _ Hcollect) as [Hout _].
  by rewrite (Hout k Hk).
Qed.

Lemma find_macros_in_frame body : forall filename reload b0 body' b k,
  find_in body filename reload b0 = Ok (body', b) ->
  (forall s, s ∈ body -> k ∉ listed_keys s) ->
  b !! k = b0 !! k.
Proof.
  induction body as [|s rest IH]; intros filename reload b0 body' b k; simpl.
  - by intros [= _ <-].
  - intros (is_mi & His & H)%obind_Ok Hk. destruct is_mi.
    + apply obind_Ok in H as ([mf more] & Hget & H).
      apply obind_Ok in H as ([rest' b'] & Hrest & H). injection H as _ <-.
      rewrite (IH _ _ _ _ _ k Hrest) by (intros s' Hs'; apply Hk; by right).
      rewrite lookup_union_r; [done|].
      eapply not_listed_not_bound; [exact His|exact Hget|]. apply Hk. by left.
    + apply obind_Ok in H as ([rest' b'] & Hrest & H). injection H as _ <-.
      apply (IH _ _ _ _ _ k Hrest). intros s' Hs'. apply Hk. by right.
Qed.

Lemma find_macros_in_length body : forall filename reload b0 body' b,
  find_in body filename reload b0 = Ok (body', b) -> length body' = length body.
Proof.
  induction body as [|s rest IH]; intros filename reload b0 body' b; simpl.
  - by intros [= <- _].
  - intros (is_mi & His & H)%obind_Ok. destruct is_mi.
    + apply obind_Ok in H as ([mf more] & Hget & H).
      apply obind_Ok in H as ([rest' b'] & Hrest & H). injection H as <- _.
      simpl. f_equal. by eapply IH.
    + apply obind_Ok in H as ([rest' b'] & Hrest & H). injection H as <- _.
      simpl. f_equal. by eapply IH.
Qed.


End DiscoveryFacts.



(** ** The dialect expander *)
Section DialectFacts.
Import Discovery Dialects.

Variable filename : string.
Variable _decode_source_content : list Byte.byte -> outcome string.
Variable parse : source -> outcome tree.
Variable finditer : string -> list re_match.
Variable ismacroimport : statement -> string -> bool.
Variable get_macros : import_node -> outcome (string * list (string * pyobject)).

(** The source scan of a text without dialect-import lines returns the
    text, whatever the unpacking does. *)
Lemma transform_source_no_match list_match fuel text st :
  finditer text = [] ->
  transform_source filename parse finditer list_match get_macros (S fuel) text st
  = (Ok text, st).
Proof.
  intros Hno. simpl. unfold dbind, find_dialectimport_source, dbind.
  rewrite Hno. reflexivity.
Qed.

(** Under CPython the first match ends the source scan with a
    [TypeError]: nothing is marked as seen, nothing is applied. *)
Lemma transform_source_match_raises fuel text st m rest :
  finditer text = m :: rest ->
  transform_source filename parse finditer cpython_list_match get_macros (S fuel) text st
  = (Raise (TypeError "'re.Match' object is not iterable"), st).
Proof.
  intros Hm. simpl. unfold dbind, find_dialectimport_source, dbind.
  rewrite Hm. reflexivity.
Qed.

Lemma apply_ast_transformers_app module_absname pre post t st t1 st1 :
  apply_ast_transformers filename module_absname pre t st = (Ok t1, st1) ->
  apply_ast_transformers filename module_absname (pre ++ post) t st
  = apply_ast_transformers filename module_absname post t1 st1.
Proof.
  revert t st. induction pre as [|[dialectname cls] pre IH]; intros t st; simpl.
  - by intros [= -> ->].
  - destruct (isinstance_Dialect cls); simpl; [|discriminate].
    unfold dbind, dlift. destruct (call cls) as [d| |]; try discriminate.
    destruct (transform_ast_of d t) as [t'| |]; try discriminate.
    simpl. apply IH.
Qed.


Lemma apply_source_transformers_app module_absname pre post text st text1 st1 :
  apply_source_transformers filename module_absname pre text st = (Ok text1, st1) ->
  apply_source_transformers filename module_absname (pre ++ post) text st
  = apply_source_transformers filename module_absname post text1 st1.
Proof.
  revert text st. induction pre as [|[dialectname cls] pre IH]; intros text st; simpl.
  - by intros [= -> ->].
  - destruct (isinstance_Dialect cls); simpl; [|discriminate].
    unfold dbind, dlift. destruct (call cls) as [d| |]; try discriminate.
    destruct (transform_source_of d text) as [text'| |]; try discriminate.
    simpl. apply IH.
Qed.



(** *** The seen-set

    Whatever the unpacking of a match yields, a statement is taken up by
    the source scan at most once: the statements found are pairwise
    distinct and all marked as seen. *)
Lemma found_statements_app l1 l2 :
  found_statements (l1 ++ l2) = found_statements l1 ++ found_statements l2.
Proof.
  induction l1 as [|e l1 IH]; [reflexivity|].
  destruct e; simpl; by rewrite IH.
Qed.

Lemma seen_invariant_emit e st :
  (forall s, e <> Found s) -> seen_invariant st -> seen_invariant (snd (emit e st)).
Proof.
  intros He [Hnd Hseen]. unfold seen_invariant. simpl.
  rewrite found_statements_app.
  assert (Hnil : found_statements [e] = []).
  { destruct e as [s0| |]; try reflexivity. by destruct (He s0). }
  rewrite Hnil, app_nil_r. by split.
Qed.

Section SeenSet.
Variable list_match : re_match -> outcome (string * list string).

Lemma next_unseen_invariant matches : forall st o st',
  next_unseen list_match matches st = (o, st') ->
  seen_invariant st -> seen_invariant st'.
Proof.
  induction matches as [|m rest IH]; intros st o st'; simpl.
  - by intros [= _ <-].
  - unfold dbind at 1. unfold dlift.
    destruct (list_match m) as [[statement gs]| |]; try by intros [= _ <-].
    unfold dbind at 1. unfold seen. case_bool_decide as Hs; simpl.
    + apply IH.
    + unfold dbind, add_seen, emit, dret. simpl. intros [= _ <-] [Hnd Hseen].
      unfold seen_invariant. simpl. rewrite found_statements_app. simpl. split.
      * apply NoDup_app. split; [done|]. split; [|apply NoDup_singleton].
        intros s Hin ->%list_elem_of_singleton. apply Hs. by apply Hseen.
      * intros s [Hin|Heq%list_elem_of_singleton]%elem_of_app.
        -- apply elem_of_union_r. by apply Hseen.
        -- subst s. apply elem_of_union_l. by apply elem_of_singleton.
Qed.

Lemma find_dialectimport_source_invariant text st o st' :
  find_dialectimport_source parse finditer list_match get_macros text st = (o, st') ->
  seen_invariant st -> seen_invariant st'.
Proof.
  unfold find_dialectimport_source, dbind.
  destruct (next_unseen list_match (finditer text) st) as [[found| |] st1] eqn:Hnext;
    intros H Hinv; pose proof (next_unseen_invariant _ _ _ _ Hnext Hinv) as Hinv1.
  - destruct found as [statement|].
    + unfold dlift in H. destruct (parse (Text statement)); by injection H as _ <-.
    + by injection H as _ <-.
  - by injection H as _ <-.
  - by injection H as _ <-.
Qed.

Lemma apply_source_transformers_invariant module_absname bindings : forall text st o st',
  apply_source_transformers filename module_absname bindings text st = (o, st') ->
  seen_invariant st -> seen_invariant st'.
Proof.
  induction bindings as [|[dialectname cls] rest IH]; intros text st o st'; simpl.
  - by intros [= _ <-].
  - destruct (isinstance_Dialect cls); simpl; [|by intros [= _ <-]].
    unfold dbind at 1. unfold dlift.
    destruct (call cls) as [d| |]; try by intros [= _ <-].
    unfold dbind at 1.
    destruct (transform_source_of d text) as [text'| |]; try by intros [= _ <-].
    unfold dbind at 1. intros H Hinv. eapply IH; [exact H|].
    by apply (seen_invariant_emit (SourceTransformed module_absname dialectname)).
Qed.


End SeenSet.

(** C2, where the code departs from it: whatever text the source
    transformers return, [expand] parses the bytes it was given, so the
    tree handed to the AST transformers is that of the original input and
    the transformed text is dropped. *)
Theorem expand_parses_the_original_bytes
    (list_match : re_match -> outcome (string * list string))
    (fuel : nat) (data : list Byte.byte) (text text' : string) (st st' : dstate) :
  _decode_source_content data = Ok text ->
  transform_source filename parse finditer list_match get_macros fuel text st
    = (Ok text', st') ->
  expand filename _decode_source_content parse finditer list_match
    ismacroimport get_macros fuel data st
  = match parse (Bytes data) with
    | Ok t => transform_ast filename ismacroimport get_macros fuel t st'
    | Raise e => (Raise e, st')
    | OutOfFuel => (OutOfFuel, st')
    end.
Proof.
  intros Hdecode Htransform. unfold expand.
  unfold dbind at 1. unfold dlift at 1. rewrite Hdecode.
  unfold dbind at 1. rewrite Htransform.
  unfold dbind, dlift. by destruct (parse (Bytes data)).
Qed.

(** C6, where the code departs from it: under CPython the unpacking
    [statement, *groups = list(match)] raises before the seen-set is
    consulted, so for a text with a dialect-import line the source stage,
    and with it [expand], ends in a [TypeError]; no line is marked as
    seen and no source transformer is applied. *)
Theorem dialect_import_line_raises
    (fuel : nat) (data : list Byte.byte) (text : string) (st : dstate)
    (m : re_match) (rest : list re_match) :
  finditer text = m :: rest ->
  transform_source filename parse finditer cpython_list_match get_macros (S fuel) text st
    = (Raise (TypeError "'re.Match' object is not iterable"), st) /\
  (_decode_source_content data = Ok text ->
   expand filename _decode_source_content parse finditer cpython_list_match
     ismacroimport get_macros (S fuel) data st
   = (Raise (TypeError "'re.Match' object is not iterable"), st)).
Proof.
  intros Hm. pose proof (transform_source_match_raises fuel text st m rest Hm) as Hrun.
  split; [exact Hrun|].
  intros Hdecode. unfold expand.
  unfold dbind at 1. unfold dlift at 1. rewrite Hdecode.
  unfold dbind at 1. by rewrite Hrun.
Qed.

End DialectFacts.



(** A run of C6: one dialect-import line naming the dialect [Upper]; its
    source transformer is never applied. *)
Lemma dialect_import_line_raises_witness :
  Dialects.transform_source "main.py" sample_parse sample_finditer
    Dialects.cpython_list_match sample_get_macros 3 dialect_import_line Dialects.fresh
  = (Raise (TypeError "'re.Match' object is not iterable"), Dialects.fresh).
Proof.
  exact (proj1 (dialect_import_line_raises "main.py" (fun _ => Ok dialect_import_line)
                  sample_parse sample_finditer sample_ismacroimport sample_get_macros
                  2 [] dialect_import_line Dialects.fresh
                  (Dialects.Match dialect_import_line ["mydialects"; "Upper"]) []
                  eq_refl)).
Defined.

(** With an unpacking that yields the matched text, the same line is
    taken up once and [Upper] is applied once. *)
Lemma dialect_import_line_applied_once_when_iterable :
  Dialects.transform_source "main.py" sample_parse sample_finditer
    Dialects.iterable_list_match sample_get_macros 3 dialect_import_line Dialects.fresh
  = (Ok (dialect_import_line +:+ "# Upper was here"),
     Dialects.DState {[dialect_import_line]}
       [Dialects.Found dialect_import_line;
        Dialects.SourceTransformed "mydialects" "Upper"]).
Proof. vm_compute. reflexivity. Qed.

(** A run of C2, with the unpacking repaired so that the source stage
    gets through: [Upper] rewrites the text, yet the tree that reaches
    the AST stage is the parse of the bytes. *)
Lemma expand_parses_the_original_bytes_witness :
  Dialects.expand "main.py" (fun _ => Ok dialect_import_line) sample_parse
    sample_finditer Dialects.iterable_list_match sample_ismacroimport sample_get_macros
    3 [] Dialects.fresh
  = match sample_parse (Dialects.Bytes []) with
    | Ok t =>
        Dialects.transform_ast "main.py" sample_ismacroimport sample_get_macros 3 t
          (Dialects.DState {[dialect_import_line]}
             [Dialects.Found dialect_import_line;
              Dialects.SourceTransformed "mydialects" "Upper"])
    | Raise e => (Raise e, Dialects.fresh)
    | OutOfFuel => (OutOfFuel, Dialects.fresh)
    end.
Proof.
  exact (expand_parses_the_original_bytes "main.py" (fun _ => Ok dialect_import_line)
           sample_parse sample_finditer sample_ismacroimport sample_get_macros
           Dialects.iterable_list_match 3 [] dialect_import_line
           (dialect_import_line +:+ "# Upper was here") Dialects.fresh
           (Dialects.DState {[dialect_import_line]}
              [Dialects.Found dialect_import_line;
               Dialects.SourceTransformed "mydialects" "Upper"])
           eq_refl dialect_import_line_applied_once_when_iterable).
Defined.


(** ** The importer hooks *)
Section ImporterFacts.
Import Discovery Importer.

Variable _stdlib_sourcefile_paths : gset string.
Variable stat : string -> outcome Z.
Variable parse_body : string -> outcome (list statement).
Variable ismacroimport : statement -> string -> bool.
Variable resolve_package : string -> outcome string.
Variable resolve_name : string -> option string -> outcome string.
Variable find_spec : string -> outcome (option (option string)).
Variable dont_write_bytecode : bool.
Variable cache_writable : string -> bool.

Local Abbreviation dep :=
  (depends _stdlib_sourcefile_paths parse_body ismacroimport resolve_package
     resolve_name find_spec).
Local Abbreviation closure_max :=
  (is_closure_max _stdlib_sourcefile_paths stat parse_body ismacroimport
     resolve_package resolve_name find_spec).
Local Abbreviation sound :=
  (xcache_sound _stdlib_sourcefile_paths stat parse_body ismacroimport
     resolve_package resolve_name find_spec).
Local Abbreviation consistent :=
  (importcache_consistent stat parse_body ismacroimport).
Local Abbreviation well :=
  (healthy _stdlib_sourcefile_paths stat parse_body ismacroimport
     resolve_package resolve_name find_spec).
Local Abbreviation xstats :=
  (path_xstats _stdlib_sourcefile_paths stat parse_body ismacroimport
     resolve_package resolve_name find_spec dont_write_bytecode cache_writable).

Lemma max_mtime_own ms own : (own <= max_mtime ms own)%Z.
Proof. induction ms as [|m ms IH]; simpl; lia. Qed.

Lemma max_mtime_elem ms own m : m ∈ ms -> (m <= max_mtime ms own)%Z.
Proof.
  induction ms as [|m' ms IH]; [by intros ?%elem_of_nil|].
  intros [->|Hin]%elem_of_cons; simpl; [lia|]. specialize (IH Hin). lia.
Qed.

Lemma max_mtime_attained ms own :
  max_mtime ms own = own \/ max_mtime ms own ∈ ms.
Proof.
  induction ms as [|m ms IH]; [by left|]. simpl.
  destruct (Z.max_spec m (max_mtime ms own)) as [[_ ->]|[_ ->]].
  - destruct IH as [->|Hin]; [by left|]. right. by right.
  - right. by left.
Qed.

(** A file that is no source file has no macro-dependencies. *)
Lemma leaf_closure path m :
  is_source _stdlib_sourcefile_paths path = false ->
  stat path = Ok m -> closure_max path m.
Proof.
  intros Hleaf Hstat.
  assert (Honly : forall q, rtc dep path q -> q = path).
  { intros q Hq. destruct Hq as [|x y z [Hsrc _] _]; [done|congruence]. }
  split.
  - exists path. split; [apply rtc_refl|done].
  - intros q ->%Honly. exists m. split; [done|lia].
Qed.


Lemma load_imports_spec path z st imports rel st1 :
  consistent st -> stat path = Ok z ->
  load_imports parse_body ismacroimport dont_write_bytecode cache_writable path z st
    = Ok (imports, rel, st1) ->
  exists body,
    parse_body path = Ok body /\
    imports = macro_and_dialect_imports ismacroimport body /\
    rel = existsb is_relative imports /\
    _xstats_cache st1 = _xstats_cache st /\
    consistent st1.
Proof.
  intros Hcons Hstat. unfold load_imports.
  assert (Hparse : forall r,
    obind (parse_body path) (fun body =>
      let mi := filter (fun s => ismacroimport s "macros" = true) body in
      let di := filter (fun s => ismacroimport s "dialects" = true) body in
      let rel := existsb is_relative (mi ++ di) in
      Ok (mi ++ di, rel,
          if negb dont_write_bytecode && cache_writable path
          then IState (_xstats_cache st)
                      (<[path := CacheData z mi di rel]> (importcache st))
          else st)) = Ok r ->
    exists body,
      parse_body path = Ok body /\
      r.1.1 = macro_and_dialect_imports ismacroimport body /\
      r.1.2 = existsb is_relative r.1.1 /\
      _xstats_cache r.2 = _xstats_cache st /\
      consistent r.2).
  { intros r (body & Hbody & Hr)%obind_Ok. injection Hr as <-. simpl.
    exists body. repeat (split; [done|]).
    destruct (negb dont_write_bytecode && cache_writable path); [|done].
    split; [done|]. intros p d. simpl.
    destruct (decide (p = path)) as [->|Hne].
    - rewrite lookup_insert_eq. intros [= <-] _. simpl. by exists body.
    - rewrite lookup_insert_ne by done. apply Hcons. }
  destruct (importcache st !! path) as [data|] eqn:Hdata.
  - case_bool_decide as Hvalid.
    + intros [= <- <- <-].
      destruct (Hcons path data Hdata) as (body & Hbody & Hmi & Hdi & Hrel);
        [by rewrite Hvalid|].
      exists body. split; [done|]. unfold macro_and_dialect_imports.
      rewrite Hmi, Hdi. repeat (split; [done|]). done.
    + intros H. destruct (Hparse _ H) as (body & ? & ? & ? & ? & ?). by exists body.
  - intros H. destruct (Hparse _ H) as (body & ? & ? & ? & ? & ?). by exists body.
Qed.

Section Loop.

Variable rec : string -> istate -> outcome (Z * istate).
Hypothesis rec_ok : forall origin st m st',
  sound st -> consistent st -> rec origin st = Ok (m, st') ->
  closure_max origin m /\ sound st' /\ consistent st'.

Lemma collect_mtimes_spec path package imports : forall mtimes st mtimes' st',
  sound st -> consistent st ->
  collect_mtimes resolve_name find_spec rec path package imports mtimes st
    = Ok (mtimes', st') ->
  sound st' /\ consistent st' /\
  exists ms,
    mtimes' = mtimes ++ ms /\
    (forall m, m ∈ ms ->
       exists macroimport origin,
         macroimport ∈ imports /\
         origin_of resolve_name find_spec path package macroimport = Ok (Some (Some origin)) /\
         closure_max origin m) /\
    (forall macroimport origin,
       macroimport ∈ imports ->
       origin_of resolve_name find_spec path package macroimport = Ok (Some (Some origin)) ->
       exists m, m ∈ ms /\ closure_max origin m).
Proof.
  induction imports as [|i rest IH]; intros mtimes st mtimes' st' Hsound Hcons; simpl.
  - intros [= <- <-]. repeat (split; [done|]). exists []. rewrite app_nil_r.
    split; [done|]. split; [by intros m ?%elem_of_nil|by intros ? ? ?%elem_of_nil].
  - intros (spec & Hspec & H)%obind_Ok.
    destruct spec as [[origin|]|]; [|discriminate|].
    + apply obind_Ok in H as ([m st1] & Hrec & H).
      destruct (rec_ok _ _ _ _ Hsound Hcons Hrec) as (Hm & Hsound1 & Hcons1).
      destruct (IH _ _ _ _ Hsound1 Hcons1 H) as (Hs & Hc & ms & -> & Hfrom & Hall).
      repeat (split; [done|]). exists (m :: ms). rewrite <- app_assoc. split; [done|].
      split.
      * intros m' [->|Hin]%elem_of_cons.
        -- exists i, origin. split; [by left|done].
        -- destruct (Hfrom m' Hin) as (i' & o' & ? & ? & ?).
           exists i', o'. split; [by right|done].
      * intros i' o' [->|Hin]%elem_of_cons Ho'.
        -- rewrite Hspec in Ho'. injection Ho' as <-. exists m. split; [by left|done].
        -- destruct (Hall i' o' Hin Ho') as (m' & ? & ?). exists m'. split; [by right|done].
    + destruct (IH _ _ _ _ Hsound Hcons H) as (Hs & Hc & ms & -> & Hfrom & Hall).
      repeat (split; [done|]). exists ms. split; [done|]. split.
      * intros m' Hin. destruct (Hfrom m' Hin) as (i' & o' & ? & ? & ?).
        exists i', o'. split; [by right|done].
      * intros i' o' [->|Hin]%elem_of_cons Ho'; [congruence|]. exact (Hall i' o' Hin Ho').
Qed.

Lemma path_xstats_body_spec path st m st' :
  sound st -> consistent st ->
  path_xstats_body _stdlib_sourcefile_paths stat parse_body ismacroimport
    resolve_package resolve_name find_spec dont_write_bytecode cache_writable
    rec path st = Ok (m, st') ->
  closure_max path m /\ sound st' /\ consistent st'.
Proof.
  intros Hsound Hcons. unfold path_xstats_body.
  destruct (bool_decide (path ∈ _stdlib_sourcefile_paths) || negb (endswith path ".py"))
    eqn:Hleaf.
  - intros (z & Hz & [= <- <-])%obind_Ok. split; [|done].
    apply leaf_closure; [|done]. unfold is_source. by rewrite Hleaf.
  - destruct (_xstats_cache st !! path) as [r|] eqn:Hhit.
    + intros [= <- <-]. split; [by apply Hsound|done].
    + intros (own & Hown & H)%obind_Ok.
      apply obind_Ok in H as ([[imports rel] st1] & Hload & H).
      apply obind_Ok in H as (package & Hpackage & H).
      apply obind_Ok in H as ([mtimes st2] & Hloop & H).
      injection H as <- <-.
      destruct (load_imports_spec _ _ _ _ _ _ Hcons Hown Hload)
        as (body & Hbody & -> & -> & Hcache1 & Hcons1).
      assert (Hsound1 : sound st1).
      { intros p r. rewrite Hcache1. apply Hsound. }
      destruct (collect_mtimes_spec _ _ _ _ _ _ _ Hsound1 Hcons1 Hloop)
        as (Hsound2 & Hcons2 & ms & Hms & Hfrom & Hall).
      simpl in Hms. subst mtimes.
      assert (Hsrc : is_source _stdlib_sourcefile_paths path = true).
      { unfold is_source. by rewrite Hleaf. }
      assert (Hdep : forall macroimport origin,
                 macroimport ∈ macro_and_dialect_imports ismacroimport body ->
                 origin_of resolve_name find_spec path package macroimport
                   = Ok (Some (Some origin)) -> dep path origin).
      { intros i o Hi Ho. split; [done|]. by exists body, package, i. }
      assert (Hmax : closure_max path (max_mtime ms own)).
      { split.
        - destruct (max_mtime_attained ms own) as [->|Hin].
          + exists path. split; [apply rtc_refl|done].
          + destruct (Hfrom _ Hin) as (i & o & Hi & Ho & [(q & Hq & Hstat) _]).
            exists q. split; [|done]. eapply rtc_l; [by eapply Hdep|done].
        - intros q Hq. destruct Hq as [|x y z Hxy Hyz].
          + exists own. split; [done|]. apply max_mtime_own.
          + destruct Hxy as [_ (body' & package' & i & Hbody' & Hpackage' & Hi & Ho)].
            rewrite Hbody in Hbody'. injection Hbody' as <-.
            rewrite Hpackage in Hpackage'. injection Hpackage' as <-.
            destruct (Hall i y Hi Ho) as (m & Hm & [_ Hbound]).
            destruct (Hbound z Hyz) as (zq & Hzq & Hle).
            exists zq. split; [done|]. pose proof (max_mtime_elem ms own m Hm). lia. }
      split; [done|]. split; [|done].
      intros p r. simpl. destruct (decide (p = path)) as [->|Hne].
      * rewrite lookup_insert_eq. by intros [= <-].
      * rewrite lookup_insert_ne by done. apply Hsound2.
Qed.

End Loop.

Lemma path_xstats_spec fuel : forall path st m st',
  sound st -> consistent st -> xstats fuel path st = Ok (m, st') ->
  closure_max path m /\ sound st' /\ consistent st'.
Proof.
  induction fuel as [|fuel IH]; intros path st m st' Hsound Hcons; [discriminate|].
  simpl. apply path_xstats_body_spec; [|done|done].
  intros origin st0 m0 st0' Hs Hc Hrec. by apply (IH origin st0).
Qed.


(** *** Termination on acyclic macro-dependencies *)

Lemma load_imports_total path z st :
  consistent st -> stat path = Ok z ->
  (exists body, parse_body path = Ok body) ->
  exists r, load_imports parse_body ismacroimport dont_write_bytecode cache_writable
              path z st = Ok r.
Proof.
  intros Hcons Hstat [body Hbody]. unfold load_imports.
  destruct (importcache st !! path) as [data|]; [case_bool_decide|];
    rewrite ?Hbody; simpl; eauto.
Qed.

Lemma collect_mtimes_total rec path package imports :
  (forall origin st m st',
      sound st -> consistent st -> rec origin st = Ok (m, st') ->
      closure_max origin m /\ sound st' /\ consistent st') ->
  (forall macroimport,
      macroimport ∈ imports ->
      exists spec,
        origin_of resolve_name find_spec path package macroimport = Ok spec /\
        spec <> Some None /\
        forall origin, spec = Some (Some origin) ->
          forall st, sound st -> consistent st -> exists r, rec origin st = Ok r) ->
  forall mtimes st, sound st -> consistent st ->
  exists r, collect_mtimes resolve_name find_spec rec path package imports mtimes st = Ok r.
Proof.
  intros Hok. induction imports as [|i rest IH]; intros Himports mtimes st Hsound Hcons.
  - simpl. eauto.
  - simpl. destruct (Himports i) as (spec & -> & Hspec & Hrec); [by left|]. simpl.
    assert (Hrest : forall macroimport, macroimport ∈ rest ->
              exists spec,
                origin_of resolve_name find_spec path package macroimport = Ok spec /\
                spec <> Some None /\
                forall origin, spec = Some (Some origin) ->
                  forall st, sound st -> consistent st -> exists r, rec origin st = Ok r).
    { intros j Hj. apply Himports. by right. }
    destruct spec as [[origin|]|]; [|done|].
    + destruct (Hrec origin eq_refl st Hsound Hcons) as [[m st1] Hrun].
      rewrite Hrun. simpl.
      destruct (Hok _ _ _ _ Hsound Hcons Hrun) as (_ & Hsound1 & Hcons1).
      by apply IH.
    + by apply IH.
Qed.

Lemma path_xstats_total (rank : string -> nat) fuel : forall path st,
  sound st -> consistent st ->
  (forall q, rtc dep path q -> well q) ->
  (forall p origin, rtc dep path p -> dep p origin -> rank origin < rank p) ->
  rank path < fuel ->
  exists r, xstats fuel path st = Ok r.
Proof.
  induction fuel as [|fuel IH]; intros path st Hsound Hcons Hwell Hrank Hfuel; [lia|].
  destruct (Hwell path (rtc_refl _ _)) as [[own Hown] Hsrc].
  simpl. unfold path_xstats_body.
  destruct (bool_decide (path ∈ _stdlib_sourcefile_paths) || negb (endswith path ".py"))
    eqn:Hleaf.
  { unfold _stdlib_path_stats. rewrite Hown. simpl. eauto. }
  destruct (_xstats_cache st !! path) as [r|]; [eauto|].
  rewrite Hown. simpl.
  destruct Hsrc as (body & package & Hbody & Hpackage & Himports);
    [unfold is_source; by rewrite Hleaf|].
  destruct (load_imports_total path own st Hcons Hown (ex_intro _ body Hbody))
    as [[[imports rel] st1] Hload].
  rewrite Hload. simpl.
  destruct (load_imports_spec _ _ _ _ _ _ Hcons Hown Hload)
    as (body' & Hbody' & -> & -> & Hcache1 & Hcons1).
  rewrite Hbody in Hbody'. injection Hbody' as <-.
  rewrite Hpackage. simpl.
  assert (Hsound1 : sound st1).
  { intros p r. rewrite Hcache1. apply Hsound. }
  destruct (collect_mtimes_total (xstats fuel) path package
              (macro_and_dialect_imports ismacroimport body)) with (mtimes := @nil Z) (st := st1)
    as [[mtimes st2] Hloop]; [| |done|done|].
  - intros origin st0 m st0'. apply path_xstats_spec.
  - intros i Hi. destruct (Himports i Hi) as (spec & Hspec & Hnone).
    exists spec. split; [done|]. split; [done|].
    intros origin -> st0 Hs0 Hc0.
    assert (Hdep : dep path origin).
    { split; [unfold is_source; by rewrite Hleaf|]. by exists body, package, i. }
    apply IH; [done|done| | |].
    + intros q Hq. apply Hwell. by eapply rtc_l.
    + intros p o Hp Hpo. apply Hrank; [|done]. by eapply rtc_l.
    + specialize (Hrank path origin (rtc_refl _ _) Hdep). lia.
  - rewrite Hloop. simpl. eauto.
Qed.


(** Caches that are empty, as after [invalidate_xcaches] on a system
    without cache files, hold nothing wrong. *)
Lemma empty_caches_sound :
  sound (IState ∅ ∅) /\ consistent (IState ∅ ∅).
Proof. split; intros p x; simpl; by rewrite lookup_empty. Qed.

End ImporterFacts.


(** ** Statement splicing *)

(** C10, where the code departs from it: for a template passed as a
    single node, [body] is overwritten with [[template]] before anything
    is spliced, so the result does not depend on the statements that were
    to be spliced in. *)
Theorem single_node_template_ignores_body
    (next_oid fuel : nat) (body body' template : Splicing.obj) (tag : string) :
  Splicing.is_node template = true ->
  Splicing.splice_statements next_oid fuel body template tag
  = Splicing.splice_statements next_oid fuel body' template tag.
Proof.
  intros Htemplate. unfold Splicing.splice_statements. by rewrite Htemplate.
Qed.

(** A run of C10: for the single-statement template the body [[pass]]
    gives the same result as an empty body. *)
Lemma single_node_template_ignores_body_witness :
  Splicing.splice_statements 100 4 (Splicing.OList [pass_statement]) if_template
    "__paste_here__"
  = Splicing.splice_statements 100 4 (Splicing.OList []) if_template "__paste_here__".
Proof.
  exact (single_node_template_ignores_body 100 4 (Splicing.OList [pass_statement])
           (Splicing.OList []) if_template "__paste_here__" eq_refl).
Defined.

(** At [if c: <paste> <paste>] with the body [[pass]]: the first
    indicator is replaced by the template object itself (object 1, now
    inside object 1), the second by a copy of the template, and the
    statement [pass] (object 50) is nowhere in the result. *)
Lemma single_node_template_splices_itself :
  Splicing.splice_statements 100 4 (Splicing.OList [pass_statement]) if_template
    "__paste_here__"
  = Ok (Splicing.ONode 1 "If"
          [("test", Splicing.ONode 2 "Name" [("id", Splicing.OStr "c")]);
           ("body", Splicing.OList [if_template; Splicing.deepcopy 100 if_template]);
           ("orelse", Splicing.OList [])]) /\
  forall result,
    Splicing.splice_statements 100 4 (Splicing.OList [pass_statement]) if_template
      "__paste_here__" = Ok result ->
    50 ∉ Splicing.oids result.
Proof.
  split; [vm_compute; reflexivity|].
  intros result Hresult. vm_compute in Hresult. injection Hresult as <-. compute_done.
Qed.

(** The behaviour C10 describes, which the code shows when the template
    is a list: the first indicator is replaced by the statements of
    [body] themselves (object 50), the second by a deep copy (object
    150). *)
Lemma list_template_splices_body_then_copy :
  Splicing.splice_statements 100 5 (Splicing.OList [pass_statement]) list_template
    "__paste_here__"
  = Ok (Splicing.OList
          [Splicing.ONode 1 "If"
             [("test", Splicing.ONode 2 "Name" [("id", Splicing.OStr "c")]);
              ("body", Splicing.OList [pass_statement; Splicing.ONode 150 "Pass" []]);
              ("orelse", Splicing.OList [])]]).
Proof. vm_compute. reflexivity. Qed.

(** *** Templates given as a list: no object is spliced in twice *)
Section ListTemplates.
Import Splicing.

Lemma obj_ind' (P : obj -> Prop) :
  (forall oid cls fields, Forall (fun p => P (snd p)) fields -> P (ONode oid cls fields)) ->
  (forall items, Forall P items -> P (OList items)) ->
  (forall s, P (OStr s)) -> (forall z, P (OInt z)) -> P ONone ->
  forall t, P t.
Proof.
  intros HNode HList HStr HInt HNone. fix IH 1. intros [oid cls fields|items|s|z|].
  - apply HNode. induction fields as [|[f v] rest IHf]; constructor; [apply IH|apply IHf].
  - apply HList. induction items as [|v rest IHi]; constructor; [apply IH|apply IHi].
  - apply HStr.
  - apply HInt.
  - apply HNone.
Qed.

(** A deep copy carries the identities of the original, moved up by
    [base]. *)
Lemma oids_deepcopy base t : oids (deepcopy base t) = map (Nat.add base) (oids t).
Proof.
  induction t as [oid cls fields IH|items IH|s|z|] using obj_ind'; simpl; try reflexivity.
  - f_equal. induction fields as [|[f v] rest IHf]; [reflexivity|].
    simpl. rewrite map_app. inversion IH as [|? ? Hv Hrest]; subst. simpl in Hv.
    by rewrite Hv, IHf.
  - induction items as [|v rest IHi]; [reflexivity|].
    simpl. rewrite map_app. inversion IH as [|? ? Hv Hrest]; subst.
    by rewrite Hv, IHi.
Qed.

Variable body : obj.
Variable tag : string.
Hypothesis body_NoDup : NoDup (oids body).

Lemma advances_refl st : advances st st.
Proof. by split. Qed.

Lemma advances_trans st st1 st2 : advances st st1 -> advances st1 st2 -> advances st st2.
Proof. intros [H1 F1] [H2 F2]. split; [lia|auto]. Qed.

Lemma provenance_l src1 src2 st st1 st2 i :
  advances st1 st2 -> provenance body src1 st st1 i -> provenance body (src1 ++ src2) st st2 i.
Proof.
  intros [Hn Hf] [Hi|[(Hi & Hf0 & Hf1)|[Hlo Hhi]]].
  - left. apply elem_of_app. by left.
  - right. left. auto.
  - right. right. split; lia.
Qed.

Lemma provenance_r src1 src2 st st1 st2 i :
  advances st st1 -> provenance body src2 st1 st2 i -> provenance body (src1 ++ src2) st st2 i.
Proof.
  intros [Hn Hf] [Hi|[(Hi & Hf0 & Hf1)|[Hlo Hhi]]].
  - left. apply elem_of_app. by right.
  - right. left. split; [done|]. split; [|done].
    destruct (first st); [done|]. by rewrite Hf in Hf0.
  - right. right. split; lia.
Qed.

(** Outputs of two consecutive walks over disjoint trees are disjoint. *)
Lemma consecutive_outputs_disjoint src1 src2 o1 o2 st st1 st2 :
  separate body (src1 ++ src2) st ->
  advances st st1 -> advances st1 st2 ->
  (forall i, i ∈ o1 -> provenance body src1 st st1 i) ->
  (forall i, i ∈ o2 -> provenance body src2 st1 st2 i) ->
  NoDup o1 -> NoDup o2 -> NoDup (o1 ++ o2).
Proof.
  intros (Hnd & Hsrc & Hbody) [Hn1 Hf1] [Hn2 Hf2] H1 H2 Hd1 Hd2.
  apply NoDup_app. split; [done|]. split; [|done].
  intros i Hi1 Hi2.
  apply NoDup_app in Hnd as (_ & Hdisj & _).
  assert (Hs1 : forall j, j ∈ src1 -> (j ∉ oids body) /\ j < next st).
  { intros j Hj. apply Hsrc. apply elem_of_app. by left. }
  assert (Hs2 : forall j, j ∈ src2 -> (j ∉ oids body) /\ j < next st).
  { intros j Hj. apply Hsrc. apply elem_of_app. by right. }
  destruct (H1 i Hi1) as [Ha|[(Ha & Ha0 & Ha1)|[Ha Ha']]];
    destruct (H2 i Hi2) as [Hb|[(Hb & Hb0 & Hb1)|[Hb Hb']]].
  - by apply (Hdisj i).
  - by destruct (Hs1 i Ha).
  - destruct (Hs1 i Ha). lia.
  - by destruct (Hs2 i Hb).
  - congruence.
  - specialize (Hbody i Ha). lia.
  - destruct (Hs2 i Hb). lia.
  - specialize (Hbody i Hb). lia.
  - lia.
Qed.

Lemma separate_l src1 src2 st : separate body (src1 ++ src2) st -> separate body src1 st.
Proof.
  intros (Hnd & Hsrc & Hbody). apply NoDup_app in Hnd as (Hnd & _ & _).
  split; [done|]. split; [|done]. intros i Hi. apply Hsrc. apply elem_of_app. by left.
Qed.

Lemma separate_r src1 src2 st st1 :
  advances st st1 -> separate body (src1 ++ src2) st -> separate body src2 st1.
Proof.
  intros [Hn _] (Hnd & Hsrc & Hbody). apply NoDup_app in Hnd as (_ & _ & Hnd).
  split; [done|]. split.
  - intros i Hi. destruct (Hsrc i) as [? ?]; [apply elem_of_app; by right|]. split; [done|lia].
  - intros i Hi. specialize (Hbody i Hi). lia.
Qed.

Lemma NoDup_map_add base (l : list nat) : NoDup l -> NoDup (map (Nat.add base) l).
Proof.
  induction 1 as [|x l Hx Hl IH]; simpl; constructor; [|done].
  intros Hin. apply Hx. apply list_elem_of_In in Hin. apply in_map_iff in Hin as (y & Hy & Hin).
  apply list_elem_of_In in Hin. by replace x with y by lia.
Qed.

Section Walk.
Variable visit : obj -> sstate -> outcome (obj * sstate).
Hypothesis visit_sound : sound_walk body oids oids visit.

Lemma visit_items_sound :
  sound_walk body (flat_map oids) (flat_map oids) (visit_items visit).
Proof.
  intros items. induction items as [|value rest IH]; intros st rs st' Hrun; simpl in Hrun.
  - injection Hrun as <- <-. split; [apply advances_refl|]. split.
    + intros i Hi. simpl in Hi. by apply elem_of_nil in Hi.
    + intros _. constructor.
  - apply obind_Ok in Hrun as ([new st1] & Hhead & Hrun).
    apply obind_Ok in Hrun as ([rest' st2] & Hrest & Hrun).
    injection Hrun as <- <-.
    assert (Hh : advances st st1 /\
                 (forall i, i ∈ flat_map oids new -> provenance body (oids value) st st1 i) /\
                 (separate body (oids value) st -> NoDup (flat_map oids new))).
    { destruct (is_node value) eqn:Hnode.
      - apply obind_Ok in Hhead as ([r st1'] & Hvis & Hhead).
        destruct (visit_sound _ _ _ _ Hvis) as (Ha & Hp & Hn).
        destruct r; try discriminate; injection Hhead as <- <-; simpl;
          rewrite ?app_nil_r; by split.
      - injection Hhead as <- <-. simpl. rewrite app_nil_r.
        split; [apply advances_refl|]. split; [intros i Hi; by left|by intros (Hnd & _)]. }
    destruct Hh as (Ha1 & Hp1 & Hn1). destruct (IH _ _ _ Hrest) as (Ha2 & Hp2 & Hn2).
    simpl. rewrite flat_map_app. split; [by eapply advances_trans|]. split.
    + intros i [Hi|Hi]%elem_of_app.
      * eapply provenance_l; eauto.
      * eapply provenance_r; eauto.
    + intros Hsep. eapply consecutive_outputs_disjoint; eauto using separate_l, separate_r.
Qed.

Lemma visit_fields_sound :
  sound_walk body (flat_map (fun p => oids (snd p))) (flat_map (fun p => oids (snd p)))
    (visit_fields visit).
Proof.
  intros fields. induction fields as [|[f old_value] rest IH]; intros st rs st' Hrun;
    simpl in Hrun.
  - injection Hrun as <- <-. split; [apply advances_refl|]. split.
    + intros i Hi. simpl in Hi. by apply elem_of_nil in Hi.
    + intros _. constructor.
  - apply obind_Ok in Hrun as ([new st1] & Hhead & Hrun).
    apply obind_Ok in Hrun as ([rest' st2] & Hrest & Hrun).
    injection Hrun as <- <-.
    assert (Hh : advances st st1 /\
                 (forall i, i ∈ flat_map (fun p => oids (snd p)) new ->
                            provenance body (oids old_value) st st1 i) /\
                 (separate body (oids old_value) st ->
                  NoDup (flat_map (fun p => oids (snd p)) new))).
    { destruct old_value as [oid cls fs|items|s|z|].
      - apply obind_Ok in Hhead as ([r st1'] & Hvis & Hhead).
        destruct (visit_sound _ _ _ _ Hvis) as (Ha & Hp & Hn).
        destruct r; injection Hhead as <- <-; simpl; rewrite ?app_nil_r; by split.
      - apply obind_Ok in Hhead as ([items' st1'] & Hvis & Hhead).
        destruct (visit_items_sound _ _ _ _ Hvis) as (Ha & Hp & Hn).
        injection Hhead as <- <-. simpl. rewrite app_nil_r. by split.
      - injection Hhead as <- <-. simpl.
        split; [apply advances_refl|]. split; [intros i Hi; by left|intros _; constructor].
      - injection Hhead as <- <-. simpl.
        split; [apply advances_refl|]. split; [intros i Hi; by left|intros _; constructor].
      - injection Hhead as <- <-. simpl.
        split; [apply advances_refl|]. split; [intros i Hi; by left|intros _; constructor]. }
    destruct Hh as (Ha1 & Hp1 & Hn1). destruct (IH _ _ _ Hrest) as (Ha2 & Hp2 & Hn2).
    simpl. rewrite flat_map_app. split; [by eapply advances_trans|]. split.
    + intros i [Hi|Hi]%elem_of_app.
      * eapply provenance_l; eauto.
      * eapply provenance_r; eauto.
    + intros Hsep. eapply consecutive_outputs_disjoint; eauto using separate_l, separate_r.
Qed.

Lemma generic_visit_sound : sound_walk body oids oids (generic_visit visit).
Proof.
  intros [oid cls fields|items|s|z|] st r st' Hrun; try discriminate. simpl in Hrun.
  apply obind_Ok in Hrun as ([fields' st1] & Hfields & Hrun).
  injection Hrun as <- <-.
  destruct (visit_fields_sound _ _ _ _ Hfields) as (Ha & Hp & Hn).
  split; [done|]. simpl. split.
  - intros i [->|Hi]%elem_of_cons; [left; by left|].
    apply (provenance_r [oid] _ st st st1); [apply advances_refl|by apply Hp].
  - intros Hsep. constructor.
    + intros Hin. destruct Hsep as (Hnd & Hsrc & Hbody).
      destruct (Hsrc oid) as [Hnotbody Hlt]; [by left|].
      destruct (Hp oid Hin) as [Hi|[(Hi & _)|[Hlo _]]].
      * by inversion Hnd.
      * done.
      * lia.
    + apply Hn. apply (separate_r [oid] _ st st); [apply advances_refl|done].
Qed.

Lemma transform_sound : sound_walk body oids oids (transform body tag visit).
Proof.
  intros tree st r st' Hrun. unfold transform in Hrun.
  destruct (ispastehere tag tree); [|by apply generic_visit_sound].
  destruct (first st) eqn:Hfirst; simpl in Hrun; injection Hrun as <- <-.
  - split; [split; simpl; [lia|done]|]. split.
    + intros i Hi. right. left. by split.
    + by intros _.
  - split; [split; simpl; [lia|done]|]. split.
    + intros i Hi. right. right. rewrite oids_deepcopy in Hi.
      apply list_elem_of_In, in_map_iff in Hi as (b & <- & Hb). simpl.
      assert (b <= list_max (oids body)); [|lia].
      pose proof (proj1 (list_max_le (oids body) (list_max (oids body))) (le_n _)) as Hall.
      rewrite List.Forall_forall in Hall. by apply Hall.
    + intros _. rewrite oids_deepcopy. by apply NoDup_map_add.
Qed.

Lemma visit_body_sound : sound_walk body oids oids (visit_body body tag visit).
Proof.
  intros tree st r st' Hrun.
  destruct tree as [oid cls fields|items|s|z|];
    try (by apply transform_sound).
  simpl in Hrun. apply obind_Ok in Hrun as ([items' st1] & Hitems & Hrun).
  injection Hrun as <- <-. by apply visit_items_sound.
Qed.

End Walk.

Lemma visit_sound fuel : sound_walk body oids oids (visit body tag fuel).
Proof.
  induction fuel as [|fuel IH]; [intros t st r st' Hrun; discriminate|].
  by apply visit_body_sound.
Qed.

End ListTemplates.

(** X3: for a template given as a list, where body and template are
    separate trees: no object occurs twice in the result, so every
    occurrence of the indicator gets statements of its own, and every
    object of the result is one of the template, one of the body, or a
    copy made by the call. *)
Theorem list_template_result_shares_no_object
    (next_oid fuel : nat) (body template : Splicing.obj) (tag : string)
    (result : Splicing.obj) :
  Splicing.is_node template = false ->
  NoDup (Splicing.oids template ++ Splicing.oids body) ->
  Forall (fun i => i < next_oid) (Splicing.oids template ++ Splicing.oids body) ->
  Splicing.splice_statements next_oid fuel body template tag = Ok result ->
  NoDup (Splicing.oids result) /\
  forall i, i ∈ Splicing.oids result ->
    i ∈ Splicing.oids template \/ i ∈ Splicing.oids body \/ next_oid <= i.
Proof.
  intros Htemplate Hnd Hlt Hrun. unfold Splicing.splice_statements in Hrun.
  rewrite Htemplate in Hrun.
  set (stmts := if Splicing.is_node body then Splicing.OList [body] else body) in Hrun.
  assert (Hstmts : Splicing.oids stmts = Splicing.oids body).
  { unfold stmts. destruct (Splicing.is_node body); [|done]. simpl. by rewrite app_nil_r. }
  apply NoDup_app in Hnd as (Hndt & Hdisj & Hndb).
  rewrite Forall_app, !Forall_forall in Hlt. destruct Hlt as [Hltt Hltb].
  destruct (Splicing.falsy stmts); [discriminate|].
  destruct (Splicing.falsy template).
  { injection Hrun as <-. rewrite Hstmts. split; [done|]. intros i Hi. right. by left. }
  destruct (Splicing.visit stmts tag fuel template (Splicing.SState true next_oid))
    as [[r st']| |] eqn:Hvisit; try discriminate.
  injection Hrun as <-.
  assert (Hbody : NoDup (Splicing.oids stmts)) by (by rewrite Hstmts).
  destruct (visit_sound stmts tag Hbody fuel _ _ _ _ Hvisit) as (Ha & Hp & Hn).
  split.
  - apply Hn. split; [done|]. rewrite Hstmts. simpl. split; [|done].
    intros i Hi. split; [by apply Hdisj|by apply Hltt].
  - intros i Hi. destruct (Hp i Hi) as [Hsrc|[(Hb & _)|[Hlo _]]].
    + by left.
    + right. left. by rewrite <- Hstmts.
    + right. by right.
Qed.

(** A run of it: [if c: <paste> <paste>] as a list template, with the
    body [[pass]]. *)
Lemma list_template_result_shares_no_object_witness :
  NoDup (Splicing.oids
           (Splicing.OList
              [Splicing.ONode 1 "If"
                 [("test", Splicing.ONode 2 "Name" [("id", Splicing.OStr "c")]);
                  ("body", Splicing.OList [pass_statement; Splicing.ONode 150 "Pass" []]);
                  ("orelse", Splicing.OList [])]])).
Proof.
  refine (proj1 (list_template_result_shares_no_object 100 5 (Splicing.OList [pass_statement])
                   list_template "__paste_here__" _ eq_refl _ _ _)).
  - compute_done.
  - compute_done.
  - vm_compute. reflexivity.
Defined.

(** ** One-layer expansion ([visit_once]) *)
Section OneLayer.
Import PyAst Expander.

Variable located : string -> bool.
Variable bindings : gmap string macro.

Lemma safe_ret {A} (a : A) st : recursive st = false -> one_layer_safe (ret a) st.
Proof. intros Hrec. split; [done|]. by intros ? ? [= _ <-]. Qed.

Lemma safe_raise {A} e st : one_layer_safe (@raise A e) st.
Proof. split; [done|]. intros ? ? H. discriminate. Qed.

Lemma safe_bind {A B} (m : M A) (k : A -> M B) st :
  one_layer_safe m st ->
  (forall a st1, m st = Ok (a, st1) -> recursive st1 = false -> one_layer_safe (k a) st1) ->
  one_layer_safe (bind m k) st.
Proof.
  intros [Hfuel Hrec] Hk. unfold one_layer_safe, bind.
  destruct (m st) as [[a st1]| |]; [|by split|done].
  apply Hk; [done|]. by eapply Hrec.
Qed.

Lemma safe_lift {A} (o : outcome A) st :
  o <> OutOfFuel -> recursive st = false -> one_layer_safe (lift o) st.
Proof.
  intros Ho Hrec. unfold one_layer_safe, lift. destruct o; [|by split|done].
  split; [done|]. by intros ? ? [= _ <-].
Qed.

Lemma getattr_ends t f : getattr t f <> OutOfFuel.
Proof.
  unfold getattr. destruct t; try done. by destruct (assoc f fields).
Qed.

Lemma first_item_ends items : first_item items <> OutOfFuel.
Proof. destruct items as [| [|i rest] | | |]; done. Qed.

(** With the flag off the output of a macro is not visited. *)
Lemma safe_visit_expanded_nodes v target ns : forall st,
  recursive st = false -> one_layer_safe (visit_expanded_nodes located v target ns) st.
Proof.
  induction ns as [|n rest IH]; intros st Hrec; simpl; [by apply safe_ret|].
  apply safe_bind.
  - unfold visit_expanded_node. destruct (is_node n); [|apply safe_raise].
    unfold one_layer_safe, bind, get_recursive. rewrite Hrec.
    split; [done|]. by intros ? ? [= _ <-].
  - intros n' st1 _ Hrec1. apply safe_bind; [by apply IH|].
    intros rest' st2 _ Hrec2. by apply safe_ret.
Qed.

Lemma safe_expand v syn target macroname tree st :
  recursive st = false ->
  one_layer_safe (expand located bindings v syn target macroname tree) st.
Proof.
  intros Hrec. unfold expand. destruct (bindings !! macroname) as [m|]; [|apply safe_raise].
  apply safe_bind.
  - split; [done|]. by intros ? ? [= _ <-].
  - intros _ st1 _ Hrec1. unfold _visit_expansion.
    destruct (macro_fn m syn tree) as [? ? ? ?|ns| | |]; try apply safe_raise.
    + unfold visit_expanded_node. simpl.
      unfold one_layer_safe, bind, get_recursive. rewrite Hrec1.
      split; [done|]. by intros ? ? [= _ <-].
    + apply safe_bind; [by apply safe_visit_expanded_nodes|].
      intros ns' st2 _ Hrec2. by apply safe_ret.
    + by apply safe_ret.
Qed.

Section Children.

(** [v] ends on every tree of depth below [d]. *)
Variable v : ast -> M ast.
Variable d : nat.
Hypothesis v_safe :
  forall t st, depth t < d -> recursive st = false -> one_layer_safe (v t) st.

Lemma safe_visit_items items : forall st,
  (forall x, x ∈ items -> depth x < d) -> recursive st = false ->
  one_layer_safe (visit_items v items) st.
Proof.
  induction items as [|value rest IH]; intros st Hd Hrec; simpl; [by apply safe_ret|].
  apply safe_bind.
  - destruct (is_node value); [|by apply safe_ret].
    apply safe_bind; [apply v_safe; [apply Hd; by left|done]|].
    intros r st1 _ Hrec1. destruct r; try apply safe_raise; by apply safe_ret.
  - intros new st1 _ Hrec1. apply safe_bind.
    + apply IH; [|done]. intros x Hx. apply Hd. by right.
    + intros rest' st2 _ Hrec2. by apply safe_ret.
Qed.

Lemma safe_visit_fields fields : forall st,
  (forall f x, (f, x) ∈ fields -> depth x < d) -> recursive st = false ->
  one_layer_safe (visit_fields v fields) st.
Proof.
  induction fields as [|[f old_value] rest IH]; intros st Hd Hrec; simpl;
    [by apply safe_ret|].
  apply safe_bind.
  - assert (Hold : depth old_value < d) by (apply (Hd f); by left).
    destruct old_value as [cls fs l c|items| | |]; try by apply safe_ret.
    + apply safe_bind; [by apply v_safe|].
      intros r st1 _ Hrec1. destruct r; by apply safe_ret.
    + apply safe_bind.
      * apply safe_visit_items; [|done]. intros x Hx.
        pose proof (depth_item x items Hx). lia.
      * intros items' st1 _ Hrec1. by apply safe_ret.
  - intros new st1 _ Hrec1. apply safe_bind.
    + apply IH; [|done]. intros g x Hx. apply (Hd g). by right.
    + intros rest' st2 _ Hrec2. by apply safe_ret.
Qed.

Lemma safe_generic_visit t st :
  depth t <= d -> recursive st = false -> one_layer_safe (generic_visit v t) st.
Proof.
  intros Hd Hrec. unfold generic_visit.
  destruct t as [cls fields l c| | | |]; try apply safe_raise.
  apply safe_bind.
  - apply safe_visit_fields; [|done]. intros f x Hx.
    pose proof (depth_field f x cls fields l c Hx). lia.
  - intros fields' st1 _ Hrec1. by apply safe_ret.
Qed.

Lemma safe_run_decorator_macros decorated todo : forall new_tree executed st,
  recursive st = false ->
  one_layer_safe
    (run_decorator_macros located bindings v decorated todo new_tree executed) st.
Proof.
  induction todo as [|m rest IH]; intros new_tree executed st Hrec; simpl;
    [by apply safe_ret|].
  destruct (name_id m) as [macroname|]; [|apply safe_raise].
  apply safe_bind; [by apply safe_expand|].
  intros r st1 _ Hrec1. destruct r; first [by apply IH | by apply safe_ret].
Qed.

Lemma set_assoc_elem f w fields g x :
  (g, x) ∈ set_assoc f w fields -> (g, x) ∈ fields \/ x = w.
Proof.
  induction fields as [|[h y] rest IH]; simpl.
  - intros [= _ ->]%list_elem_of_singleton. by right.
  - case_bool_decide.
    + intros [[= _ ->]|Hin]%elem_of_cons; [by right|]. left. by right.
    + intros [[= -> ->]|Hin]%elem_of_cons; [left; by left|].
      destruct (IH Hin) as [Hr|Hr]; [left; by right|by right].
Qed.

Lemma depth_sublist xs ys :
  (forall x, x ∈ xs -> x ∈ ys) -> depth (PyList xs) <= depth (PyList ys).
Proof.
  intros Hsub. simpl. apply le_n_S. apply list_max_le.
  apply List.Forall_forall. intros n Hn. apply in_map_iff in Hn as (x & <- & Hx).
  pose proof (proj1 (list_max_le (map depth ys) (list_max (map depth ys))) (le_n _)) as Hall.
  rewrite List.Forall_forall in Hall. apply Hall. apply in_map.
  apply list_elem_of_In. apply Hsub. by apply list_elem_of_In.
Qed.

Lemma safe_visit_Decorated t st :
  depth t <= d -> recursive st = false ->
  one_layer_safe (_visit_Decorated located bindings v t) st.
Proof.
  intros Hd Hrec. unfold _visit_Decorated.
  apply safe_bind; [apply safe_lift; [apply getattr_ends|done]|].
  intros decorator_list st1 Hget Hrec1.
  unfold lift in Hget. destruct (getattr t "decorator_list") as [dl| |] eqn:Hattr;
    try discriminate. injection Hget as <- <-.
  destruct dl as [|ds| | |]; try apply safe_raise.
  destruct (_detect_decorator_macros bindings ds) as [macros others] eqn:Hdetect.
  destruct macros as [|m macros].
  - destruct t as [cls fields l c| | | |]; try discriminate. simpl.
    apply safe_bind.
    + apply safe_visit_fields; [|done]. intros f x Hx.
      simpl in Hattr. destruct (assoc "decorator_list" fields) as [dl|] eqn:Hassoc;
        [|discriminate]. injection Hattr as ->.
      pose proof (depth_field _ _ cls fields l c (assoc_elem _ _ _ Hassoc)) as Hds.
      apply set_assoc_elem in Hx as [Hx| ->].
      * pose proof (depth_field f x cls fields l c Hx). lia.
      * pose proof (depth_sublist others ds
                      (proj2 (detect_elem bindings ds [] others Hdetect))). lia.
    + intros fields' st2 _ Hrec2. by apply safe_ret.
  - apply safe_bind; [by apply safe_run_decorator_macros|].
    intros [new_tree executed] st2 _ Hrec2. by apply safe_ret.
Qed.

Lemma safe_visit_Name t st :
  depth t <= d -> recursive st = false ->
  one_layer_safe (visit_Name located bindings v t) st.
Proof.
  intros Hd Hrec. unfold visit_Name.
  apply safe_bind; [apply safe_lift; [apply getattr_ends|done]|].
  intros id st1 _ Hrec1.
  destruct id as [| |macroname| |]; try by apply safe_generic_visit.
  destruct (bindings !! macroname) as [m|]; [|by apply safe_generic_visit].
  destruct (isnamemacro m); [|by apply safe_generic_visit].
  apply safe_bind; [split; [done|by intros ? ? [= _ <-]]|].
  intros oldrec st2 [= <- <-] _.
  apply safe_bind; [split; [done|by intros ? ? [= _ <-]]|].
  intros _ st3 _ Hrec3.
  apply safe_bind; [by apply safe_expand|].
  intros new_tree st4 _ Hrec4.
  apply safe_bind; [split; [done|intros ? ? [= _ <-]; exact Hrec1]|].
  intros _ st5 _ Hrec5.
  apply safe_bind; [split; [done|by intros ? ? [= _ <-]]|].
  intros r st6 [= <- <-] _. rewrite Hrec5. by apply safe_ret.
Qed.

Lemma safe_dispatch t st :
  depth t <= d -> recursive st = false ->
  one_layer_safe (dispatch located bindings v t) st.
Proof.
  intros Hd Hrec. unfold dispatch.
  destruct t as [cls fields l c| | | |]; try by apply safe_generic_visit.
  repeat case_bool_decide.
  - unfold visit_Subscript.
    apply safe_bind; [apply safe_lift; [apply getattr_ends|done]|].
    intros rootdir st1 _ Hrec1. destruct (bound_name bindings rootdir).
    + apply safe_bind; [apply safe_lift; [apply getattr_ends|done]|].
      intros slice st2 _ Hrec2.
      apply safe_bind; [apply safe_lift; [apply getattr_ends|done]|].
      intros tree st3 _ Hrec3. by apply safe_expand.
    + by apply safe_generic_visit.
  - unfold visit_With.
    apply safe_bind; [apply safe_lift; [apply getattr_ends|done]|].
    intros items st1 _ Hrec1.
    apply safe_bind; [apply safe_lift; [apply first_item_ends|done]|].
    intros with_item st2 _ Hrec2.
    apply safe_bind; [apply safe_lift; [apply getattr_ends|done]|].
    intros rootdir st3 _ Hrec3. destruct (bound_name bindings rootdir).
    + apply safe_bind; [apply safe_lift; [apply getattr_ends|done]|].
      intros tree st4 _ Hrec4.
      apply safe_bind; [apply safe_lift; [apply getattr_ends|done]|].
      intros optional_vars st5 _ Hrec5.
      apply safe_bind; [by apply safe_expand|].
      intros new_tree st6 _ Hrec6. by apply safe_ret.
    + by apply safe_generic_visit.
  - by apply safe_visit_Decorated.
  - by apply safe_visit_Decorated.
  - by apply safe_visit_Name.
  - by apply safe_ret.
  - by apply safe_generic_visit.
Qed.

End Children.

Lemma safe_visit fuel : forall t st,
  depth t < fuel -> recursive st = false ->
  one_layer_safe (visit located bindings fuel t) st.
Proof.
  induction fuel as [|fuel IH]; intros t st Hd Hrec; [lia|].
  simpl. unfold visit_body. case_bool_decide; [by apply safe_ret|].
  apply (safe_dispatch _ fuel IH); [lia|done].
Qed.

End OneLayer.

(** X4: [visit_once] always comes to an end: on a tree of depth below
    [fuel] it returns or raises, whatever the macros return (in recursive
    mode a macro whose output invokes it again keeps the expander going
    for ever), and when it returns, [self.recursive] is what it was
    before the call. *)
Theorem visit_once_ends
    (located : string -> bool) (bindings : gmap string Expander.macro)
    (fuel : nat) (tree : PyAst.ast) (st : Expander.xstate) :
  PyAst.depth tree < fuel ->
  Expander.visit_once located bindings fuel tree st <> OutOfFuel /\
  forall result st',
    Expander.visit_once located bindings fuel tree st = Ok (result, st') ->
    Expander.recursive st' = Expander.recursive st.
Proof.
  intros Hd.
  destruct (safe_visit located bindings fuel tree
              (Expander.XState false (Expander.calls st)) Hd eq_refl) as [Hends Hoff].
  unfold Expander.visit_once, Expander.bind, Expander.get_recursive,
    Expander.set_recursive, Expander.ret.
  destruct (Expander.visit located bindings fuel tree
              (Expander.XState false (Expander.calls st))) as [[r st1]| |];
    [|split; [done|intros ? ? ?; discriminate]|congruence].
  split; [done|]. by intros ? ? [= _ <-].
Qed.

(** A run of X4, on the invocation [again[21]] of a macro whose output
    invokes it again. *)
Lemma visit_once_ends_witness :
  Expander.visit_once PyAst.py38_located {["again" := again_macro]} 4
    (sample_subscript "again" 1 0) Expander.initial <> OutOfFuel /\
  forall result st',
    Expander.visit_once PyAst.py38_located {["again" := again_macro]} 4
      (sample_subscript "again" 1 0) Expander.initial = Ok (result, st') ->
    Expander.recursive st' = Expander.recursive Expander.initial.
Proof.
  apply (visit_once_ends PyAst.py38_located {["again" := again_macro]} 4
           (sample_subscript "again" 1 0) Expander.initial).
  vm_compute. lia.
Defined.

(** The output of [again], once expanded, is an invocation of [again]
    wherever it is placed. *)
Lemma again_output_invokes_again located tree target :
  invokes_again (Expander.once_expanded located (again_output tree) target) = true.
Proof.
  unfold Expander.once_expanded, again_output, PyAst.copy_location,
    PyAst.fix_missing_locations.
  destruct target as [tcls tfs tl tc| | | |]; simpl;
    repeat match goal with |- context [if ?b then _ else _] => destruct b end;
    reflexivity.
Qed.

(** In recursive mode the same invocation keeps the expander going for
    ever: no amount of fuel is enough. *)
Lemma again_never_ends located fuel : forall t st,
  invokes_again t = true -> Expander.recursive st = true ->
  Expander.visit located {["again" := again_macro]} fuel t st = OutOfFuel.
Proof.
  induction fuel as [|fuel IH]; intros t st Ht Hrec; [reflexivity|].
  destruct t as [cls fields l c| | | |]; try discriminate. simpl in Ht.
  apply andb_prop in Ht as [[Hcls%bool_decide_eq_true Hvalue]%andb_prop Hslice].
  subst cls.
  destruct (PyAst.assoc "value" fields) as [rootdir|] eqn:Hroot; [|discriminate].
  apply bool_decide_eq_true in Hvalue.
  destruct (PyAst.assoc "slice" fields) as [[scls sfields sl sc| | | |]|] eqn:Hsl;
    try discriminate.
  apply bool_decide_eq_true in Hslice as [tree Htree].
  simpl. unfold Expander.visit_body. case_bool_decide as Hempty.
  { apply (f_equal (fun m => m !! "again")) in Hempty.
    by rewrite lookup_singleton_eq, lookup_empty in Hempty. }
  simpl. unfold Expander.visit_Subscript, Expander.bind, Expander.lift. simpl.
  rewrite Hroot. unfold Expander.bound_name. rewrite Hvalue.
  unfold Expander.ismacroname. rewrite lookup_singleton_eq. simpl.
  rewrite Hsl. simpl. rewrite Htree.
  unfold Expander.expand. rewrite lookup_singleton_eq.
  unfold Expander.bind, Expander.log_call. simpl.
  unfold Expander.visit_expanded_node, Expander.bind, Expander.get_recursive. simpl.
  rewrite Hrec. apply IH; [|done].
  apply (again_output_invokes_again located tree
           (PyAst.Node "Subscript" fields l c)).
Qed.

(** ** The macro collector *)
Section CollectorFacts.
Import PyAst Collector.

Variable bindings : gmap string Expander.macro.

Local Abbreviation plain := (Expander.no_invocation bindings).

Section Quiet.

(** [v] adds nothing on a tree that holds no invocation. *)
Variable v : ast -> collected -> outcome collected.
Hypothesis v_quiet : forall t c c', plain t = true -> v t c = Ok c' -> c' = c.

Lemma visit_each_quiet nodes : forall c c',
  (forall n, n ∈ nodes -> plain n = true) ->
  visit_each v nodes c = Ok c' -> c' = c.
Proof.
  induction nodes as [|n rest IH]; intros c c' Hplain; simpl; [congruence|].
  intros (c1 & Hn & Hrest)%obind_Ok.
  apply v_quiet in Hn as ->; [|apply Hplain; by left].
  apply IH in Hrest; [done|]. intros m Hm. apply Hplain. by right.
Qed.

Lemma visit_items_quiet items : forall c c',
  (forall n, n ∈ items -> plain n = true) ->
  visit_items v items c = Ok c' -> c' = c.
Proof.
  induction items as [|n rest IH]; intros c c' Hplain; simpl; [congruence|].
  intros (c1 & Hn & Hrest)%obind_Ok.
  assert (c1 = c) as ->.
  { destruct (is_node n); [|congruence]. apply v_quiet in Hn; [done|].
    apply Hplain. by left. }
  apply IH in Hrest; [done|]. intros m Hm. apply Hplain. by right.
Qed.

Lemma visit_fields_quiet fields : forall c c',
  (forall f x, (f, x) ∈ fields -> plain x = true) ->
  visit_fields v fields c = Ok c' -> c' = c.
Proof.
  induction fields as [|[f x] rest IH]; intros c c' Hplain; simpl; [congruence|].
  intros (c1 & Hx & Hrest)%obind_Ok.
  assert (Hpx : plain x = true) by (apply (Hplain f); by left).
  assert (c1 = c) as ->.
  { destruct x as [cls fs l o|items| | |]; try congruence.
    - by apply v_quiet in Hx.
    - apply visit_items_quiet in Hx; [done|].
      intros n Hn. by apply (all_nodes_item _ items). }
  apply IH in Hrest; [done|]. intros g y Hy. apply (Hplain g). by right.
Qed.

Lemma visit_decorated_fields_quiet fields : forall c c',
  (forall f x, (f, x) ∈ fields -> plain x = true) ->
  visit_decorated_fields v fields c = Ok c' -> c' = c.
Proof.
  induction fields as [|[f x] rest IH]; intros c c' Hplain; simpl; [congruence|].
  intros (c1 & Hx & Hrest)%obind_Ok.
  assert (Hpx : plain x = true) by (apply (Hplain f); by left).
  assert (c1 = c) as ->.
  { case_bool_decide; [congruence|].
    destruct x as [cls fs l o|items| | |]; try congruence.
    - by apply v_quiet in Hx.
    - apply visit_each_quiet in Hx; [done|].
      intros n Hn. by apply (all_nodes_item _ items). }
  apply IH in Hrest; [done|]. intros g y Hy. apply (Hplain g). by right.
Qed.

Lemma generic_visit_quiet t c c' :
  plain t = true -> generic_visit v t c = Ok c' -> c' = c.
Proof.
  destruct t as [cls fields l o| | | |]; try discriminate. intros Hplain.
  apply visit_fields_quiet. intros f x Hx. by apply (all_nodes_field _ cls fields l o f).
Qed.

Lemma getattr_plain t f x : plain t = true -> getattr t f = Ok x -> plain x = true.
Proof.
  destruct t as [cls fields l o| | | |]; try discriminate. simpl getattr.
  destruct (assoc f fields) as [y|] eqn:Hy; [|discriminate].
  intros Hplain [= <-]. apply (all_nodes_field _ cls fields l o f); [done|].
  by apply assoc_elem.
Qed.

Lemma visit_body_quiet t c c' :
  plain t = true -> visit_body bindings v t c = Ok c' -> c' = c.
Proof.
  intros Hplain. unfold visit_body.
  destruct t as [cls fields l o| | | |]; try by apply generic_visit_quiet.
  pose proof (all_nodes_here _ _ _ _ _ Hplain) as Hhere.
  apply negb_true_iff in Hhere. unfold Expander.is_invocation in Hhere.
  destruct (bool_decide (cls = "Subscript")) eqn:ESubscript;
    [|destruct (bool_decide (cls = "With")) eqn:EWith;
      [|destruct (bool_decide (cls = "ClassDef")) eqn:EClassDef;
        [|destruct (bool_decide (cls = "FunctionDef")) eqn:EFunctionDef;
          [|destruct (bool_decide (cls = "Name")) eqn:EName]]]];
    simpl in Hhere.
  - unfold visit_Subscript. intros (rootdir & Hroot & H)%obind_Ok.
    apply obind_Ok in H as (slice & Hslice & H).
    apply obind_Ok in H as (tree & Htree & H).
    simpl in Hroot. destruct (assoc "value" fields); [|discriminate].
    injection Hroot as ->. unfold collect_bound in H.
    rewrite (not_bound_name _ _ Hhere) in H.
    apply v_quiet in H; [done|].
    eapply getattr_plain; [|exact Htree]. by eapply getattr_plain.
  - unfold visit_With. intros (items & Hitems & H)%obind_Ok.
    apply obind_Ok in H as (with_item & Hitem & H).
    apply obind_Ok in H as (rootdir & Hroot & H).
    apply obind_Ok in H as (body & Hbody & H).
    simpl in Hitems. destruct (assoc "items" fields) as [its|]; [|discriminate].
    injection Hitems as ->.
    destruct items as [|[|with_item' rest]| | |]; try discriminate.
    injection Hitem as ->.
    destruct with_item as [icls ifields il io| | | |]; try discriminate.
    simpl in Hroot. destruct (assoc "context_expr" ifields); [|discriminate].
    injection Hroot as ->. unfold collect_bound in H.
    rewrite (not_bound_name _ _ Hhere) in H.
    apply v_quiet in H; [done|]. by eapply getattr_plain.
  - unfold _visit_Decorated. intros (dl & Hdl & H)%obind_Ok.
    pose proof (getattr_plain _ _ _ Hplain Hdl) as Hpdl.
    simpl in Hdl. destruct (assoc "decorator_list" fields); [|discriminate].
    injection Hdl as ->. destruct dl as [|ds| | |]; try discriminate.
    rewrite (detect_no_macros _ _ Hhere) in H. simpl in H.
    apply obind_Ok in H as (c1 & Heach & H).
    apply visit_each_quiet in Heach as ->;
      [|intros n Hn; by apply (all_nodes_item _ ds)].
    apply visit_decorated_fields_quiet in H; [done|].
    intros f x Hx. by apply (all_nodes_field _ cls fields l o f).
  - unfold _visit_Decorated. intros (dl & Hdl & H)%obind_Ok.
    pose proof (getattr_plain _ _ _ Hplain Hdl) as Hpdl.
    simpl in Hdl. destruct (assoc "decorator_list" fields); [|discriminate].
    injection Hdl as ->. destruct dl as [|ds| | |]; try discriminate.
    rewrite (detect_no_macros _ _ Hhere) in H. simpl in H.
    apply obind_Ok in H as (c1 & Heach & H).
    apply visit_each_quiet in Heach as ->;
      [|intros n Hn; by apply (all_nodes_item _ ds)].
    apply visit_decorated_fields_quiet in H; [done|].
    intros f x Hx. by apply (all_nodes_field _ cls fields l o f).
  - unfold visit_Name. intros (id & Hid & H)%obind_Ok.
    simpl in Hid. destruct (assoc "id" fields) as [i|]; [|discriminate].
    injection Hid as ->.
    apply generic_visit_quiet in H; [|done]. rewrite H.
    destruct id as [| |macroname| |]; try done.
    destruct (bindings !! macroname) as [m|]; [|done]. by rewrite Hhere.
  - by apply generic_visit_quiet.
Qed.

End Quiet.

Lemma visit_quiet fuel : forall t c c',
  plain t = true -> visit bindings fuel t c = Ok c' -> c' = c.
Proof.
  induction fuel as [|fuel IH]; intros t c c' Hplain; [discriminate|].
  simpl. by apply visit_body_quiet.
Qed.

Local Abbreviation good := (reports_bound bindings).

Lemma bound_name_bound d id :
  Expander.bound_name bindings d = Some id -> exists m, bindings !! id = Some m.
Proof.
  unfold Expander.bound_name, Expander.ismacroname.
  destruct (name_id d) as [i|]; [|discriminate]. case_bool_decide as Hb; [|discriminate].
  intros [= <-]. exact Hb.
Qed.

Lemma collect_bound_good rootdir syntax c :
  syntax ∈ ["expr"; "block"; "decorator"; "name"] -> syntax <> "name" -> good c ->
  good (collect_bound bindings rootdir syntax c).
Proof.
  intros Hsyn Hnot Hc. unfold collect_bound.
  destruct (Expander.bound_name bindings rootdir) as [id|] eqn:Hid; [|done].
  intros n s [Hin|Hin]%elem_of_union; [|by apply Hc].
  apply elem_of_singleton in Hin as [= -> ->].
  destruct (bound_name_bound _ _ Hid) as [m Hm]. exists m. by split.
Qed.

Section Sound.

Variable v : ast -> collected -> outcome collected.
Hypothesis v_good : forall t c c', good c -> v t c = Ok c' -> good c'.

Lemma visit_each_good nodes : forall c c',
  good c -> visit_each v nodes c = Ok c' -> good c'.
Proof.
  induction nodes as [|n rest IH]; intros c c' Hc; simpl; [by intros [= <-]|].
  intros (c1 & Hn & Hrest)%obind_Ok. eapply IH; [|exact Hrest]. by eapply v_good.
Qed.

Lemma visit_items_good items : forall c c',
  good c -> visit_items v items c = Ok c' -> good c'.
Proof.
  induction items as [|n rest IH]; intros c c' Hc; simpl; [by intros [= <-]|].
  intros (c1 & Hn & Hrest)%obind_Ok. eapply IH; [|exact Hrest].
  destruct (is_node n); [by eapply v_good|by injection Hn as <-].
Qed.

Lemma visit_fields_good fields : forall c c',
  good c -> visit_fields v fields c = Ok c' -> good c'.
Proof.
  induction fields as [|[f x] rest IH]; intros c c' Hc; simpl; [by intros [= <-]|].
  intros (c1 & Hx & Hrest)%obind_Ok. eapply IH; [|exact Hrest].
  destruct x as [cls fs l o|items| | |]; try by injection Hx as <-.
  - by eapply v_good.
  - by eapply visit_items_good.
Qed.

Lemma visit_decorated_fields_good fields : forall c c',
  good c -> visit_decorated_fields v fields c = Ok c' -> good c'.
Proof.
  induction fields as [|[f x] rest IH]; intros c c' Hc; simpl; [by intros [= <-]|].
  intros (c1 & Hx & Hrest)%obind_Ok. eapply IH; [|exact Hrest].
  case_bool_decide; [by injection Hx as <-|].
  destruct x as [cls fs l o|items| | |]; try by injection Hx as <-.
  - by eapply v_good.
  - by eapply visit_each_good.
Qed.

Lemma generic_visit_good t c c' :
  good c -> generic_visit v t c = Ok c' -> good c'.
Proof.
  destruct t as [cls fields l o| | | |]; try discriminate. apply visit_fields_good.
Qed.

Lemma collect_decorators_good macros : forall c c',
  (forall m, m ∈ macros -> is_Some (Expander.bound_name bindings m)) ->
  good c -> collect_decorators macros c = Ok c' -> good c'.
Proof.
  induction macros as [|m rest IH]; intros c c' Hms Hc; simpl; [by intros [= <-]|].
  destruct (Hms m) as [id Hid]; [by left|].
  assert (Hname : name_id m = Some id).
  { unfold Expander.bound_name in Hid. destruct (name_id m); [|discriminate].
    by destruct (Expander.ismacroname bindings s); [injection Hid as ->|]. }
  rewrite Hname. apply IH; [intros k Hk; apply Hms; by right|].
  intros n s [Hin|Hin]%elem_of_union; [|by apply Hc].
  apply elem_of_singleton in Hin as [= -> ->].
  destruct (bound_name_bound _ _ Hid) as [mf Hmf]. exists mf. split; [done|]. split.
  - compute_done.
  - discriminate.
Qed.

Lemma detect_macros_bound ds : forall macros others,
  Expander._detect_decorator_macros bindings ds = (macros, others) ->
  forall m, m ∈ macros -> is_Some (Expander.bound_name bindings m).
Proof.
  induction ds as [|d rest IH]; intros macros others; simpl.
  - intros [= <- <-] m Hm. by apply elem_of_nil in Hm.
  - destruct (Expander._detect_decorator_macros bindings rest) as [ms os].
    destruct (Expander.bound_name bindings d) as [id|] eqn:Hd; intros [= <- <-] m Hm.
    + apply elem_of_cons in Hm as [->|Hm]; [by eexists|]. by eapply IH.
    + by eapply IH.
Qed.

Lemma visit_body_good t c c' :
  good c -> visit_body bindings v t c = Ok c' -> good c'.
Proof.
  intros Hc. unfold visit_body.
  destruct t as [cls fields l o| | | |]; try by apply generic_visit_good.
  destruct (bool_decide (cls = "Subscript"));
    [|destruct (bool_decide (cls = "With"));
      [|destruct (bool_decide (cls = "ClassDef") || bool_decide (cls = "FunctionDef"))
          eqn:EDef]].
  - unfold visit_Subscript. intros (rootdir & Hroot & H)%obind_Ok.
    apply obind_Ok in H as (slice & Hslice & H).
    apply obind_Ok in H as (tree & Htree & H).
    eapply v_good; [|exact H]. by apply collect_bound_good; [compute_done| |].
  - unfold visit_With. intros (items & Hitems & H)%obind_Ok.
    apply obind_Ok in H as (with_item & Hitem & H).
    apply obind_Ok in H as (rootdir & Hroot & H).
    apply obind_Ok in H as (body & Hbody & H).
    eapply v_good; [|exact H]. by apply collect_bound_good; [compute_done| |].
  - assert (Hdec : _visit_Decorated bindings v (Node cls fields l o) c = Ok c' -> good c').
    { unfold _visit_Decorated. intros (dl & Hdl & H)%obind_Ok.
      destruct dl as [|ds| | |]; try discriminate.
      destruct (Expander._detect_decorator_macros bindings ds) as [macros decorators]
        eqn:Hdetect.
      apply obind_Ok in H as (c1 & Hmacros & H).
      apply obind_Ok in H as (c2 & Heach & H).
      eapply visit_decorated_fields_good; [|exact H].
      eapply visit_each_good; [|exact Heach].
      eapply collect_decorators_good; [|exact Hc|exact Hmacros].
      by eapply detect_macros_bound. }
    destruct (bool_decide (cls = "ClassDef")); [done|].
    destruct (bool_decide (cls = "FunctionDef")); [done|discriminate].
  - apply orb_false_elim in EDef as [-> ->].
    destruct (bool_decide (cls = "Name")); [|by apply generic_visit_good].
    unfold visit_Name. intros (id & Hid & H)%obind_Ok.
    eapply generic_visit_good; [|exact H].
    destruct id as [| |macroname| |]; try done.
    destruct (bindings !! macroname) as [m|] eqn:Hm; [|done].
    destruct (Expander.isnamemacro m) eqn:Hnm; [|done].
    intros n s [Hin|Hin]%elem_of_union; [|by apply Hc].
    apply elem_of_singleton in Hin as [= -> ->].
    exists m. split; [done|]. split; [compute_done|done].
Qed.

End Sound.

Lemma visit_good fuel : forall t c c',
  good c -> visit bindings fuel t c = Ok c' -> good c'.
Proof.
  induction fuel as [|fuel IH]; intros t c c' Hc; [discriminate|].
  simpl. by apply visit_body_good.
Qed.

End CollectorFacts.

(** X5: whatever [MacroCollector] collects from a tree is the name of a
    macro bound in the expander, under one of the four syntaxes, and a
    name is reported as an identifier macro only when its macro function
    was declared with [namemacro]; on a tree that holds no invocation
    nothing is collected. *)
Theorem collector_reports_bound_macros_only
    (bindings : gmap string Expander.macro) (fuel : nat) (tree : PyAst.ast)
    (c : Collector.collected) :
  Collector.collect bindings fuel tree = Ok c ->
  Collector.reports_bound bindings c /\
  (Expander.no_invocation bindings tree = true -> c = ∅).
Proof.
  unfold Collector.collect. intros Hrun. split.
  - eapply visit_good; [|exact Hrun]. intros n s Hin. by apply elem_of_empty in Hin.
  - intros Hplain. by eapply visit_quiet.
Qed.

(** A run of X5: from the module [double[21]] the collector reports the
    expression macro [double], which is bound. *)
Lemma collector_reports_bound_macros_only_witness :
  Collector.reports_bound {["double" := double_macro]} {[ ("double", "expr") ]}.
Proof.
  assert (Hrun : Collector.collect {["double" := double_macro]} 7
                   (sample_module (sample_subscript "double" 1 0))
                 = Ok {[ ("double", "expr") ]}) by (vm_compute; reflexivity).
  exact (proj1 (collector_reports_bound_macros_only {["double" := double_macro]} 7
                  (sample_module (sample_subscript "double" 1 0))
                  {[ ("double", "expr") ]} Hrun)).
Defined.

(** X6: the collector cannot scan a [with] statement.  [visit_With] ends
    with [self.visit(withstmt.body)], and the body is a list, for which
    [ast.NodeVisitor.visit] finds no [_fields]: whatever the bindings and
    whatever the block holds, the visit raises [AttributeError]. *)
Theorem collector_raises_on_with_statement
    (bindings : gmap string Expander.macro) (fuel : nat)
    (fields : list (string * PyAst.ast)) (l o : option Z)
    (with_item rootdir : PyAst.ast) (rest body : list PyAst.ast)
    (c : Collector.collected) :
  PyAst.assoc "items" fields = Some (PyAst.PyList (with_item :: rest)) ->
  PyAst.getattr with_item "context_expr" = Ok rootdir ->
  PyAst.assoc "body" fields = Some (PyAst.PyList body) ->
  Collector.visit bindings (S (S fuel)) (PyAst.Node "With" fields l o) c
  = Raise (AttributeError "_fields").
Proof.
  intros Hitems Hroot Hbody.
  change (Collector.visit bindings (S (S fuel)) (PyAst.Node "With" fields l o) c)
    with (Collector.visit_With bindings (Collector.visit bindings (S fuel))
            (PyAst.Node "With" fields l o) c).
  unfold Collector.visit_With. simpl PyAst.getattr. rewrite Hitems. simpl.
  rewrite Hroot. simpl. rewrite Hbody. reflexivity.
Qed.

(** A run of X6, on [with open(f): pass] and no macro bound. *)
Lemma collector_raises_on_with_statement_witness :
  Collector.visit ∅ 2 sample_with ∅ = Raise (AttributeError "_fields").
Proof.
  unfold sample_with. eapply collector_raises_on_with_statement; reflexivity.
Defined.

(** X7: the collector reads [subscript.slice.value] of every subscript,
    macro invocation or not, so a subscript whose slice has no [value]
    (a slicing [xs[i:j]], whose slice is a [Slice] node) makes the visit
    raise [AttributeError]. *)
Theorem collector_raises_on_slice_without_value
    (bindings : gmap string Expander.macro) (fuel : nat)
    (fields : list (string * PyAst.ast)) (l o : option Z)
    (rootdir slice : PyAst.ast) (c : Collector.collected) :
  PyAst.assoc "value" fields = Some rootdir ->
  PyAst.assoc "slice" fields = Some slice ->
  PyAst.getattr slice "value" = Raise (AttributeError "value") ->
  Collector.visit bindings (S fuel) (PyAst.Node "Subscript" fields l o) c
  = Raise (AttributeError "value").
Proof.
  intros Hvalue Hslice Hnone.
  change (Collector.visit bindings (S fuel) (PyAst.Node "Subscript" fields l o) c)
    with (Collector.visit_Subscript bindings (Collector.visit bindings fuel)
            (PyAst.Node "Subscript" fields l o) c).
  unfold Collector.visit_Subscript. simpl PyAst.getattr. rewrite Hvalue. simpl.
  rewrite Hslice. simpl. by rewrite Hnone.
Qed.

(** A run of X7, on [xs[1:2]]. *)
Lemma collector_raises_on_slice_without_value_witness :
  Collector.visit {["double" := double_macro]} 1 sample_slicing ∅
  = Raise (AttributeError "value").
Proof.
  unfold sample_slicing. eapply collector_raises_on_slice_without_value; reflexivity.
Defined.

(** The collector does not look into the [value] of a subscript: on
    [double[21][0]] it reports nothing, while the expander does expand
    the invocation [double[21]]. *)
Lemma collector_misses_invocation_in_value :
  Collector.collect {["double" := double_macro]} 5 nested_subscript = Ok ∅ /\
  Expander.no_invocation {["double" := double_macro]} nested_subscript = false /\
  exists result st',
    Expander.visit PyAst.py38_located {["double" := double_macro]} 5 nested_subscript
      Expander.initial = Ok (result, st') /\
    Expander.calls st'
      = [Expander.Call "double" Expander.expr
           (PyAst.Node "Constant" [("value", PyAst.PyInt 21)] (Some 1%Z) (Some 7%Z))].
Proof.
  split; [vm_compute; reflexivity|]. split; [vm_compute; reflexivity|].
  eexists _, _. split; [vm_compute; reflexivity|reflexivity].
Qed.

(** ** Coverage dummy nodes *)

(** X8: the coverage dummies compose.  Adding a dummy for each of
    [targets] in turn, all of which carry a line or a column (as
    [_visit_Decorated] does for the macros it executed, innermost first,
    and [visit_With] for the [with] statement), yields a list: the dummies
    in the reverse of that order (for decorators: outermost first, as in
    the source), then the statements of the macro output.  So the result
    is never [None]: where a block or decorator macro returns [None], the
    dummies are what is left of the invocation. *)
Theorem coverage_dummies_compose
    (located : string -> bool) (targets : list PyAst.ast) (tree : PyAst.ast) :
  targets <> [] ->
  Forall (fun t => Expander.has_lineno t || Expander.has_col_offset t = true) targets ->
  fold_left (Expander._add_coverage_dummy_node located) targets tree
  = PyAst.PyList (map (Expander.coverage_dummy located) (rev targets)
                  ++ Expander.statements_of tree).
Proof.
  intros Hne Hall.
  assert (Hstep : forall t tree0,
            Expander.has_lineno t || Expander.has_col_offset t = true ->
            Expander._add_coverage_dummy_node located tree0 t
            = PyAst.PyList (Expander.coverage_dummy located t :: Expander.statements_of tree0)).
  { intros t tree0 Ht. unfold Expander._add_coverage_dummy_node.
    destruct (Expander.has_lineno t), (Expander.has_col_offset t); try discriminate;
      simpl; by destruct tree0. }
  assert (Hlist : forall ts items,
            Forall (fun t => Expander.has_lineno t || Expander.has_col_offset t = true) ts ->
            fold_left (Expander._add_coverage_dummy_node located) ts (PyAst.PyList items)
            = PyAst.PyList (map (Expander.coverage_dummy located) (rev ts) ++ items)).
  { induction ts as [|t ts IH]; intros items Hts; [reflexivity|].
    inversion Hts as [|? ? Ht Hrest]; subst. simpl.
    rewrite (Hstep t _ Ht). simpl. rewrite (IH _ Hrest).
    by rewrite map_app, <- app_assoc. }
  destruct targets as [|t ts]; [done|].
  inversion Hall as [|? ? Ht Hrest]; subst. simpl.
  rewrite (Hstep t _ Ht), (Hlist _ _ Hrest).
  by rewrite map_app, <- app_assoc.
Qed.

(** A run of X8: the two decorators of [@A @B def f(): pass], executed
    innermost first, where the inner macro returned [None]. *)
Lemma coverage_dummies_compose_witness :
  fold_left (Expander._add_coverage_dummy_node PyAst.py38_located)
    [identifier "B" "Load" (Some 2%Z) (Some 1%Z);
     identifier "A" "Load" (Some 1%Z) (Some 1%Z)] PyAst.PyNone
  = PyAst.PyList
      [Expander.coverage_dummy PyAst.py38_located (identifier "A" "Load" (Some 1%Z) (Some 1%Z));
       Expander.coverage_dummy PyAst.py38_located (identifier "B" "Load" (Some 2%Z) (Some 1%Z))].
Proof.
  apply (coverage_dummies_compose PyAst.py38_located
           [identifier "B" "Load" (Some 2%Z) (Some 1%Z);
            identifier "A" "Load" (Some 1%Z) (Some 1%Z)] PyAst.PyNone).
  - discriminate.
  - repeat constructor.
Defined.

(** ** Statement splicing: templates without indicator, and errors *)
Section SplicingFacts.
Import Splicing.

Lemma height_field f v oid cls fields :
  (f, v) ∈ fields -> height v < height (ONode oid cls fields).
Proof.
  intros Hin. simpl. apply Nat.lt_succ_r.
  pose proof (proj1 (list_max_le (map (fun p => height (snd p)) fields)
                       (list_max (map (fun p => height (snd p)) fields))) (le_n _)) as Hall.
  rewrite List.Forall_forall in Hall. apply Hall.
  apply (in_map (fun p => height (snd p)) fields (f, v)). by apply list_elem_of_In.
Qed.

Lemma height_item i items : i ∈ items -> height i < height (OList items).
Proof.
  intros Hin. simpl. apply Nat.lt_succ_r.
  pose proof (proj1 (list_max_le (map height items) (list_max (map height items)))
                (le_n _)) as Hall.
  rewrite List.Forall_forall in Hall. apply Hall. apply in_map. by apply list_elem_of_In.
Qed.

Variable body : obj.
Variable tag : string.

Section Identity.

(** [v] hands back, without touching the splicer state, every node of
    height below [d] that holds no indicator. *)
Variable v : obj -> sstate -> outcome (obj * sstate).
Variable d : nat.
Hypothesis v_id :
  forall t st, is_node t = true -> height t < d -> no_indicator tag t = true ->
    v t st = Ok (t, st).

Lemma visit_items_id items : forall st,
  (forall i, i ∈ items -> height i < d) ->
  forallb (no_indicator tag) items = true ->
  visit_items v items st = Ok (items, st).
Proof.
  induction items as [|i rest IH]; intros st Hd Hno; [reflexivity|].
  simpl in Hno. apply andb_prop in Hno as [Hi Hrest]. simpl.
  assert (Hhead : (if is_node i
                   then obind (v i st) (fun '(r, st') =>
                          match r with
                          | ONone => Ok ([], st')
                          | ONode _ _ _ => Ok ([r], st')
                          | OList vs => Ok (vs, st')
                          | _ => Raise (TypeError "visit returned a scalar")
                          end)
                   else Ok ([i], st)) = Ok ([i], st)).
  { destruct (is_node i) eqn:Hnode; [|reflexivity].
    rewrite (v_id i st Hnode); [|apply Hd; by left|done]. simpl. by destruct i. }
  rewrite Hhead. simpl. rewrite IH; [reflexivity| |done].
  intros j Hj. apply Hd. by right.
Qed.

Lemma visit_fields_id fields : forall st,
  (forall f x, (f, x) ∈ fields -> height x < d) ->
  forallb (fun p => no_indicator tag (snd p)) fields = true ->
  visit_fields v fields st = Ok (fields, st).
Proof.
  induction fields as [|[f x] rest IH]; intros st Hd Hno; [reflexivity|].
  simpl in Hno. apply andb_prop in Hno as [Hx Hrest]. simpl.
  assert (Hdx : height x < d) by (apply (Hd f); by left).
  assert (Hhead : match x with
                  | OList items =>
                      obind (visit_items v items st) (fun '(items', st') =>
                      Ok ([(f, OList items')], st'))
                  | ONode _ _ _ =>
                      obind (v x st) (fun '(new_node, st') =>
                      match new_node with
                      | ONone => Ok ([], st')
                      | _ => Ok ([(f, new_node)], st')
                      end)
                  | _ => Ok ([(f, x)], st)
                  end = Ok ([(f, x)], st)).
  { destruct x as [oid cls fs|items| | |]; try reflexivity.
    - by rewrite (v_id (ONode oid cls fs) st eq_refl Hdx Hx).
    - rewrite visit_items_id; [reflexivity| |exact Hx].
      intros i Hi. pose proof (height_item i items Hi). lia. }
  rewrite Hhead. simpl. rewrite IH; [reflexivity| |done].
  intros g y Hy. apply (Hd g). by right.
Qed.

Lemma visit_body_id t st :
  is_tree t = true -> height t <= d -> no_indicator tag t = true ->
  visit_body body tag v t st = Ok (t, st).
Proof.
  intros Htree Hd Hno. destruct t as [oid cls fields|items| | |]; try discriminate.
  - change (negb (ispastehere tag (ONode oid cls fields))
            && forallb (fun p => no_indicator tag (snd p)) fields = true) in Hno.
    apply andb_prop in Hno as [Hhere%negb_true_iff Hfields].
    unfold visit_body, transform. rewrite Hhere. unfold generic_visit.
    rewrite visit_fields_id; [reflexivity| |done].
    intros f x Hx. pose proof (height_field f x oid cls fields Hx). lia.
  - simpl. rewrite visit_items_id; [reflexivity| |exact Hno].
    intros i Hi. pose proof (height_item i items Hi). lia.
Qed.

End Identity.

Lemma visit_id fuel : forall t st,
  is_tree t = true -> height t < fuel -> no_indicator tag t = true ->
  visit body tag fuel t st = Ok (t, st).
Proof.
  induction fuel as [|fuel IH]; intros t st Htree Hd Hno; [lia|].
  simpl. apply (visit_body_id _ fuel); [|done|lia|done].
  intros u st0 Hnode Hu Hnou. apply IH; [by destruct u|done|done].
Qed.

Section Total.

(** The statements to splice in are a list. *)
Hypothesis body_list : exists bs, body = OList bs.

(** [v] returns a node or a list for every node of height below [d]. *)
Variable v : obj -> sstate -> outcome (obj * sstate).
Variable d : nat.
Hypothesis v_total :
  forall t st, is_node t = true -> height t < d ->
    exists r st', v t st = Ok (r, st') /\ is_tree r = true.

Lemma visit_items_total items : forall st,
  (forall i, i ∈ items -> height i < d) ->
  exists rs st', visit_items v items st = Ok (rs, st').
Proof.
  induction items as [|i rest IH]; intros st Hd; [by eexists _, _|].
  simpl.
  assert (Hhead : exists new st1,
            (if is_node i
             then obind (v i st) (fun '(r, st') =>
                    match r with
                    | ONone => Ok ([], st')
                    | ONode _ _ _ => Ok ([r], st')
                    | OList vs => Ok (vs, st')
                    | _ => Raise (TypeError "visit returned a scalar")
                    end)
             else Ok ([i], st)) = Ok (new, st1)).
  { destruct (is_node i) eqn:Hnode; [|by eexists _, _].
    destruct (v_total i st Hnode) as (r & st1 & -> & Hr); [apply Hd; by left|].
    simpl. destruct r; try discriminate; by eexists _, _. }
  destruct Hhead as (new & st1 & ->). simpl.
  destruct (IH st1) as (rs & st2 & ->); [intros j Hj; apply Hd; by right|].
  simpl. by eexists _, _.
Qed.

Lemma visit_fields_total fields : forall st,
  (forall f x, (f, x) ∈ fields -> height x < d) ->
  exists fs st', visit_fields v fields st = Ok (fs, st').
Proof.
  induction fields as [|[f x] rest IH]; intros st Hd; [by eexists _, _|].
  simpl.
  assert (Hdx : height x < d) by (apply (Hd f); by left).
  assert (Hhead : exists new st1,
            match x with
            | OList items =>
                obind (visit_items v items st) (fun '(items', st') =>
                Ok ([(f, OList items')], st'))
            | ONode _ _ _ =>
                obind (v x st) (fun '(new_node, st') =>
                match new_node with
                | ONone => Ok ([], st')
                | _ => Ok ([(f, new_node)], st')
                end)
            | _ => Ok ([(f, x)], st)
            end = Ok (new, st1)).
  { destruct x as [oid cls fs|items| | |]; try by eexists _, _.
    - destruct (v_total (ONode oid cls fs) st eq_refl Hdx) as (r & st1 & -> & Hr).
      simpl. destruct r; by eexists _, _.
    - destruct (visit_items_total items st) as (rs & st1 & ->).
      { intros i Hi. pose proof (height_item i items Hi). lia. }
      simpl. by eexists _, _. }
  destruct Hhead as (new & st1 & ->). simpl.
  destruct (IH st1) as (fs & st2 & ->); [intros g y Hy; apply (Hd g); by right|].
  simpl. by eexists _, _.
Qed.

Lemma visit_body_total t st :
  is_tree t = true -> height t <= d ->
  exists r st', visit_body body tag v t st = Ok (r, st') /\ is_tree r = true.
Proof.
  intros Htree Hd. destruct body_list as [bs Hbs].
  destruct t as [oid cls fields|items| | |]; try discriminate.
  - unfold visit_body, transform. destruct (ispastehere tag _).
    + destruct (negb (first st)); subst body; by eexists _, _.
    + simpl. destruct (visit_fields_total fields st) as (fs & st1 & ->).
      { intros f x Hx. pose proof (height_field f x oid cls fields Hx). lia. }
      simpl. by eexists _, _.
  - simpl. destruct (visit_items_total items st) as (rs & st1 & ->).
    { intros i Hi. pose proof (height_item i items Hi). lia. }
    simpl. by eexists _, _.
Qed.

End Total.

Lemma visit_total fuel : forall t st,
  (exists bs, body = OList bs) ->
  is_tree t = true -> height t < fuel ->
  exists r st', visit body tag fuel t st = Ok (r, st') /\ is_tree r = true.
Proof.
  induction fuel as [|fuel IH]; intros t st Hbody Htree Hd; [lia|].
  simpl. apply (visit_body_total Hbody _ fuel); [|done|lia].
  intros u st0 Hnode Hu. apply IH; [done|by destruct u|done].
Qed.

End SplicingFacts.

(** X9: a template that holds no paste-here indicator comes back as it
    is: the statements to splice in are dropped, and nothing is raised,
    although the template is documented as having to contain an
    indicator. *)
Theorem template_without_indicator_is_returned
    (next_oid fuel : nat) (body template : Splicing.obj) (tag : string) :
  Splicing.is_tree template = true ->
  Splicing.falsy template = false ->
  Splicing.falsy body = false ->
  Splicing.no_indicator tag template = true ->
  Splicing.height template < fuel ->
  Splicing.splice_statements next_oid fuel body template tag = Ok template.
Proof.
  intros Htree Htemplate Hbody Hno Hfuel. unfold Splicing.splice_statements.
  rewrite Htemplate.
  set (stmts := if Splicing.is_node template then Splicing.OList [template]
                else if Splicing.is_node body then Splicing.OList [body] else body).
  assert (Hstmts : Splicing.falsy stmts = false).
  { unfold stmts. destruct (Splicing.is_node template); [done|].
    by destruct (Splicing.is_node body). }
  rewrite Hstmts. by rewrite visit_id.
Qed.

(** A run of X9: the template [if c: pass] as a list, with the body
    [[pass]]. *)
Lemma template_without_indicator_is_returned_witness :
  Splicing.splice_statements 100 5 (Splicing.OList [pass_statement])
    (Splicing.OList
       [Splicing.ONode 1 "If"
          [("test", Splicing.ONode 2 "Name" [("id", Splicing.OStr "c")]);
           ("body", Splicing.OList [Splicing.ONode 3 "Pass" []]);
           ("orelse", Splicing.OList [])]])
    "__paste_here__"
  = Ok (Splicing.OList
          [Splicing.ONode 1 "If"
             [("test", Splicing.ONode 2 "Name" [("id", Splicing.OStr "c")]);
              ("body", Splicing.OList [Splicing.ONode 3 "Pass" []]);
              ("orelse", Splicing.OList [])]]).
Proof.
  apply template_without_indicator_is_returned; try reflexivity.
  vm_compute. lia.
Defined.

(** X10: the errors of [splice_statements].  For a body given as a list
    and a template given as a node or a non-empty list, of height below
    [fuel]: the call raises [ValueError] when the body is empty and the
    template is a list, and in every other case it returns; no other
    exception leaves the splicer. *)
Theorem splice_statements_errors
    (next_oid fuel : nat) (bs : list Splicing.obj) (template : Splicing.obj)
    (tag : string) :
  Splicing.is_tree template = true ->
  Splicing.falsy template = false ->
  Splicing.height template < fuel ->
  if negb (Splicing.is_node template) && bool_decide (bs = [])
  then Splicing.splice_statements next_oid fuel (Splicing.OList bs) template tag
       = Raise (ValueError "expected at least one statement in `body`")
  else exists result,
         Splicing.splice_statements next_oid fuel (Splicing.OList bs) template tag
         = Ok result.
Proof.
  intros Htree Htemplate Hfuel. unfold Splicing.splice_statements. simpl.
  destruct (Splicing.is_node template) eqn:Hnode; simpl.
  - rewrite Htemplate.
    destruct (visit_total (Splicing.OList [template]) tag fuel template
                (Splicing.SState true next_oid)) as (r & st' & -> & _);
      [by eexists|done|done|]. by eexists.
  - case_bool_decide as Hbs; [by subst bs|].
    destruct bs as [|b bs]; [done|]. simpl. rewrite Htemplate.
    destruct (visit_total (Splicing.OList (b :: bs)) tag fuel template
                (Splicing.SState true next_oid)) as (r & st' & -> & _);
      [by eexists|done|done|]. by eexists.
Qed.

(** A run of X10: an empty body with the list template
    [if c: <paste> <paste>]. *)
Lemma splice_statements_errors_witness :
  Splicing.splice_statements 100 6 (Splicing.OList []) list_template "__paste_here__"
  = Raise (ValueError "expected at least one statement in `body`").
Proof.
  apply (splice_statements_errors 100 6 [] list_template "__paste_here__");
    try reflexivity.
  vm_compute. lia.
Defined.

(** ** The importer hooks: memoization, and cyclic macro-dependencies *)
Section ImporterMore.
Import Discovery Importer.

Variable _stdlib_sourcefile_paths : gset string.
Variable stat : string -> outcome Z.
Variable parse_body : string -> outcome (list statement).
Variable ismacroimport : statement -> string -> bool.
Variable resolve_package : string -> outcome string.
Variable resolve_name : string -> option string -> outcome string.
Variable find_spec : string -> outcome (option (option string)).
Variable dont_write_bytecode : bool.
Variable cache_writable : string -> bool.

Local Abbreviation dep :=
  (depends _stdlib_sourcefile_paths parse_body ismacroimport resolve_package
     resolve_name find_spec).
Local Abbreviation consistent :=
  (importcache_consistent stat parse_body ismacroimport).
Local Abbreviation xstats :=
  (path_xstats _stdlib_sourcefile_paths stat parse_body ismacroimport
     resolve_package resolve_name find_spec dont_write_bytecode cache_writable).

(** The result for a source file is stored under its path. *)
Lemma path_xstats_stores fuel path st m st' :
  is_source _stdlib_sourcefile_paths path = true ->
  xstats fuel path st = Ok (m, st') ->
  _xstats_cache st' !! path = Some m.
Proof.
  intros Hsrc. destruct fuel as [|fuel]; [discriminate|]. simpl.
  unfold path_xstats_body. unfold is_source in Hsrc.
  apply negb_true_iff in Hsrc. rewrite Hsrc.
  destruct (_xstats_cache st !! path) as [result|] eqn:Hhit.
  - by intros [= <- <-].
  - intros (z & _ & H)%obind_Ok.
    apply obind_Ok in H as ([[imports rel] st1] & _ & H).
    apply obind_Ok in H as (package & _ & H).
    apply obind_Ok in H as ([mtimes st2] & _ & H).
    injection H as <- <-. simpl. by rewrite lookup_insert_eq.
Qed.

Section Cycle.

(** A set of paths that is closed under taking one macro-dependency:
    every member depends on a member. *)
Variable cycle : string -> Prop.
Hypothesis cycle_closed : forall q, cycle q -> exists q', dep q q' /\ cycle q'.

(** No member of the cycle has a cached result, and the cache files are
    right. *)
Definition off_cycle (st : istate) : Prop :=
  (forall p, cycle p -> _xstats_cache st !! p = None) /\ consistent st.

Section Step.

Variable rec : string -> istate -> outcome (Z * istate).
Hypothesis rec_off : forall origin st m st',
  off_cycle st -> rec origin st = Ok (m, st') -> ~ cycle origin /\ off_cycle st'.

Lemma collect_mtimes_off path package imports : forall mtimes st mtimes' st',
  off_cycle st ->
  collect_mtimes resolve_name find_spec rec path package imports mtimes st
    = Ok (mtimes', st') ->
  off_cycle st' /\
  forall macroimport origin,
    macroimport ∈ imports ->
    origin_of resolve_name find_spec path package macroimport = Ok (Some (Some origin)) ->
    ~ cycle origin.
Proof.
  induction imports as [|mi rest IH]; intros mtimes st mtimes' st' Hoff; simpl.
  - intros [= _ <-]. split; [done|]. intros ? ? Hin. by apply elem_of_nil in Hin.
  - intros (spec & Hspec & H)%obind_Ok.
    destruct spec as [[origin|]|]; [|discriminate|].
    + apply obind_Ok in H as ([mtime st1] & Hrec & H).
      destruct (rec_off _ _ _ _ Hoff Hrec) as [Hnot Hoff1].
      destruct (IH _ _ _ _ Hoff1 H) as [Hoff' Hrest]. split; [done|].
      intros mi0 o [->|Hin]%elem_of_cons Ho; [|by eapply Hrest].
      rewrite Hspec in Ho. by injection Ho as <-.
    + destruct (IH _ _ _ _ Hoff H) as [Hoff' Hrest]. split; [done|].
      intros mi0 o [->|Hin]%elem_of_cons Ho; [|by eapply Hrest].
      rewrite Hspec in Ho. discriminate.
Qed.

Lemma path_xstats_body_off path st m st' :
  off_cycle st ->
  path_xstats_body _stdlib_sourcefile_paths stat parse_body ismacroimport resolve_package
    resolve_name find_spec dont_write_bytecode cache_writable rec path st = Ok (m, st') ->
  ~ cycle path /\ off_cycle st'.
Proof.
  intros Hoff. unfold path_xstats_body.
  destruct (bool_decide (path ∈ _stdlib_sourcefile_paths) || negb (endswith path ".py"))
    eqn:Hleaf.
  - intros (z & _ & [= _ <-])%obind_Ok. split; [|done].
    intros (q' & [Hsrc _] & _)%cycle_closed. unfold is_source in Hsrc.
    by rewrite Hleaf in Hsrc.
  - destruct (_xstats_cache st !! path) as [result|] eqn:Hhit.
    + intros [= _ <-]. split; [|done]. intros Hc.
      destruct Hoff as [Hnone _]. by rewrite (Hnone _ Hc) in Hhit.
    + intros (z & Hstat & H)%obind_Ok.
      apply obind_Ok in H as ([[imports rel] st1] & Hload & H).
      apply obind_Ok in H as (package & Hpackage & H).
      apply obind_Ok in H as ([mtimes st2] & Hloop & H).
      injection H as _ <-.
      destruct Hoff as [Hnone Hcons].
      destruct (load_imports_spec stat parse_body ismacroimport dont_write_bytecode
                  cache_writable path z st imports rel st1 Hcons Hstat Hload)
        as (body & Hbody & Himports & Hrel & Hcache & Hcons1).
      assert (Hoff1 : off_cycle st1).
      { split; [|done]. intros p Hp. rewrite Hcache. by apply Hnone. }
      destruct (collect_mtimes_off _ _ _ _ _ _ _ Hoff1 Hloop) as [[Hnone2 Hcons2] Horigins].
      assert (Hnot : ~ cycle path).
      { intros (q' & (_ & body' & package' & mi & Hbody' & Hpackage' & Hmi & Horigin) & Hq')
          %cycle_closed.
        rewrite Hbody in Hbody'. injection Hbody' as <-.
        rewrite <- Himports, <- Hrel, Hpackage in Hpackage'. injection Hpackage' as <-.
        rewrite <- Himports in Hmi. by apply (Horigins mi q'). }
      split; [done|]. split; [|done]. simpl. intros p Hp.
      rewrite lookup_insert_ne; [by apply Hnone2|]. by intros ->.
Qed.

End Step.

Lemma path_xstats_off fuel : forall path st m st',
  off_cycle st -> xstats fuel path st = Ok (m, st') -> ~ cycle path /\ off_cycle st'.
Proof.
  induction fuel as [|fuel IH]; intros path st m st' Hoff; [discriminate|].
  simpl. by apply path_xstats_body_off.
Qed.

End Cycle.

End ImporterMore.

(** X11: the hook memoizes.  Once it has returned for a source file, the
    result stays in [_xstats_cache], and every later call for that path
    returns it without looking at the file system again: whatever the
    files, their modification times and the module search have become.
    Only [invalidate_xcaches], which empties the cache, makes the hook
    look again. *)
Theorem path_xstats_is_memoized
    (stdlib : gset string) (stat stat' : string -> outcome Z)
    (parse_body parse_body' : string -> outcome (list Discovery.statement))
    (ismacroimport ismacroimport' : Discovery.statement -> string -> bool)
    (resolve_package resolve_package' : string -> outcome string)
    (resolve_name resolve_name' : string -> option string -> outcome string)
    (find_spec find_spec' : string -> outcome (option (option string)))
    (dont_write_bytecode dont_write_bytecode' : bool)
    (cache_writable cache_writable' : string -> bool)
    (fuel fuel' : nat) (path : string) (st st' : Importer.istate) (m : Z) :
  Importer.is_source stdlib path = true ->
  Importer.path_xstats stdlib stat parse_body ismacroimport resolve_package resolve_name
    find_spec dont_write_bytecode cache_writable fuel path st = Ok (m, st') ->
  Importer.path_xstats stdlib stat' parse_body' ismacroimport' resolve_package'
    resolve_name' find_spec' dont_write_bytecode' cache_writable' (S fuel') path st'
  = Ok (m, st') /\
  Importer._xstats_cache (Importer.invalidate_xcaches st') !! path = None.
Proof.
  intros Hsrc Hrun. split; [|apply lookup_empty].
  apply path_xstats_stores in Hrun; [|done].
  simpl. unfold Importer.path_xstats_body. unfold Importer.is_source in Hsrc.
  apply negb_true_iff in Hsrc. by rewrite Hsrc, Hrun.
Qed.

(** A run of X11: after the hook has computed 300 for [app.py], it
    answers 300 on a file system where no file can be read any more. *)
Lemma path_xstats_is_memoized_witness :
  exists st',
    sample_path_xstats 3 "app.py" (Importer.IState ∅ ∅) = Ok (300%Z, st') /\
    Importer.path_xstats ∅ (fun path => Raise (OSError path))
      (fun path => Raise (OSError path)) sample_ismacroimport
      (fun path => Raise (ImportError path)) sample_resolve_name sample_find_spec
      false (fun _ => true) 1 "app.py" st' = Ok (300%Z, st').
Proof.
  destruct (sample_path_xstats 3 "app.py" (Importer.IState ∅ ∅))
    as [[m st']| |] eqn:Hrun; try (vm_compute in Hrun; discriminate).
  assert (Hm : m = 300%Z) by (vm_compute in Hrun; congruence). subst m.
  exists st'. split; [reflexivity|].
  exact (proj1 (path_xstats_is_memoized ∅ sample_stat (fun path => Raise (OSError path))
                  sample_parse_body (fun path => Raise (OSError path))
                  sample_ismacroimport sample_ismacroimport
                  (fun path => Raise (ImportError path)) (fun path => Raise (ImportError path))
                  sample_resolve_name sample_resolve_name sample_find_spec sample_find_spec
                  false false (fun _ => true) (fun _ => true) 3 0 "app.py"
                  (Importer.IState ∅ ∅) st' 300%Z eq_refl Hrun)).
Defined.

(** X12: the hook does not return on cyclic macro-dependencies.  When
    [path] belongs to a set of files each of which imports macros from
    another file of the set, and none of them has a cached result yet,
    no recursion depth is enough for the call to return: a result for a
    file is stored only after the loop over its macro-imports, so the
    recursion comes round to the same files again (in CPython, until a
    [RecursionError]). *)
Theorem cyclic_macro_dependencies_never_return
    (stdlib : gset string) (stat : string -> outcome Z)
    (parse_body : string -> outcome (list Discovery.statement))
    (ismacroimport : Discovery.statement -> string -> bool)
    (resolve_package : string -> outcome string)
    (resolve_name : string -> option string -> outcome string)
    (find_spec : string -> outcome (option (option string)))
    (dont_write_bytecode : bool) (cache_writable : string -> bool)
    (cycle : string -> Prop) (path : string) (st : Importer.istate) :
  (forall q, cycle q ->
     exists q',
       Importer.depends stdlib parse_body ismacroimport resolve_package resolve_name
         find_spec q q' /\ cycle q') ->
  cycle path ->
  (forall p, cycle p -> Importer._xstats_cache st !! p = None) ->
  Importer.importcache_consistent stat parse_body ismacroimport st ->
  forall fuel m st',
    Importer.path_xstats stdlib stat parse_body ismacroimport resolve_package resolve_name
      find_spec dont_write_bytecode cache_writable fuel path st <> Ok (m, st').
Proof.
  intros Hclosed Hpath Hnone Hcons fuel m st' Hrun.
  destruct (path_xstats_off stdlib stat parse_body ismacroimport resolve_package
              resolve_name find_spec dont_write_bytecode cache_writable cycle Hclosed
              fuel path st m st') as [Hnot _]; [by split|done|done].
Qed.

(** A run of X12: [ping.py] imports macros from [pong], [pong.py] from
    [ping]; from empty caches the hook never returns for [ping.py]. *)
Lemma cyclic_macro_dependencies_never_return_witness :
  ~ exists fuel m st',
      Importer.path_xstats ∅ cyclic_stat cyclic_parse_body sample_ismacroimport
        (fun path => Raise (ImportError path)) sample_resolve_name sample_find_spec
        false (fun _ => true) fuel "ping.py" (Importer.IState ∅ ∅) = Ok (m, st').
Proof.
  intros (fuel & m & st' & Hrun). revert Hrun.
  apply (cyclic_macro_dependencies_never_return ∅ cyclic_stat cyclic_parse_body
           sample_ismacroimport (fun path => Raise (ImportError path))
           sample_resolve_name sample_find_spec false (fun _ => true)
           (fun q => q = "ping.py" \/ q = "pong.py") "ping.py" (Importer.IState ∅ ∅)).
  - intros q [->| ->].
    + exists "pong.py". split; [|by right].
      split; [reflexivity|].
      exists [macro_import_of "pong"], None, (macro_import_of "pong").
      split; [reflexivity|]. split; [reflexivity|]. split; [by left|reflexivity].
    + exists "ping.py". split; [|by left].
      split; [reflexivity|].
      exists [macro_import_of "ping"], None, (macro_import_of "ping").
      split; [reflexivity|]. split; [reflexivity|]. split; [by left|reflexivity].
  - by left.
  - intros p _. apply lookup_empty.
  - intros p d Hd. simpl in Hd. by rewrite lookup_empty in Hd.
Defined.

(** ** The dialect expander: the AST stage *)
Section AstStage.
Import Discovery Dialects.

Variable filename : string.
Variable ismacroimport : statement -> string -> bool.
Variable get_macros : import_node -> outcome (string * list (string * pyobject)).

Local Abbreviation count := (fun t => length (dialectimports_of ismacroimport t)).

Lemma first_dialectimport_None body : forall index,
  first_dialectimport ismacroimport body index = None ->
  forall s, s ∈ body -> ismacroimport s "dialects" = false.
Proof.
  induction body as [|s0 rest IH]; intros index Hnone s Hs; [by apply elem_of_nil in Hs|].
  simpl in Hnone. destruct (ismacroimport s0 "dialects") eqn:Hs0; [discriminate|].
  apply elem_of_cons in Hs as [->|Hs]; [done|]. by eapply IH.
Qed.

Lemma first_dialectimport_Some body : forall index i s,
  first_dialectimport ismacroimport body index = Some (i, s) ->
  exists j, i = index + j /\ body !! j = Some s /\ ismacroimport s "dialects" = true.
Proof.
  induction body as [|s0 rest IH]; intros index i s; simpl; [discriminate|].
  destruct (ismacroimport s0 "dialects") eqn:Hs0.
  - intros [= <- <-]. exists 0. split; [lia|]. by split.
  - intros (j & -> & Hj & Hs)%IH. exists (S j). split; [lia|]. by split.
Qed.

(** Replacing a dialect-import by a statement that is none leaves one
    dialect-import fewer. *)
Lemma count_insert (t : tree) : forall j s s',
  t !! j = Some s ->
  ismacroimport s "dialects" = true -> ismacroimport s' "dialects" = false ->
  S (count (<[j := s']> t)) = count t.
Proof.
  unfold dialectimports_of.
  induction t as [|s0 rest IH]; intros j s s' Hj Hs Hs'; [discriminate|].
  destruct j as [|j]; simpl in Hj.
  - injection Hj as ->. change (<[0 := s']> (s :: rest)) with (s' :: rest).
    rewrite !(filter_cons (fun s1 : statement => ismacroimport s1 "dialects" = true)).
    destruct (decide (ismacroimport s' "dialects" = true)) as [Hyes|_]; [congruence|].
    by destruct (decide (ismacroimport s "dialects" = true)).
  - change (<[S j := s']> (s0 :: rest)) with (s0 :: <[j := s']> rest).
    rewrite !(filter_cons (fun s1 : statement => ismacroimport s1 "dialects" = true)). specialize (IH _ _ _ Hj Hs Hs').
    destruct (decide (ismacroimport s0 "dialects" = true)); [|exact IH].
    cbn [length]. by f_equal.
Qed.

(** The loop over the dialects of one import, when it returns. *)
Lemma apply_ast_transformers_Ok module_absname bindings : forall t st t' st',
  apply_ast_transformers filename module_absname bindings t st = (Ok t', st') ->
  exists ds,
    Forall2 (fun p d => isinstance_Dialect (snd p) = true /\ call (snd p) = Ok d)
      bindings ds /\
    compose_ast_transformers ds t = Ok t' /\
    st' = DState (_seen st)
            (log st ++ map (fun p => AstTransformed module_absname (fst p)) bindings).
Proof.
  induction bindings as [|[dialectname cls] rest IH]; intros t st t' st'; simpl.
  - intros [= <- <-]. exists []. split; [constructor|]. split; [done|].
    destruct st. simpl. by rewrite app_nil_r.
  - destruct (isinstance_Dialect cls) eqn:Hcls; simpl; [|discriminate].
    unfold dbind at 1. unfold dlift at 1.
    destruct (call cls) as [d| |] eqn:Hcall; try discriminate.
    unfold dbind at 1. unfold dlift at 1.
    destruct (transform_ast_of d t) as [t1| |] eqn:Ht1; try discriminate.
    unfold dbind at 1. unfold emit at 1.
    intros (ds & Hds & Hcompose & ->)%IH.
    exists (d :: ds). split; [by constructor|]. split; [simpl; by rewrite Ht1|].
    simpl. by rewrite <- app_assoc.
Qed.

Lemma apply_ast_transformers_ends module_absname bindings : forall t st,
  Forall (fun p => adds_no_dialectimport ismacroimport (snd p)) bindings ->
  (apply_ast_transformers filename module_absname bindings t st).1 <> OutOfFuel /\
  forall t' st',
    apply_ast_transformers filename module_absname bindings t st = (Ok t', st') ->
    count t' <= count t.
Proof.
  induction bindings as [|[dialectname cls] rest IH]; intros t st Htame; simpl.
  - split; [done|]. by intros ? ? [= <- _].
  - inversion Htame as [|? ? Hcls Hrest]; subst. simpl in Hcls.
    destruct (isinstance_Dialect cls); simpl;
      [|split; [done|intros ? ? ?; discriminate]].
    unfold adds_no_dialectimport in Hcls.
    unfold dbind, dlift, emit. cbn beta iota.
    destruct (call cls) as [d| |]; [|split; [done|intros ? ? ?; discriminate]|done].
    specialize (Hcls t).
    destruct (transform_ast_of d t) as [t1| |];
      [|split; [done|intros ? ? ?; discriminate]|done].
    destruct (IH t1 (DState (_seen st) (log st ++ [AstTransformed module_absname dialectname]))
                Hrest) as [Hends Hcount].
    split; [done|]. intros t' st' Hrun. specialize (Hcount _ _ Hrun). simpl in *. lia.
Qed.

Lemma transform_ast_leaves_none fuel : forall t st t' st',
  (forall node module_absname bindings,
      get_macros node = Ok (module_absname, bindings) -> module_absname <> "") ->
  transform_ast filename ismacroimport get_macros fuel t st = (Ok t', st') ->
  forall s, s ∈ t' -> ismacroimport s "dialects" = false.
Proof.
  induction fuel as [|fuel IH]; intros t st t' st' Hname; [discriminate|].
  simpl. unfold dbind at 1. unfold find_dialectimport_ast.
  destruct (first_dialectimport ismacroimport t 0) as [[index statement]|] eqn:Hfirst.
  - unfold dbind at 1. unfold dlift at 1.
    destruct (get_macros (BodyStatement statement)) as [[module_absname bindings]| |]
      eqn:Hget; try discriminate.
    unfold dret at 1. rewrite bool_decide_eq_false_2 by (by eapply Hname).
    destruct bindings as [|b bs]; [by apply IH|].
    unfold dbind.
    destruct (apply_ast_transformers filename module_absname (b :: bs)
                (<[index := absolute_import module_absname statement]> t) st)
      as [[t1| |] st1]; try discriminate.
    by apply IH.
  - unfold dret. simpl. intros [= <- _]. by eapply first_dialectimport_None.
Qed.

Lemma transform_ast_ends fuel : forall t st,
  (forall m l c, ismacroimport (Import [Alias m None] l c) "dialects" = false) ->
  tame_dialects ismacroimport get_macros ->
  count t < fuel ->
  (transform_ast filename ismacroimport get_macros fuel t st).1 <> OutOfFuel.
Proof.
  induction fuel as [|fuel IH]; intros t st Himport Htame Hcount; [lia|].
  simpl. unfold dbind at 1. unfold find_dialectimport_ast.
  destruct (first_dialectimport ismacroimport t 0) as [[index statement]|] eqn:Hfirst;
    [|done].
  apply first_dialectimport_Some in Hfirst as (j & -> & Hj & Hs). simpl.
  unfold dbind at 1. unfold dlift at 1.
  specialize (Htame (BodyStatement statement)) as Hnode.
  destruct (get_macros (BodyStatement statement)) as [[module_absname bindings]| |];
    [|done|done].
  unfold dret at 1.
  assert (Hless : S (count (<[j := absolute_import module_absname statement]> t)) = count t).
  { eapply count_insert; [exact Hj|exact Hs|]. destruct statement; apply Himport. }
  case_bool_decide; [done|].
  destruct bindings as [|b bs]; [apply IH; [done|done|lia]|].
  unfold dbind.
  destruct (apply_ast_transformers_ends module_absname (b :: bs)
              (<[j := absolute_import module_absname statement]> t) st Hnode)
    as [Hends Hle].
  destruct (apply_ast_transformers filename module_absname (b :: bs)
              (<[j := absolute_import module_absname statement]> t) st)
    as [[t1| |] st1]; [|done|done].
  specialize (Hle _ _ eq_refl). apply IH; [done|done|lia].
Qed.

End AstStage.

(** X13: when the AST stage returns, no dialect-import is left in the
    tree it returns (given that [get_macros] yields no empty module name,
    which is what stops the loop): every dialect-import found was
    replaced by a plain import before its transformers ran. *)
Theorem transform_ast_leaves_no_dialectimport
    (filename : string) (ismacroimport : Discovery.statement -> string -> bool)
    (get_macros : Dialects.import_node
                  -> outcome (string * list (string * Dialects.pyobject)))
    (fuel : nat) (t t' : Dialects.tree) (st st' : Dialects.dstate) :
  (forall node module_absname bindings,
      get_macros node = Ok (module_absname, bindings) -> module_absname <> "") ->
  Dialects.transform_ast filename ismacroimport get_macros fuel t st = (Ok t', st') ->
  Dialects.dialectimports_of ismacroimport t' = [].
Proof.
  intros Hname Hrun.
  pose proof (transform_ast_leaves_none filename ismacroimport get_macros fuel
                t st t' st' Hname Hrun) as Hnone.
  unfold Dialects.dialectimports_of. clear Hrun.
  induction t' as [|s rest IH]; [reflexivity|].
  rewrite (filter_cons (fun s1 : Discovery.statement => ismacroimport s1 "dialects" = true)).
  rewrite decide_False.
  - apply IH. intros s0 Hs0. apply Hnone. by right.
  - rewrite (Hnone s); [done|by left].
Qed.

(** X14: the AST stage ends.  Each round of its loop replaces the first
    dialect-import by a plain import, which is not found again; so when
    no dialect's AST transformer adds a dialect-import, the loop is over
    after at most one round per dialect-import of the tree, and one
    more. *)
Theorem transform_ast_ends_in_one_round_per_import
    (filename : string) (ismacroimport : Discovery.statement -> string -> bool)
    (get_macros : Dialects.import_node
                  -> outcome (string * list (string * Dialects.pyobject)))
    (fuel : nat) (t : Dialects.tree) (st : Dialects.dstate) :
  (forall m l c,
      ismacroimport (Discovery.Import [Discovery.Alias m None] l c) "dialects" = false) ->
  Dialects.tame_dialects ismacroimport get_macros ->
  length (Dialects.dialectimports_of ismacroimport t) < fuel ->
  (Dialects.transform_ast filename ismacroimport get_macros fuel t st).1 <> OutOfFuel.
Proof. intros Himport Htame Hcount. by apply transform_ast_ends. Qed.

(** X15: the AST transformers of the dialects named by one import are
    applied left to right, each once and each to the result of the one
    before: when the loop over them returns, every attribute was a
    [Dialect] and could be instantiated, and the tree returned is the
    composition of their transformers on the tree given. *)
Theorem ast_transformers_are_composed
    (filename module_absname : string) (bindings : list (string * Dialects.pyobject))
    (t t' : Dialects.tree) (st st' : Dialects.dstate) :
  Dialects.apply_ast_transformers filename module_absname bindings t st = (Ok t', st') ->
  exists ds,
    Forall2 (fun p d => Dialects.isinstance_Dialect (snd p) = true
                        /\ Dialects.call (snd p) = Ok d) bindings ds /\
    Dialects.compose_ast_transformers ds t = Ok t' /\
    st' = Dialects.DState (Dialects._seen st)
            (Dialects.log st
             ++ map (fun p => Dialects.AstTransformed module_absname (fst p)) bindings).
Proof. apply apply_ast_transformers_Ok. Qed.

Lemma strict_get_macros_named node module_absname bindings :
  strict_get_macros node = Ok (module_absname, bindings) -> module_absname <> "".
Proof.
  unfold strict_get_macros.
  destruct (sample_get_macros node) as [[m bs]| |]; try discriminate.
  case_bool_decide; [discriminate|]. by intros [= <- _].
Qed.

Lemma sample_attributes_tame names :
  Forall (fun p => Dialects.adds_no_dialectimport sample_ismacroimport (snd p))
    (map sample_attribute names).
Proof.
  apply Forall_forall. intros p Hp%list_elem_of_In. apply in_map_iff in Hp as (a & <- & _).
  unfold sample_attribute. simpl. case_bool_decide.
  - unfold Dialects.adds_no_dialectimport. simpl. intros t. lia.
  - exact I.
Qed.

Lemma strict_get_macros_tame : Dialects.tame_dialects sample_ismacroimport strict_get_macros.
Proof.
  intros node. unfold strict_get_macros.
  destruct (sample_get_macros node) as [[m bs]| |] eqn:Hget; [|done|].
  - case_bool_decide; [done|].
    unfold sample_get_macros in Hget.
    destruct node as [[|[module names level l c|?|?] [|? ?]]|[module names level l c|?|?]];
      try discriminate; destruct module; try discriminate;
      injection Hget as _ <-; apply sample_attributes_tame.
  - unfold sample_get_macros in Hget.
    destruct node as [[|[module names level l c|?|?] [|? ?]]|[module names level l c|?|?]];
      try discriminate; destruct module; discriminate.
Qed.

(** A run of X13: the module [from mydialects import dialects, Upper]
    leaves the AST stage as [import mydialects]. *)
Lemma transform_ast_leaves_no_dialectimport_witness :
  Dialects.dialectimports_of sample_ismacroimport
    [Discovery.Import [Discovery.Alias "mydialects" None] (Some 1%Z) (Some 0%Z)] = [].
Proof.
  apply (transform_ast_leaves_no_dialectimport "main.py" sample_ismacroimport
           strict_get_macros 2 upper_import_tree _ Dialects.fresh
           (Dialects.DState ∅ [Dialects.AstTransformed "mydialects" "Upper"])
           strict_get_macros_named).
  vm_compute. reflexivity.
Defined.

(** A run of X14, on a module with one dialect-import that names the
    dialect [Upper] and an attribute that is no dialect. *)
Lemma transform_ast_ends_in_one_round_per_import_witness :
  (Dialects.transform_ast "main.py" sample_ismacroimport strict_get_macros 2
     dialect_import_tree Dialects.fresh).1 <> OutOfFuel.
Proof.
  apply (transform_ast_ends_in_one_round_per_import "main.py" sample_ismacroimport
           strict_get_macros 2 dialect_import_tree Dialects.fresh).
  - reflexivity.
  - exact strict_get_macros_tame.
  - vm_compute. lia.
Defined.

(** A run of X15: [Upper], whose AST transformer changes nothing, then
    [Passing], which appends a [pass]. *)
Lemma ast_transformers_are_composed_witness :
  exists ds,
    Forall2 (fun p d => Dialects.isinstance_Dialect (snd p) = true
                        /\ Dialects.call (snd p) = Ok d)
      [("Upper", upper_dialect); ("Passing", passing_dialect)] ds /\
    Dialects.compose_ast_transformers ds upper_import_tree
    = Ok (upper_import_tree ++ [Discovery.Other (PyAst.Node "Pass" [] None None)]) /\
    Dialects.DState ∅ [Dialects.AstTransformed "mydialects" "Upper";
                       Dialects.AstTransformed "mydialects" "Passing"]
    = Dialects.DState (Dialects._seen Dialects.fresh)
        (Dialects.log Dialects.fresh
         ++ map (fun p => Dialects.AstTransformed "mydialects" (fst p))
              [("Upper", upper_dialect); ("Passing", passing_dialect)]).
Proof.
  apply (ast_transformers_are_composed "main.py" "mydialects"
           [("Upper", upper_dialect); ("Passing", passing_dialect)]
           upper_import_tree _ Dialects.fresh _).
  reflexivity.
Defined.

(** ** Macro discovery: the containing package, and what discovery
    leaves alone *)
Section Strings.

Lemma append_cons c a b : String c a +:+ b = String c (a +:+ b).
Proof. reflexivity. Qed.

Lemma prefix_append a b : String.prefix a (a +:+ b) = true.
Proof.
  induction a as [|c a IH]; [by destruct b|]. rewrite append_cons. simpl.
  by destruct (Ascii.ascii_dec c c).
Qed.

Lemma substring_all s : String.substring 0 (String.length s) s = s.
Proof. induction s as [|c s IH]; [reflexivity|]. simpl. by rewrite IH. Qed.

Lemma length_append a b : String.length (a +:+ b) = String.length a + String.length b.
Proof.
  induction a as [|c a IH]; [reflexivity|]. rewrite append_cons. simpl. by rewrite IH.
Qed.

Lemma drop_prefix_append a b : Discovery.drop_prefix (String.length a) (a +:+ b) = b.
Proof.
  unfold Discovery.drop_prefix. rewrite length_append.
  replace (String.length a + String.length b - String.length a) with (String.length b)
    by lia.
  induction a as [|c a IH]; [apply substring_all|]. rewrite append_cons. exact IH.
Qed.

Lemma drop_prefix_one c s : Discovery.drop_prefix 1 (String c s) = s.
Proof. apply (drop_prefix_append (String c EmptyString) s). Qed.

Lemma append_empty_r a : a +:+ "" = a.
Proof.
  induction a as [|c a IH]; [reflexivity|]. rewrite append_cons. by f_equal.
Qed.

Variable sep : Ascii.ascii.

Lemma replace_sep_append a b :
  Discovery.replace_sep sep (a +:+ b)
  = Discovery.replace_sep sep a +:+ Discovery.replace_sep sep b.
Proof.
  induction a as [|c a IH]; [reflexivity|]. rewrite append_cons. simpl.
  by rewrite IH, append_cons.
Qed.

Lemma replace_sep_plain s :
  Discovery.mentions sep s = false -> Discovery.replace_sep sep s = s.
Proof.
  induction s as [|c s IH]; [reflexivity|]. simpl.
  intros [Hc Hs]%orb_false_elim. rewrite Hc, IH; done.
Qed.

(** Replacing the separators of a joined path gives the dotted name of
    its components. *)
Lemma replace_sep_join components :
  Forall (fun component => Discovery.mentions sep component = false) components ->
  Discovery.replace_sep sep (Discovery.join (String sep "") components)
  = Discovery.join "." components.
Proof.
  unfold Discovery.join.
  induction 1 as [|component rest Hc Hrest IH]; [reflexivity|].
  destruct rest as [|next rest]; [by apply replace_sep_plain|].
  change (String.concat (String sep "") (component :: next :: rest))
    with (component +:+ String sep (String.concat (String sep "") (next :: rest))).
  change (String.concat "." (component :: next :: rest))
    with (component +:+ String "."%char (String.concat "." (next :: rest))).
  rewrite replace_sep_append, (replace_sep_plain _ Hc). f_equal.
  change (Discovery.replace_sep sep
            (String sep (String.concat (String sep "") (next :: rest))))
    with (String (if bool_decide (sep = sep) then "."%char else sep)
            (Discovery.replace_sep sep (String.concat (String sep "") (next :: rest)))).
  rewrite bool_decide_eq_true_2 by done. by rewrite IH.
Qed.

End Strings.

Section ResolvePackage.
Import Discovery.

Variable sys_path : list string.
Variable resolve : string -> string.
Variable parent : string -> string.
Variable sep : Ascii.ascii.

Lemma resolve_package_skips filename pyfiledir pre roots :
  Forall (fun r => String.prefix (resolve r) pyfiledir = false) pre ->
  _resolve_package_from resolve sep filename pyfiledir (pre ++ roots)
  = _resolve_package_from resolve sep filename pyfiledir roots.
Proof.
  induction 1 as [|r pre Hr Hpre IH]; [reflexivity|]. simpl. by rewrite Hr.
Qed.

Lemma resolve_package_none filename pyfiledir roots :
  Forall (fun r => String.prefix (resolve r) pyfiledir = false) roots <->
  _resolve_package_from resolve sep filename pyfiledir roots
  = Raise (ImportError (filename +:+ " not under any directory in `sys.path`")).
Proof.
  induction roots as [|r roots IH]; simpl.
  - split; [done|constructor].
  - destruct (String.prefix (resolve r) pyfiledir) eqn:Hr.
    + split; [intros H; inversion H; congruence|].
      by case_bool_decide.
    + rewrite <- IH. split; [intros H; by inversion H|by constructor].
Qed.

End ResolvePackage.

(** X16: [_resolve_package] inverts the layout of a package on disk.
    When the directory of the file is [root/c1/.../cn] for the first
    entry [root] of [sys.path] whose resolved path is a prefix of it (as
    a string), and no component holds a path separator, the package name
    is [c1.c2. ... .cn]. *)
Theorem resolve_package_gives_the_dotted_path
    (sys_path : list string) (resolve parent : string -> string) (sep : Ascii.ascii)
    (filename : string) (pre post : list string) (root : string)
    (components : list string) :
  sys_path = pre ++ root :: post ->
  Forall (fun r => String.prefix (resolve r) (parent (resolve filename)) = false) pre ->
  parent (resolve filename)
  = resolve root +:+ String sep (Discovery.join (String sep "") components) ->
  Forall (fun component => Discovery.mentions sep component = false) components ->
  Discovery._resolve_package sys_path resolve parent sep filename
  = Ok (Discovery.join "." components).
Proof.
  intros -> Hpre Hdir Hcomponents. unfold Discovery._resolve_package.
  rewrite resolve_package_skips by done. simpl.
  rewrite Hdir, prefix_append, drop_prefix_append.
  rewrite bool_decide_eq_false_2 by discriminate.
  by rewrite drop_prefix_one, replace_sep_join.
Qed.

(** X17: the errors of [_resolve_package].  It raises the [ImportError]
    "not under any directory in [sys.path]" exactly when no entry of
    [sys.path] resolves to a prefix of the directory of the file, and the
    [ValueError] "not in package" when the first entry that does is that
    directory itself. *)
Theorem resolve_package_errors
    (sys_path : list string) (resolve parent : string -> string) (sep : Ascii.ascii)
    (filename : string) :
  (Forall (fun r => String.prefix (resolve r) (parent (resolve filename)) = false) sys_path
   <-> Discovery._resolve_package sys_path resolve parent sep filename
       = Raise (ImportError (filename +:+ " not under any directory in `sys.path`"))) /\
  (forall pre root post,
      sys_path = pre ++ root :: post ->
      Forall (fun r => String.prefix (resolve r) (parent (resolve filename)) = false) pre ->
      parent (resolve filename) = resolve root ->
      Discovery._resolve_package sys_path resolve parent sep filename
      = Raise (ValueError (filename +:+ " not in package, is at root level of "
                           +:+ resolve root))).
Proof.
  split; [apply resolve_package_none|].
  intros pre root post -> Hpre Hdir. unfold Discovery._resolve_package.
  rewrite resolve_package_skips by done. simpl. rewrite Hdir.
  pose proof (prefix_append (resolve root) "") as Hprefix.
  pose proof (drop_prefix_append (resolve root) "") as Hdrop.
  rewrite append_empty_r in Hprefix, Hdrop. by rewrite Hprefix, Hdrop.
Qed.

(** A run of X16: [mod.py] in [mypkg/sub] under the second entry of
    [sys.path]. *)
Lemma resolve_package_gives_the_dotted_path_witness :
  Discovery._resolve_package ["/usr/lib"; "/home/me/src"] id sample_parent "/"%char
    "/home/me/src/mypkg/sub/mod.py"
  = Ok "mypkg.sub".
Proof.
  apply (resolve_package_gives_the_dotted_path ["/usr/lib"; "/home/me/src"] id
           sample_parent "/"%char "/home/me/src/mypkg/sub/mod.py"
           ["/usr/lib"] [] "/home/me/src" ["mypkg"; "sub"]).
  - reflexivity.
  - by repeat constructor.
  - reflexivity.
  - by repeat constructor.
Defined.

(** A file at the top of a [sys.path] entry is in no package. *)
Lemma resolve_package_at_root :
  Discovery._resolve_package ["/usr/lib"; "/home/me/src"] id sample_parent "/"%char
    "/home/me/src/main.py"
  = Raise (ValueError "/home/me/src/main.py not in package, is at root level of /home/me/src").
Proof. vm_compute. reflexivity. Qed.

(** The test for "under a directory of [sys.path]" compares strings, not
    paths: a file in [/srv/app2] passes for one under the entry
    [/srv/app], and gets the empty package name. *)
Lemma resolve_package_takes_sibling_directory :
  Discovery._resolve_package ["/srv/app"] id sample_parent "/"%char "/srv/app2/m.py"
  = Ok "".
Proof. vm_compute. reflexivity. Qed.

Section DiscoveryFrame.
Import Discovery.

Context {V : Type}.
Variable sys_path : list string.
Variable resolve : string -> string.
Variable parent : string -> string.
Variable sep : Ascii.ascii.
Variable resolve_name : string -> option string -> outcome string.
Variable import_module : string -> outcome (gmap string V).
Variable reload_module : string -> outcome (gmap string V).

Local Abbreviation find_in :=
  (@find_macros_in V sys_path resolve parent sep resolve_name import_module reload_module).

(** Discovery hands back every statement that is no macro-import. *)
Lemma find_macros_in_keeps body : forall filename reload b0 body' b i s,
  find_in body filename reload b0 = Ok (body', b) ->
  body !! i = Some s -> _is_macro_import s = Ok false ->
  body' !! i = Some s.
Proof.
  induction body as [|s0 rest IH]; intros filename reload b0 body' b i s; simpl;
    [discriminate|].
  intros (is_mi & His & H)%obind_Ok Hi Hs.
  destruct i as [|i]; simpl in Hi.
  - injection Hi as ->. rewrite Hs in His. injection His as <-.
    apply obind_Ok in H as ([rest' b'] & Hrest & H). by injection H as <- _.
  - destruct is_mi.
    + apply obind_Ok in H as ([mf more] & Hget & H).
      apply obind_Ok in H as ([rest' b'] & Hrest & H). injection H as <- _.
      simpl. by eapply IH.
    + apply obind_Ok in H as ([rest' b'] & Hrest & H). injection H as <- _.
      simpl. by eapply IH.
Qed.

Lemma find_macros_in_plain body : forall filename reload b0 body' b,
  find_in body filename reload b0 = Ok (body', b) ->
  Forall (fun s => _is_macro_import s = Ok false) body ->
  body' = body /\ b = b0.
Proof.
  induction body as [|s0 rest IH]; intros filename reload b0 body' b; simpl.
  - by intros [= <- <-].
  - intros (is_mi & His & H)%obind_Ok Hall.
    inversion Hall as [|? ? Hs0 Hrest]; subst.
    rewrite Hs0 in His. injection His as <-.
    apply obind_Ok in H as ([rest' b'] & Hrun & H). injection H as <- <-.
    destruct (IH _ _ _ _ _ Hrun Hrest) as [-> ->]. done.
Qed.

End DiscoveryFrame.

(** X18: what discovery leaves alone.  When [find_macros] returns, the
    module body has the length it had, every statement that is no
    macro-import stands where and as it was, and the table binds no name
    but those listed in some macro-import of the body; a body without
    macro-imports comes back unchanged, with an empty table. *)
Theorem find_macros_touches_macro_imports_only
    {V : Type} (sys_path : list string) (resolve parent : string -> string)
    (sep : Ascii.ascii) (resolve_name : string -> option string -> outcome string)
    (import_module reload_module : string -> outcome (gmap string V))
    (body body' : list Discovery.statement) (filename : string) (reload : bool)
    (bindings : gmap string V) :
  Discovery.find_macros sys_path resolve parent sep resolve_name import_module
    reload_module body filename reload = Ok (body', bindings) ->
  length body' = length body /\
  (forall i s,
      body !! i = Some s -> Discovery._is_macro_import s = Ok false ->
      body' !! i = Some s) /\
  (forall k,
      is_Some (bindings !! k) ->
      exists s, s ∈ body /\ k ∈ Discovery.listed_keys s) /\
  (Forall (fun s => Discovery._is_macro_import s = Ok false) body ->
   body' = body /\ bindings = ∅).
Proof.
  unfold Discovery.find_macros. intros Hrun.
  split; [by eapply find_macros_in_length|].
  split; [intros i s; by eapply find_macros_in_keeps|].
  split; [|by eapply find_macros_in_plain].
  intros k [v Hk].
  destruct (decide (Exists (fun s => k ∈ Discovery.listed_keys s) body)) as [Hex|Hno].
  - apply Exists_exists in Hex as (s & Hs & Hin). by exists s.
  - exfalso. rewrite (find_macros_in_frame _ _ _ _ _ _ _ _ _ _ _ _ _ k Hrun) in Hk.
    + by rewrite lookup_empty in Hk.
    + intros s Hs Hin. apply Hno. apply Exists_exists. by exists s.
Qed.

(** A run of X18: [import os] before and [x = 1] after the macro-import
    [from a import macros, foo, bar as baz] stay where they are. *)
Lemma find_macros_touches_macro_imports_only_witness :
  exists body' bindings,
    sample_find_macros
      [Discovery.Import [Discovery.Alias "os" None] (Some 1%Z) (Some 0%Z);
       import_from_a;
       Discovery.Other (PyAst.Node "Assign" [] (Some 3%Z) (Some 0%Z))]
    = Ok (body', bindings) /\
    length body' = 3 /\
    body' !! 0 = Some (Discovery.Import [Discovery.Alias "os" None] (Some 1%Z) (Some 0%Z)) /\
    body' !! 2 = Some (Discovery.Other (PyAst.Node "Assign" [] (Some 3%Z) (Some 0%Z))).
Proof.
  destruct (sample_find_macros
              [Discovery.Import [Discovery.Alias "os" None] (Some 1%Z) (Some 0%Z);
               import_from_a;
               Discovery.Other (PyAst.Node "Assign" [] (Some 3%Z) (Some 0%Z))])
    as [[body' bindings]| |] eqn:Hrun; try (vm_compute in Hrun; discriminate).
  destruct (find_macros_touches_macro_imports_only _ _ _ _ _ _ _ _ _ _ _ _ Hrun)
    as (Hlength & Hkeeps & _ & _).
  exists body', bindings. split; [reflexivity|]. split; [exact Hlength|].
  split; by apply Hkeeps.
Defined.

(** ** Run-time modules *)
Section CompilerFacts.
Import Compiler.

Lemma rsplit_dot_Some s : forall packagename finalcomponent,
  rsplit_dot s = Some (packagename, finalcomponent) ->
  s = packagename +:+ String "."%char finalcomponent /\
  Discovery.mentions "."%char finalcomponent = false.
Proof.
  induction s as [|c rest IH]; intros p f; simpl; [discriminate|].
  destruct (rsplit_dot rest) as [[p' f']|] eqn:Hrest.
  - intros [= <- <-]. destruct (IH _ _ eq_refl) as [-> Hf]. by split.
  - case_bool_decide as Hc; [|discriminate]. intros [= <- <-]. subst c.
    split; [reflexivity|].
    clear IH. induction rest as [|c rest IH]; [reflexivity|]. simpl in *.
    destruct (rsplit_dot rest) as [[p' f']|]; [discriminate|].
    case_bool_decide; [discriminate|]. simpl. by apply IH.
Qed.

Lemma rsplit_dot_None s :
  Discovery.mentions "."%char s = false -> rsplit_dot s = None.
Proof.
  induction s as [|c rest IH]; [reflexivity|]. simpl.
  intros [Hc Hrest]%orb_false_elim. rewrite (IH Hrest). by rewrite Hc.
Qed.

Lemma mentions_append c a b :
  Discovery.mentions c (a +:+ b) = Discovery.mentions c a || Discovery.mentions c b.
Proof.
  induction a as [|c' a IH]; [reflexivity|].
  change (String c' a +:+ b) with (String c' (a +:+ b)). simpl.
  by rewrite IH, orb_assoc.
Qed.

(** What [register] does when it returns. *)
Lemma register_Ok dotted_name filename st m st' :
  wellformed st ->
  register dotted_name filename st = (Ok m, st') ->
  m = next_id st /\
  heap st !! m = None /\
  sys_modules st' !! dotted_name = Some m /\
  (forall k, k <> dotted_name -> sys_modules st' !! k = sys_modules st !! k) /\
  module_attr st' m "__name__" = Some (VStr dotted_name) /\
  module_attr st' m "__file__" = Some (VStr filename) /\
  match rsplit_dot dotted_name with
  | None => module_attr st' m "__package__" = Some VNone
  | Some (packagename, finalcomponent) =>
      dotted_name = packagename +:+ String "."%char finalcomponent /\
      module_attr st' m "__package__" = Some (VStr packagename) /\
      exists package,
        sys_modules st !! packagename = Some package /\
        module_attr st' package finalcomponent = Some (VModule m)
  end /\
  wellformed st'.
Proof.
  intros [Hmods Hheap] Hrun.
  assert (Hfresh : heap st !! next_id st = None).
  { destruct (heap st !! next_id st) as [ns|] eqn:Hns; [|done].
    apply Hheap in Hns. lia. }
  unfold register in Hrun.
  destruct (rsplit_dot dotted_name) as [[packagename finalcomponent]|] eqn:Hsplit.
  - destruct (sys_modules st !! packagename) as [package|] eqn:Hpackage; [|discriminate].
    injection Hrun as <- <-.
    destruct (Hmods _ _ Hpackage) as [pns Hpns].
    assert (Hne : package <> next_id st) by (intros ->; congruence).
    split; [done|]. split; [done|]. simpl.
    split; [by rewrite lookup_insert_eq|].
    split; [intros k Hk; by rewrite lookup_insert_ne|].
    unfold module_attr. simpl. rewrite lookup_insert_eq.
    split; [reflexivity|]. split; [reflexivity|]. split.
    + split; [by apply rsplit_dot_Some|]. split; [reflexivity|].
      exists package. split; [done|].
      rewrite lookup_insert_ne by done. rewrite lookup_alter_eq, Hpns. simpl.
      apply (lookup_insert_eq (M := gmap string)).
    + split; simpl.
      * intros name m. destruct (decide (name = dotted_name)) as [->|Hname].
        -- rewrite lookup_insert_eq. intros [= <-]. rewrite lookup_insert_eq. by eexists.
        -- rewrite lookup_insert_ne by done. intros Hm.
           destruct (Hmods _ _ Hm) as [ns Hns].
           destruct (decide (m = next_id st)) as [->|Hm'];
             [rewrite lookup_insert_eq; by eexists|].
           rewrite lookup_insert_ne by done.
           destruct (decide (m = package)) as [->|Hmp].
           ++ rewrite lookup_alter_eq, Hpns. by eexists.
           ++ rewrite lookup_alter_ne by done. by eexists.
      * intros m ns. destruct (decide (m = next_id st)) as [->|Hm']; [lia|].
        rewrite lookup_insert_ne by done.
        destruct (decide (m = package)) as [->|Hmp].
        -- intros _. specialize (Hheap _ _ Hpns). lia.
        -- rewrite lookup_alter_ne by done. intros Hns%Hheap. lia.
  - injection Hrun as <- <-.
    split; [done|]. split; [done|]. simpl.
    split; [by rewrite lookup_insert_eq|].
    split; [intros k Hk; by rewrite lookup_insert_ne|].
    unfold module_attr. simpl. rewrite lookup_insert_eq.
    split; [reflexivity|]. split; [reflexivity|]. split; [reflexivity|].
    split; simpl.
    + intros name m. destruct (decide (name = dotted_name)) as [->|Hname].
      * rewrite lookup_insert_eq. intros [= <-]. rewrite lookup_insert_eq. by eexists.
      * rewrite lookup_insert_ne by done. intros Hm.
        destruct (Hmods _ _ Hm) as [ns Hns].
        destruct (decide (m = next_id st)) as [->|Hm'];
          [rewrite lookup_insert_eq; by eexists|].
        rewrite lookup_insert_ne by done. by eexists.
    + intros m ns. destruct (decide (m = next_id st)) as [->|Hm']; [lia|].
      rewrite lookup_insert_ne by done. intros Hns%Hheap. lia.
Qed.

Lemma create_module_Raise isidentifier repr_str dotted_name filename uuid st e st' :
  create_module isidentifier repr_str dotted_name filename uuid st = (Raise e, st') ->
  st' = st.
Proof.
  unfold create_module, register.
  destruct (check_dotted_name isidentifier repr_str dotted_name); try by intros [= _ <-].
  destruct (check_filename filename); try by intros [= _ <-].
  destruct (rsplit_dot (module_name dotted_name uuid)) as [[p f]|]; [|discriminate].
  destruct (sys_modules st !! p); [discriminate|]. by intros [= _ <-].
Qed.

End CompilerFacts.

Lemma create_module_Ok_facts
    (isidentifier : string -> bool) (repr_str : string -> string)
    (dotted_name filename : Compiler.pyarg) (uuid : string)
    (st st' : Compiler.pystate) (m : nat) :
  Compiler.wellformed st ->
  Compiler.create_module isidentifier repr_str dotted_name filename uuid st = (Ok m, st') ->
  Compiler.sys_modules st' !! Compiler.module_name dotted_name uuid = Some m /\
  Compiler.module_attr st' m "__file__"
  = Some (Compiler.VStr (Compiler.module_filename dotted_name filename uuid)) /\
  Compiler.module_attr st' m "__name__"
  = Some (Compiler.VStr (Compiler.module_name dotted_name uuid)).
Proof.
  intros Hwf Hrun. unfold Compiler.create_module in Hrun.
  destruct (Compiler.check_dotted_name isidentifier repr_str dotted_name);
    try discriminate.
  destruct (Compiler.check_filename filename); try discriminate.
  destruct (register_Ok _ _ _ _ _ Hwf Hrun) as (_ & H1 & H2 & H3 & H4 & H5 & H6 & H7).
  done.
Qed.

(** X19: [create_module] obeys the package semantics.  When it returns,
    the module is a new object, registered in [sys.modules] under its
    name, with every other entry as it was; its [__name__] and [__file__]
    are the name and the file name given (or the generated ones); for a
    name without a dot [__package__] is [None]; for a dotted name, the
    text before the last dot is the name of a registered package,
    [__package__] holds it, and the package has the new module (the same
    object) as the attribute named by the text after the last dot. *)
Theorem create_module_obeys_package_semantics
    (isidentifier : string -> bool) (repr_str : string -> string)
    (dotted_name filename : Compiler.pyarg) (uuid : string)
    (st st' : Compiler.pystate) (m : nat) :
  Compiler.wellformed st ->
  Compiler.create_module isidentifier repr_str dotted_name filename uuid st = (Ok m, st') ->
  let name := Compiler.module_name dotted_name uuid in
  Compiler.heap st !! m = None /\
  Compiler.sys_modules st' !! name = Some m /\
  (forall k, k <> name -> Compiler.sys_modules st' !! k = Compiler.sys_modules st !! k) /\
  Compiler.module_attr st' m "__name__" = Some (Compiler.VStr name) /\
  Compiler.module_attr st' m "__file__"
  = Some (Compiler.VStr (Compiler.module_filename dotted_name filename uuid)) /\
  match Compiler.rsplit_dot name with
  | None => Compiler.module_attr st' m "__package__" = Some Compiler.VNone
  | Some (packagename, finalcomponent) =>
      name = packagename +:+ String "."%char finalcomponent /\
      Compiler.module_attr st' m "__package__" = Some (Compiler.VStr packagename) /\
      exists package,
        Compiler.sys_modules st !! packagename = Some package /\
        Compiler.module_attr st' package finalcomponent = Some (Compiler.VModule m)
  end /\
  Compiler.wellformed st'.
Proof.
  intros Hwf Hrun name. unfold Compiler.create_module in Hrun.
  destruct (Compiler.check_dotted_name isidentifier repr_str dotted_name);
    try discriminate.
  destruct (Compiler.check_filename filename); try discriminate.
  destruct (register_Ok _ _ _ _ _ Hwf Hrun) as (_ & H1 & H2 & H3 & H4 & H5 & H6 & H7).
  done.
Qed.

(** X20: when [create_module] fails, nothing is registered: whatever it
    raises, [sys.modules] and the module objects are as they were.  It
    fails with [ModuleNotFoundError] for a dotted name, made of
    identifiers, whose parent package (the text before the last dot) is
    not in [sys.modules]. *)
Theorem create_module_failure_registers_nothing
    (isidentifier : string -> bool) (repr_str : string -> string)
    (dotted_name filename : Compiler.pyarg) (uuid : string) (st : Compiler.pystate) :
  (forall e st',
      Compiler.create_module isidentifier repr_str dotted_name filename uuid st
      = (Raise e, st') -> st' = st) /\
  (forall s packagename finalcomponent,
      dotted_name = Compiler.PStr s ->
      forallb isidentifier (Compiler.split_dots s) = true ->
      Compiler.check_filename filename = Ok tt ->
      Compiler.rsplit_dot s = Some (packagename, finalcomponent) ->
      Compiler.sys_modules st !! packagename = None ->
      Compiler.create_module isidentifier repr_str dotted_name filename uuid st
      = (Raise (ModuleNotFoundError
                  ("while dynamically creating module '" +:+ s
                   +:+ "': its parent package '" +:+ packagename
                   +:+ "' not found in `sys.modules`")), st)).
Proof.
  split; [intros e st'; apply create_module_Raise|].
  intros s packagename finalcomponent -> Hids Hfile Hsplit Hnone.
  assert (Hs : s <> "") by (intros ->; discriminate).
  unfold Compiler.create_module, Compiler.check_dotted_name, Compiler.register. simpl.
  rewrite (bool_decide_eq_false_2 _ Hs). simpl. rewrite Hids, Hfile.
  by rewrite Hsplit, Hnone.
Qed.

(** What [run] in a given module object leaves of [sys.modules], when
    compiling and running remove no entry. *)
Lemma run_by_object_keeps
    {code src : Type} (isidentifier : string -> bool) (repr_str : string -> string)
    (_compile : src -> Compiler.value -> Compiler.value -> Compiler.pystate
                -> outcome (code * Compiler.value) * Compiler.pystate)
    (exec : code -> nat -> Compiler.pystate -> outcome unit * Compiler.pystate)
    (source : Compiler.source) (m : nat) (uuid : string) (st st' : Compiler.pystate)
    (o : outcome nat) :
  (forall s f n st2 o2 st3, _compile s f n st2 = (o2, st3) -> Compiler.keeps_modules st2 st3) ->
  (forall c m2 st2 o2 st3, exec c m2 st2 = (o2, st3) -> Compiler.keeps_modules st2 st3) ->
  Compiler.run isidentifier repr_str _compile exec source (Compiler.ByObject m) uuid st
  = (o, st') ->
  Compiler.keeps_modules st st'.
Proof.
  intros Hcompile Hexec. unfold Compiler.run.
  assert (Hin : forall c docstring st2 o2 st3,
            Compiler.keeps_modules st st2 ->
            Compiler.exec_in exec c m (Compiler.set_doc m docstring st2) = (o2, st3) ->
            Compiler.keeps_modules st st3).
  { intros c docstring st2 o2 st3 Hst2. unfold Compiler.exec_in.
    destruct (exec c m (Compiler.set_doc m docstring st2)) as [o3 st4] eqn:Hrun.
    apply Hexec in Hrun.
    assert (Hst4 : Compiler.keeps_modules st st4)
      by (intros name m2 Hm2; apply Hrun; simpl; by apply Hst2).
    destruct o3; by intros [= _ <-]. }
  assert (Hrefl : Compiler.keeps_modules st st) by (by intros name m2 Hm2).
  destruct (Compiler.getattr st m "__file__") as [filename| |];
    [|by intros [= _ <-]..].
  destruct (Compiler.getattr st m "__name__") as [self_module| |];
    [|by intros [= _ <-]..].
  destruct source as [c|s]; [by apply Hin|].
  destruct (_compile s filename self_module st) as [[[c docstring]| |] st2] eqn:Hrun;
    apply Hcompile in Hrun; [by apply Hin|by intros [= _ <-]..].
Qed.

(** X21: [run] without a module makes one first.  The new module is in
    [sys.modules], under its generated name (one that holds no dot),
    before the source is compiled or run, and what [run] does then is
    [run] in that module.  So when compiling and running remove no entry
    of [sys.modules], the module is still registered after [run],
    whether [run] returns or raises. *)
Theorem run_registers_its_module_first
    {code src : Type} (isidentifier : string -> bool) (repr_str : string -> string)
    (_compile : src -> Compiler.value -> Compiler.value -> Compiler.pystate
                -> outcome (code * Compiler.value) * Compiler.pystate)
    (exec : code -> nat -> Compiler.pystate -> outcome unit * Compiler.pystate)
    (source : Compiler.source) (uuid : string) (st : Compiler.pystate) :
  Discovery.mentions "."%char uuid = false ->
  let name := "dynamically_created_module_" +:+ uuid in
  let module := Compiler.next_id st in
  exists st1,
    Compiler.create_module isidentifier repr_str Compiler.PNone Compiler.PNone uuid st
    = (Ok module, st1) /\
    Compiler.sys_modules st1 !! name = Some module /\
    Compiler.run isidentifier repr_str _compile exec source Compiler.NoModule uuid st
    = Compiler.run isidentifier repr_str _compile exec source (Compiler.ByObject module)
        uuid st1 /\
    ((forall s f n st2 o2 st3,
         _compile s f n st2 = (o2, st3) -> Compiler.keeps_modules st2 st3) ->
     (forall c m2 st2 o2 st3,
         exec c m2 st2 = (o2, st3) -> Compiler.keeps_modules st2 st3) ->
     forall o st',
       Compiler.run isidentifier repr_str _compile exec source Compiler.NoModule uuid st
       = (o, st') ->
       Compiler.sys_modules st' !! name = Some module).
Proof.
  intros Huuid name module.
  assert (Hcreate : exists st1,
            Compiler.create_module isidentifier repr_str Compiler.PNone Compiler.PNone uuid st
            = (Ok module, st1) /\
            Compiler.sys_modules st1 !! name = Some module).
  { unfold Compiler.create_module. simpl. unfold Compiler.register.
    rewrite rsplit_dot_None by (by rewrite mentions_append, Huuid).
    eexists. split; [reflexivity|]. simpl. by rewrite lookup_insert_eq. }
  destruct Hcreate as (st1 & Hcreate & Hname).
  assert (Hrun : Compiler.run isidentifier repr_str _compile exec source
                   Compiler.NoModule uuid st
                 = Compiler.run isidentifier repr_str _compile exec source
                     (Compiler.ByObject module) uuid st1).
  { unfold Compiler.run at 1. rewrite Hcreate. reflexivity. }
  exists st1. split; [done|]. split; [done|]. split; [done|].
  intros Hcompile Hexec o st'. rewrite Hrun. intros Hrun'.
  by apply (run_by_object_keeps _ _ _ _ _ _ _ _ _ _ Hcompile Hexec Hrun').
Qed.

(** X22: a module made by [create_module] is found again by [run] under
    its name.  [run] in the module of that name is [run] in that very
    module object: a code object is executed in it, with [__doc__] set
    to [None] first, and a source is compiled with the name and the file
    name that [create_module] gave the module. *)
Theorem run_by_name_uses_the_created_module
    {code src : Type} (isidentifier : string -> bool) (repr_str : string -> string)
    (_compile : src -> Compiler.value -> Compiler.value -> Compiler.pystate
                -> outcome (code * Compiler.value) * Compiler.pystate)
    (exec : code -> nat -> Compiler.pystate -> outcome unit * Compiler.pystate)
    (name : string) (filename : Compiler.pyarg) (uuid uuid' : string)
    (st st' : Compiler.pystate) (m : nat) :
  Compiler.wellformed st ->
  name <> "" ->
  Compiler.create_module isidentifier repr_str (Compiler.PStr name) filename uuid st
  = (Ok m, st') ->
  (forall source,
      Compiler.run isidentifier repr_str _compile exec source (Compiler.ByName name) uuid' st'
      = Compiler.run isidentifier repr_str _compile exec source (Compiler.ByObject m) uuid' st') /\
  (forall c,
      Compiler.run isidentifier repr_str _compile exec (Compiler.Compiled c)
        (Compiler.ByName name) uuid' st'
      = Compiler.exec_in exec c m (Compiler.set_doc m Compiler.VNone st')) /\
  (forall s,
      Compiler.run isidentifier repr_str _compile exec (Compiler.ToCompile s)
        (Compiler.ByName name) uuid' st'
      = match _compile s (Compiler.VStr (Compiler.module_filename (Compiler.PStr name) filename uuid))
                (Compiler.VStr name) st' with
        | (Ok (c, docstring), st2) =>
            Compiler.exec_in exec c m (Compiler.set_doc m docstring st2)
        | (Raise e, st2) => (Raise e, st2)
        | (OutOfFuel, st2) => (OutOfFuel, st2)
        end).
Proof.
  intros Hwf Hname Hcreate.
  destruct (create_module_Ok_facts isidentifier repr_str
              (Compiler.PStr name) filename uuid st st' m Hwf Hcreate)
    as (Hlookup & Hfile & Hmname).
  unfold Compiler.module_name in Hlookup, Hmname.
  rewrite (bool_decide_eq_false_2 _ Hname) in Hlookup, Hmname.
  split; [|split].
  - intros source. unfold Compiler.run. by rewrite Hlookup.
  - intros c. unfold Compiler.run. rewrite Hlookup.
    unfold Compiler.getattr. by rewrite Hfile, Hmname.
  - intros s. unfold Compiler.run. rewrite Hlookup.
    unfold Compiler.getattr. by rewrite Hfile, Hmname.
Qed.

Lemma no_modules_wellformed : Compiler.wellformed no_modules.
Proof. split; intros ? ?; simpl; by rewrite lookup_empty. Qed.

(** A run of X19, the scenario of the test suite: [flip] is created,
    then [flip.flop]; [flip.flop] is the module [flop], whose
    [__package__] is [flip]. *)
Lemma create_module_obeys_package_semantics_witness :
  exists flip flop st1 st2,
    sample_create_module "flip" no_modules = (Ok flip, st1) /\
    sample_create_module "flip.flop" st1 = (Ok flop, st2) /\
    Compiler.module_attr st1 flip "__package__" = Some Compiler.VNone /\
    Compiler.module_attr st2 flop "__package__" = Some (Compiler.VStr "flip") /\
    Compiler.module_attr st2 flip "flop" = Some (Compiler.VModule flop).
Proof.
  destruct (sample_create_module "flip" no_modules) as [[flip| |] st1] eqn:Hflip;
    try (vm_compute in Hflip; discriminate).
  destruct (create_module_obeys_package_semantics _ _ _ _ _ _ _ _
              no_modules_wellformed Hflip) as (_ & Hreg1 & _ & _ & _ & Hpackage1 & Hwf1).
  destruct (sample_create_module "flip.flop" st1) as [[flop| |] st2] eqn:Hflop;
    try (vm_compute in Hflip; injection Hflip as <- <-; vm_compute in Hflop; discriminate).
  destruct (create_module_obeys_package_semantics _ _ _ _ _ _ _ _ Hwf1 Hflop)
    as (_ & _ & _ & _ & _ & Hpackage2 & _).
  exists flip, flop, st1, st2. split; [reflexivity|]. split; [exact Hflop|].
  split; [exact Hpackage1|].
  change (Compiler.module_name (Compiler.PStr "flip.flop") "0a1b") with "flip.flop"
    in Hpackage2.
  change (Compiler.rsplit_dot "flip.flop") with (Some ("flip", "flop")) in Hpackage2.
  destruct Hpackage2 as (_ & Hpackage & package & Hparent & Hattr).
  split; [exact Hpackage|].
  change (Compiler.module_name (Compiler.PStr "flip") "0a1b") with "flip" in Hreg1.
  rewrite Hreg1 in Hparent. by injection Hparent as <-.
Defined.

(** A run of X20, from the test suite: [flip.flop] cannot be created
    while there is no [flip]. *)
Lemma create_module_failure_registers_nothing_witness :
  sample_create_module "flip.flop" no_modules
  = (Raise (ModuleNotFoundError
              "while dynamically creating module 'flip.flop': its parent package 'flip' not found in `sys.modules`"),
     no_modules).
Proof.
  exact (proj2 (create_module_failure_registers_nothing sample_isidentifier sample_repr
                  (Compiler.PStr "flip.flop") Compiler.PNone "0a1b" no_modules)
           "flip.flop" "flip" "flop" eq_refl eq_refl eq_refl eq_refl eq_refl).
Defined.

(** A run of X21: the source does not compile, and the module made for
    it stays in [sys.modules]. *)
Lemma run_registers_its_module_first_witness :
  exists st',
    Compiler.run sample_isidentifier sample_repr failing_compile sample_exec
      (Compiler.ToCompile "x = ") Compiler.NoModule "0a1b" no_modules
    = (Raise (SyntaxError "invalid syntax"), st') /\
    Compiler.sys_modules st' !! "dynamically_created_module_0a1b" = Some 0.
Proof.
  destruct (Compiler.run sample_isidentifier sample_repr failing_compile sample_exec
              (Compiler.ToCompile "x = ") Compiler.NoModule "0a1b" no_modules)
    as [o st'] eqn:Hrun.
  destruct (run_registers_its_module_first sample_isidentifier sample_repr
              failing_compile sample_exec (Compiler.ToCompile "x = ") "0a1b"
              no_modules eq_refl) as (st1 & _ & _ & _ & Hkept).
  exists st'. split.
  - vm_compute in Hrun. by injection Hrun as <- <-.
  - apply (Hkept (fun s f n st2 o2 st3 (H : failing_compile s f n st2 = (o2, st3)) =>
                    eq_ind st2 (fun st4 => Compiler.keeps_modules st2 st4)
                      (fun name m Hm => Hm) st3 (f_equal snd H))
                 (fun c m2 st2 o2 st3 (H : sample_exec c m2 st2 = (o2, st3)) =>
                    eq_ind (snd (sample_exec c m2 st2))
                      (fun st4 => Compiler.keeps_modules st2 st4)
                      (fun name m Hm => Hm) st3 (f_equal snd H))
                 o st' Hrun).
Defined.

(** A run of X22: code run in the module [mymod] by its name binds [x]
    there. *)
Lemma run_by_name_uses_the_created_module_witness :
  exists mymod st1 st2,
    sample_create_module "mymod" no_modules = (Ok mymod, st1) /\
    Compiler.run sample_isidentifier sample_repr failing_compile sample_exec
      (Compiler.Compiled 17) (Compiler.ByName "mymod") "0a1b" st1 = (Ok mymod, st2) /\
    Compiler.module_attr st2 mymod "x" = Some (Compiler.VObject 17).
Proof.
  destruct (sample_create_module "mymod" no_modules) as [[mymod| |] st1] eqn:Hcreate;
    try (vm_compute in Hcreate; discriminate).
  destruct (run_by_name_uses_the_created_module sample_isidentifier sample_repr
              failing_compile sample_exec "mymod" Compiler.PNone "0a1b" "0a1b"
              no_modules st1 mymod no_modules_wellformed ltac:(discriminate) Hcreate)
    as (_ & Hrun & _).
  eexists mymod, st1, _. split; [reflexivity|]. split; [apply Hrun|].
  vm_compute in Hcreate. injection Hcreate as <- <-. reflexivity.
Defined.
